(** * A segregated-free-list allocator (mm.c): shallow embedding and verification

    The allocator manages one growable arena.  The first 24 words of the
    arena hold the heads of the per-class free lists, word 24 is the
    prologue, and the last word of the arena is the epilogue.  Every block
    starts with a header word [length | currAllocated | leftAllocated];
    a free block repeats that word in its last word (footer) and keeps
    [prev]/[next] links in the two words that follow the header. *)

From Stdlib Require Import ZArith List Lia Bool.
Import ListNotations.
Open Scope Z_scope.

(** ** Machine arithmetic *)

Definition ALIGNMENT : Z := 16.
Definition WORDSIZE : Z := 8.
Definition NULL : Z := 0.

Definition two64 : Z := 18446744073709551616.

(** Wrap-around of [size_t] / [uint64_t] arithmetic. *)
Definition u64 (x : Z) : Z := x mod two64.

(** ** Byte-addressed memory *)

Definition memory := Z -> Z.

Definition byte_at (m : memory) (a : Z) : Z := m a mod 256.

Definition upd (m : memory) (a b : Z) : memory :=
  fun x => if x =? a then b else m x.

(** Little-endian load and store of an [n]-byte word. *)
Fixpoint load_le (m : memory) (a : Z) (n : nat) : Z :=
  match n with
  | O => 0
  | S k => byte_at m a + 256 * load_le m (a + 1) k
  end.

Fixpoint store_le (m : memory) (a : Z) (n : nat) (v : Z) : memory :=
  match n with
  | O => m
  | S k => store_le (upd m a (v mod 256)) (a + 1) k (v / 256)
  end.

(** [mem_memcpy(&local, ptr, WORDSIZE)] and [mem_memcpy(ptr, &local, WORDSIZE)]:
    the local variable is a 64-bit word. *)
Definition load64 (m : memory) (a : Z) : Z := load_le m a 8.
Definition store64 (m : memory) (a v : Z) : memory := store_le m a 8 v.

(** Modelled from the spec: the arena provider's [mem_memcpy] between two
    places of the arena ([memlib.c] is not part of the sources).  The
    source bytes are read before any byte is written. *)
Definition mem_memcpy (m : memory) (dst src n : Z) : memory :=
  fun x => if (dst <=? x) && (x <? dst + n) then m (src + (x - dst)) else m x.

(** Modelled from the spec: the arena provider's [mem_memset]. *)
Definition mem_memset (m : memory) (dst c n : Z) : memory :=
  fun x => if (dst <=? x) && (x <? dst + n) then c mod 256 else m x.

(** ** Allocator and arena-provider state *)

(** The globals of mm.c ([initialized], [heap_start]) together with the
    state of the arena provider.  [sbrk_log] is a ghost record of the
    growth requests made so far (most recent first); no code reads it. *)
Record heap : Type := mkHeap {
  mem : memory;
  mem_start_brk : Z;
  mem_brk : Z;
  mem_max_addr : Z;
  sbrk_log : list Z;
  initialized : bool;
  heap_start : Z
}.

Definition with_mem (s : heap) (m : memory) : heap :=
  mkHeap m (mem_start_brk s) (mem_brk s) (mem_max_addr s) (sbrk_log s)
         (initialized s) (heap_start s).

Definition mem_heap_lo (s : heap) : Z := mem_start_brk s.
Definition mem_heap_hi (s : heap) : Z := mem_brk s - 1.

(** The value [(void * )-1] that [allocateExtra] tests for. *)
Definition sbrk_failed : Z := two64 - 1.

(** Modelled from the spec: the arena provider's [mem_sbrk] -- extend the
    arena by [incr] bytes and return the old top, or fail when the
    provider's capacity would be exceeded. *)
Definition mem_sbrk (s : heap) (incr : Z) : Z * heap :=
  let s1 := mkHeap (mem s) (mem_start_brk s) (mem_brk s) (mem_max_addr s)
                   (incr :: sbrk_log s) (initialized s) (heap_start s) in
  if mem_brk s + incr <=? mem_max_addr s then
    (mem_brk s,
     mkHeap (mem s) (mem_start_brk s) (mem_brk s + incr) (mem_max_addr s)
            (incr :: sbrk_log s) (initialized s) (heap_start s))
  else (sbrk_failed, s1).

(** ** Block codec *)

Definition align_new (x : Z) : Z :=
  u64 (ALIGNMENT * (u64 (x + WORDSIZE + ALIGNMENT - 1) / ALIGNMENT) - WORDSIZE).

Definition getLength (m : memory) (ptr : Z) : Z :=
  (load64 m ptr / WORDSIZE) * WORDSIZE.

Definition getLeftAllocated (m : memory) (ptr : Z) : bool :=
  let space := load64 m ptr in
  (space mod 4 =? 2) || (space mod 4 =? 3).

Definition construct_new (m : memory) (ptr length : Z)
    (currAllocated leftAllocated : bool) : memory :=
  let space := length in
  let space := if currAllocated then Z.lor space 1 else space in
  let space := if leftAllocated then Z.lor space 2 else space in
  store64 m ptr space.

Definition deconstruct_new (m : memory) (ptr : Z) : Z * bool * bool :=
  let space := load64 m ptr in
  ((space / WORDSIZE) * WORDSIZE,
   space mod 2 =? 1,
   (space mod 4 =? 2) || (space mod 4 =? 3)).

Definition setLeftAllocated (m : memory) (ptr : Z) (leftAllocated : bool)
    : memory :=
  let '(length, currAllocated, _) := deconstruct_new m ptr in
  construct_new m ptr length currAllocated leftAllocated.

(** ** Size classes *)

(** [ceil(log(x)/log(2))] of the source, taken as the exact ceiling of the
    binary logarithm. *)
Definition ceil_log2 (x : Z) : Z := Z.log2_up x.

Definition calculateClass_new (requiredBytes : Z) : Z :=
  let aligned_to_16 := u64 (requiredBytes + WORDSIZE) in
  if aligned_to_16 <=? 256 then u64 (aligned_to_16 / ALIGNMENT - 1)
  else if aligned_to_16 <=? 32768 then u64 (ceil_log2 aligned_to_16 + 7)
  else 23.

(** ** Initialisation *)

Definition mm_init (s : heap) : bool * heap :=
  let '(r, s1) := mem_sbrk s (26 * WORDSIZE) in
  if r =? NULL then (false, s1)
  else
    let hs := mem_heap_lo s1 in
    let m := mem_memset (mem s1) hs 0 (26 * WORDSIZE) in
    let m := construct_new m (hs + 24 * WORDSIZE) 0 true true in
    let m := construct_new m (hs + 25 * WORDSIZE) 0 true true in
    (true,
     mkHeap m (mem_start_brk s1) (mem_brk s1) (mem_max_addr s1)
            (sbrk_log s1) true hs).

(** ** Free-list index *)

Definition insertIntoFreeList (m : memory) (class_addr curr_addr : Z)
    : memory :=
  let first_addr := load64 m class_addr in
  if negb (first_addr =? 0) then
    let m := store64 m (first_addr + WORDSIZE) curr_addr in
    let m := store64 m class_addr curr_addr in
    let m := mem_memset m (curr_addr + WORDSIZE) 0 WORDSIZE in
    store64 m (curr_addr + 2 * WORDSIZE) first_addr
  else
    let m := store64 m class_addr curr_addr in
    let m := mem_memset m (curr_addr + WORDSIZE) 0 WORDSIZE in
    mem_memset m (curr_addr + 2 * WORDSIZE) 0 WORDSIZE.

Definition removeFromFreeList (hs : Z) (m : memory) (start_addr length : Z)
    : memory :=
  let class_addr := hs + calculateClass_new length * WORDSIZE in
  let prev := load64 m (start_addr + WORDSIZE) in
  let next := load64 m (start_addr + 2 * WORDSIZE) in
  if (prev =? 0) && negb (next =? 0) then
    let m := store64 m class_addr next in
    mem_memset m (next + WORDSIZE) 0 WORDSIZE
  else if negb (prev =? 0) && negb (next =? 0) then
    let m := store64 m (prev + 2 * WORDSIZE) next in
    store64 m (next + WORDSIZE) prev
  else if (prev =? 0) && (next =? 0) then
    mem_memset m class_addr 0 WORDSIZE
  else
    mem_memset m (prev + 2 * WORDSIZE) 0 WORDSIZE.

(** ** Release engine *)

(** The body of [free] for a non-null pointer, on the arena memory;
    [hs] is the global [heap_start]. *)
Definition free_block (hs : Z) (m : memory) (ptr : Z) : memory :=
  let curr_addr := ptr in
  let '(curr_length, _, left_allocated) :=
    deconstruct_new m (curr_addr - WORDSIZE) in
  let '(right_length, right_allocated, _) :=
    deconstruct_new m (curr_addr + curr_length) in
  let '(left_length, left_left_allocated) :=
    if negb left_allocated then
      let '(l, _, lla) := deconstruct_new m (curr_addr - 2 * WORDSIZE) in
      (l, lla)
    else (0, false) in
  let '(m, class_addr, curr_addr, total_length) :=
    if left_allocated && right_allocated then
      let total_length := curr_length in
      let class_addr := hs + calculateClass_new total_length * WORDSIZE in
      let curr_addr := curr_addr - WORDSIZE in
      let m := construct_new m curr_addr total_length false true in
      let m := mem_memcpy m (curr_addr + total_length) curr_addr WORDSIZE in
      (m, class_addr, curr_addr, total_length)
    else if left_allocated && negb right_allocated then
      let total_length := u64 (curr_length + WORDSIZE + right_length) in
      let class_addr := hs + calculateClass_new total_length * WORDSIZE in
      let curr_addr := curr_addr - WORDSIZE in
      let m := if WORDSIZE <? right_length
               then removeFromFreeList hs m
                      (curr_addr + curr_length + WORDSIZE) right_length
               else m in
      let m := construct_new m curr_addr total_length false true in
      let m := mem_memcpy m (curr_addr + total_length) curr_addr WORDSIZE in
      (m, class_addr, curr_addr, total_length)
    else if negb left_allocated && right_allocated then
      let total_length := u64 (left_length + WORDSIZE + curr_length) in
      let class_addr := hs + calculateClass_new total_length * WORDSIZE in
      let curr_addr := curr_addr - u64 (2 * WORDSIZE + left_length) in
      let m := if WORDSIZE <? left_length
               then removeFromFreeList hs m curr_addr left_length
               else m in
      let m := construct_new m curr_addr total_length false
                 left_left_allocated in
      let m := mem_memcpy m (curr_addr + total_length) curr_addr WORDSIZE in
      (m, class_addr, curr_addr, total_length)
    else
      let total_length :=
        u64 (left_length + curr_length + right_length + 2 * WORDSIZE) in
      let class_addr := hs + calculateClass_new total_length * WORDSIZE in
      let curr_addr := curr_addr - u64 (2 * WORDSIZE + left_length) in
      let m := if WORDSIZE <? left_length
               then removeFromFreeList hs m curr_addr left_length
               else m in
      let m := if WORDSIZE <? right_length
               then removeFromFreeList hs m
                      (curr_addr + u64 (left_length + curr_length
                                        + 2 * WORDSIZE))
                      right_length
               else m in
      let m := construct_new m curr_addr total_length false
                 left_left_allocated in
      let m := mem_memcpy m (curr_addr + total_length) curr_addr WORDSIZE in
      (m, class_addr, curr_addr, total_length) in
  let m := setLeftAllocated m (curr_addr + u64 (WORDSIZE + total_length))
             false in
  if WORDSIZE <? total_length then insertIntoFreeList m class_addr curr_addr
  else m.

Definition free (s : heap) (ptr : Z) : heap :=
  if ptr =? NULL then s
  else with_mem s (free_block (heap_start s) (mem s) ptr).

(** ** Allocation engine *)

Definition allocateExtra (s : heap) (requiredBytes : Z) : Z * heap :=
  let old_epi_addr := mem_heap_hi s - 7 in
  let new_epi_addr := old_epi_addr + u64 (requiredBytes + WORDSIZE) in
  let '(r, s1) := mem_sbrk s (u64 (requiredBytes + WORDSIZE)) in
  if r =? sbrk_failed then (NULL, s1)
  else
    let m := mem_memcpy (mem s1) new_epi_addr old_epi_addr WORDSIZE in
    let leftAllocated := getLeftAllocated m old_epi_addr in
    let m := construct_new m old_epi_addr requiredBytes true leftAllocated in
    let m := setLeftAllocated m new_epi_addr true in
    (old_epi_addr + WORDSIZE, with_mem s1 m).

Definition allocateWithinHeap (s : heap)
    (start_addr requiredBytes length class : Z) : Z * heap :=
  let m := mem s in
  let leftAllocated := getLeftAllocated m start_addr in
  let m := removeFromFreeList (heap_start s) m start_addr length in
  let m := construct_new m start_addr requiredBytes true leftAllocated in
  if requiredBytes <? length then
    let m := construct_new m (start_addr + u64 (requiredBytes + WORDSIZE))
               (u64 (length - requiredBytes - WORDSIZE)) false true in
    let m := construct_new m (start_addr + length)
               (u64 (length - requiredBytes - WORDSIZE)) false true in
    (start_addr + WORDSIZE,
     free (with_mem s m) (start_addr + u64 (requiredBytes + 2 * WORDSIZE)))
  else
    let m := setLeftAllocated m (start_addr + u64 (length + WORDSIZE)) true in
    (start_addr + WORDSIZE, with_mem s m).

(** What the walk over one class list ends with: an immediate allocation
    from [curr_addr] (the two [return]s inside the inner loop), or the end
    of the list with the best fit seen so far. *)
Inductive scan_result : Type :=
| Take (curr_addr length : Z)
| EndOfList (bestLength best_addr : Z).

(** The inner [while (curr_addr != 0)] loop of [malloc]. *)
Fixpoint scan (fuel : nat) (m : memory) (class requiredBytes : Z)
    (curr_addr bestLength best_addr : Z) : option scan_result :=
  match fuel with
  | O => None
  | S fuel' =>
      if curr_addr =? 0 then Some (EndOfList bestLength best_addr)
      else
        let length := getLength m curr_addr in
        if class <? 16 then Some (Take curr_addr length)
        else if requiredBytes =? length then Some (Take curr_addr length)
        else
          let '(bestLength, best_addr) :=
            if requiredBytes <? length then
              if bestLength =? 0 then (length, curr_addr)
              else if length <? bestLength then (length, curr_addr)
              else (bestLength, best_addr)
            else (bestLength, best_addr) in
          scan fuel' m class requiredBytes
               (load64 m (curr_addr + 2 * WORDSIZE)) bestLength best_addr
  end.

(** Lines 335-340: the class probed after a miss. *)
Definition next_class (class : Z) (jumped : bool) : Z * bool :=
  if (class <? 16) && negb jumped then (u64 (class + 2), true)
  else (u64 (class + 1), jumped).

(** The outer [while (class < 24)] loop of [malloc]; [n] bounds the number
    of classes still to probe. *)
Fixpoint class_loop (n fuel : nat) (s : heap) (requiredBytes class : Z)
    (jumped : bool) : option (Z * heap) :=
  if class <? 24 then
    match n with
    | O => None
    | S n' =>
        match scan fuel (mem s) class requiredBytes
                (load64 (mem s) (heap_start s + class * WORDSIZE)) 0 0 with
        | None => None
        | Some (Take curr_addr length) =>
            Some (allocateWithinHeap s curr_addr requiredBytes length class)
        | Some (EndOfList bestLength best_addr) =>
            if negb (bestLength =? 0) then
              Some (allocateWithinHeap s best_addr requiredBytes bestLength
                      class)
            else
              let '(class', jumped') := next_class class jumped in
              class_loop n' fuel s requiredBytes class' jumped'
        end
    end
  else Some (allocateExtra s requiredBytes).

(** [malloc]; [None] only when a free-list walk exceeds [fuel] steps. *)
Definition malloc (fuel : nat) (s : heap) (size : Z) : option (Z * heap) :=
  if negb (initialized s) || (size <=? 0) then Some (NULL, s)
  else
    let requiredBytes := align_new size in
    let class := calculateClass_new requiredBytes in
    class_loop 24 fuel s requiredBytes class false.

(** ** Resize engine *)

Definition realloc (fuel : nat) (s : heap) (oldptr size : Z)
    : option (Z * heap) :=
  if oldptr =? NULL then malloc fuel s size
  else if size =? 0 then Some (NULL, free s oldptr)
  else
    let old_payload_addr := oldptr in
    let '(original_length, _, left_allocated) :=
      deconstruct_new (mem s) (old_payload_addr - WORDSIZE) in
    let requested_length := align_new size in
    if requested_length <? original_length then
      let m := construct_new (mem s) (old_payload_addr - WORDSIZE)
                 requested_length true left_allocated in
      let m := construct_new m (old_payload_addr + requested_length)
                 (u64 (original_length - requested_length - WORDSIZE))
                 false true in
      let m := construct_new m (old_payload_addr + original_length - WORDSIZE)
                 (u64 (original_length - requested_length - WORDSIZE))
                 false true in
      let s1 := free (with_mem s m)
                  (old_payload_addr + u64 (requested_length + WORDSIZE)) in
      let m := setLeftAllocated (mem s1) (old_payload_addr + original_length)
                 false in
      Some (oldptr, with_mem s1 m)
    else if original_length <? requested_length then
      match malloc fuel s requested_length with
      | None => None
      | Some (newptr, s1) =>
          if newptr =? NULL then Some (NULL, s1)
          else
            let m := mem_memcpy (mem s1) newptr oldptr original_length in
            Some (newptr, free (with_mem s1 m) oldptr)
      end
    else Some (oldptr, s).

(** ** Zeroed allocation *)


(** ** Sanity checks on small heaps *)

Definition heap0 : heap :=
  mkHeap (fun _ => 0) 4096 4096 (4096 + 65536) [] false 0.

Definition heap1 : heap := snd (mm_init heap0).

(** * Verification *)

Ltac Zify.zify_post_hook ::= Z.div_mod_to_equations.

(** ** Memory lemmas *)

Lemma load_le_ext (m m' : memory) (n : nat) : forall a,
  (forall x, a <= x < a + Z.of_nat n -> byte_at m' x = byte_at m x) ->
  load_le m' a n = load_le m a n.
Proof.
  induction n as [|k IH]; intros a H; simpl; [reflexivity|].
  rewrite (H a) by lia. rewrite (IH (a + 1)); [reflexivity|].
  intros x Hx. apply H. lia.
Qed.

Lemma load_le_range (m : memory) (n : nat) : forall a,
  0 <= load_le m a n < 256 ^ Z.of_nat n.
Proof.
  induction n as [|k IH]; intros a.
  - simpl. lia.
  - replace (Z.of_nat (S k)) with (Z.of_nat k + 1) by lia.
    rewrite Z.pow_add_r by lia. change (256 ^ 1) with 256.
    cbn [load_le]. specialize (IH (a + 1)). unfold byte_at.
    assert (0 <= m a mod 256 < 256) by (apply Z.mod_pos_bound; lia).
    nia.
Qed.

Lemma store_le_out (n : nat) : forall m a v x,
  x < a \/ a + Z.of_nat n <= x -> store_le m a n v x = m x.
Proof.
  induction n as [|k IH]; intros m a v x H; simpl; [reflexivity|].
  rewrite IH by lia. unfold upd.
  destruct (x =? a) eqn:E; [apply Z.eqb_eq in E; lia | reflexivity].
Qed.

Lemma load_store_le (n : nat) : forall m a v,
  load_le (store_le m a n v) a n = v mod 256 ^ Z.of_nat n.
Proof.
  induction n as [|k IH]; intros m a v.
  - simpl. rewrite Z.mod_1_r. reflexivity.
  - cbn [load_le store_le].
    rewrite IH. unfold byte_at. rewrite store_le_out by lia.
    unfold upd. rewrite Z.eqb_refl.
    replace (Z.of_nat (S k)) with (1 + Z.of_nat k) by lia.
    rewrite Z.pow_add_r by lia. change (256 ^ 1) with 256.
    rewrite Z.mod_mod by lia.
    rewrite (Z.rem_mul_r v 256 (256 ^ Z.of_nat k)); [reflexivity | lia |].
    apply Z.pow_pos_nonneg; lia.
Qed.

Lemma load64_range (m : memory) (a : Z) : 0 <= load64 m a < two64.
Proof. apply (load_le_range m 8 a). Qed.

Lemma load64_ext (m m' : memory) (a : Z) :
  (forall x, a <= x < a + 8 -> byte_at m' x = byte_at m x) ->
  load64 m' a = load64 m a.
Proof. intros H. apply load_le_ext. exact H. Qed.

Lemma load64_store64_eq (m : memory) (a v : Z) :
  load64 (store64 m a v) a = u64 v.
Proof. apply (load_store_le 8). Qed.

Lemma load64_store64_ne (m : memory) (a v a' : Z) :
  a' + 8 <= a \/ a + 8 <= a' ->
  load64 (store64 m a v) a' = load64 m a'.
Proof.
  intros H. apply load64_ext. intros x Hx. unfold byte_at, store64.
  rewrite store_le_out by (simpl; lia). reflexivity.
Qed.

Lemma load_le_zero (m : memory) (n : nat) : forall a,
  (forall x, a <= x < a + Z.of_nat n -> byte_at m x = 0) ->
  load_le m a n = 0.
Proof.
  induction n as [|k IH]; intros a H; simpl; [reflexivity|].
  rewrite (H a) by lia. rewrite IH; [reflexivity|].
  intros x Hx. apply H. lia.
Qed.

Lemma load64_memset_eq (m : memory) (a : Z) :
  load64 (mem_memset m a 0 WORDSIZE) a = 0.
Proof.
  apply load_le_zero. intros x Hx. unfold byte_at, mem_memset, WORDSIZE.
  simpl in Hx.
  destruct (a <=? x) eqn:E1; destruct (x <? a + 8) eqn:E2; simpl; try reflexivity; lia.
Qed.

Lemma load64_memset_ne (m : memory) (a c n a' : Z) :
  a' + 8 <= a \/ a + n <= a' ->
  load64 (mem_memset m a c n) a' = load64 m a'.
Proof.
  intros H. apply load64_ext. intros x Hx. unfold byte_at, mem_memset.
  destruct (a <=? x) eqn:E1; destruct (x <? a + n) eqn:E2; simpl; try reflexivity; lia.
Qed.

Lemma load_le_shift (m m' : memory) (n : nat) : forall a b,
  (forall i, 0 <= i < Z.of_nat n -> byte_at m' (a + i) = byte_at m (b + i)) ->
  load_le m' a n = load_le m b n.
Proof.
  induction n as [|k IH]; intros a b H; simpl; [reflexivity|].
  generalize (H 0). rewrite !Z.add_0_r. intros ->; [|lia].
  rewrite (IH (a + 1) (b + 1)); [reflexivity|].
  intros i Hi. replace (a + 1 + i) with (a + (1 + i)) by lia.
  replace (b + 1 + i) with (b + (1 + i)) by lia. apply H. lia.
Qed.

Lemma load64_memcpy_eq (m : memory) (d s : Z) :
  load64 (mem_memcpy m d s WORDSIZE) d = load64 m s.
Proof.
  apply load_le_shift. intros i Hi. unfold byte_at, mem_memcpy, WORDSIZE.
  simpl in Hi.
  destruct (d <=? d + i) eqn:E1; destruct (d + i <? d + 8) eqn:E2; simpl; try lia.
  replace (s + (d + i - d)) with (s + i) by lia. reflexivity.
Qed.

Lemma load64_memcpy_ne (m : memory) (d s n a' : Z) :
  a' + 8 <= d \/ d + n <= a' ->
  load64 (mem_memcpy m d s n) a' = load64 m a'.
Proof.
  intros H. apply load64_ext. intros x Hx. unfold byte_at, mem_memcpy.
  destruct (d <=? x) eqn:E1; destruct (x <? d + n) eqn:E2; simpl; try reflexivity; lia.
Qed.

(** ** Codec lemmas *)

(** The metadata word of a block, as arithmetic on an 8-aligned length. *)
Definition hdr (len : Z) (c l : bool) : Z :=
  len + (if c then 1 else 0) + (if l then 2 else 0).

Lemma lor_bit0 (x : Z) : x mod 2 = 0 -> Z.lor x 1 = x + 1.
Proof.
  intros H. pose proof (Z.add_lor_land x 1) as E.
  change 1 with (Z.ones 1) in E at 2. rewrite Z.land_ones in E by lia.
  change (2 ^ 1) with 2 in E. lia.
Qed.

Lemma lor_bit1 (x : Z) : (x / 2) mod 2 = 0 -> Z.lor x 2 = x + 2.
Proof.
  intros H. pose proof (Z.add_lor_land x 2) as E.
  assert (Z.land x 2 = 0) as E0.
  { apply Z.bits_inj'. intros n Hn. rewrite Z.land_spec, Z.bits_0.
    change 2 with (2 ^ 1). rewrite Z.pow2_bits_eqb by lia.
    destruct (Z.eqb_spec 1 n) as [<-|]; [|apply andb_false_r].
    apply andb_false_intro1. apply Z.testbit_false; [lia|].
    change (2 ^ 1) with 2. exact H. }
  lia.
Qed.

Lemma construct_new_hdr (m : memory) (p len : Z) (c l : bool) :
  len mod 8 = 0 ->
  construct_new m p len c l = store64 m p (hdr len c l).
Proof.
  intros H. unfold construct_new, hdr. f_equal.
  destruct c, l; rewrite ?lor_bit0, ?lor_bit1; lia.
Qed.

Lemma hdr_length (len : Z) (c l : bool) :
  len mod 8 = 0 -> hdr len c l / 8 * 8 = len.
Proof. intros H. unfold hdr. destruct c, l; lia. Qed.

Lemma hdr_cur (len : Z) (c l : bool) :
  len mod 8 = 0 -> (hdr len c l mod 2 =? 1) = c.
Proof.
  intros H. unfold hdr.
  destruct c, l; [apply Z.eqb_eq | apply Z.eqb_eq | apply Z.eqb_neq
                 | apply Z.eqb_neq]; lia.
Qed.

Lemma hdr_left (len : Z) (c l : bool) :
  len mod 8 = 0 ->
  (hdr len c l mod 4 =? 2) || (hdr len c l mod 4 =? 3) = l.
Proof.
  intros H. unfold hdr.
  destruct c, l; simpl.
  - apply orb_true_iff. right. apply Z.eqb_eq. lia.
  - apply orb_false_iff. split; apply Z.eqb_neq; lia.
  - apply orb_true_iff. left. apply Z.eqb_eq. lia.
  - apply orb_false_iff. split; apply Z.eqb_neq; lia.
Qed.

Lemma hdr_range (len : Z) (c l : bool) :
  len mod 8 = 0 -> 0 <= len < two64 -> 0 <= hdr len c l < two64.
Proof. unfold hdr, two64. intros H1 H2. destruct c, l; lia. Qed.

Lemma hdr_inj (len len' : Z) (c c' l l' : bool) :
  len mod 8 = 0 -> len' mod 8 = 0 -> hdr len c l = hdr len' c' l' ->
  len = len' /\ c = c' /\ l = l'.
Proof.
  intros H1 H2 E.
  pose proof (hdr_length len c l H1) as A. rewrite E in A.
  rewrite hdr_length in A by assumption.
  pose proof (hdr_cur len c l H1) as B. rewrite E in B.
  rewrite hdr_cur in B by assumption.
  pose proof (hdr_left len c l H1) as C. rewrite E in C.
  rewrite hdr_left in C by assumption. auto.
Qed.

Lemma u64_small (x : Z) : 0 <= x < two64 -> u64 x = x.
Proof. unfold u64, two64. intros H. lia. Qed.

Lemma deconstruct_new_hdr (m : memory) (p len : Z) (c l : bool) :
  len mod 8 = 0 -> load64 m p = hdr len c l ->
  deconstruct_new m p = (len, c, l).
Proof.
  intros H E. unfold deconstruct_new, WORDSIZE. rewrite E.
  rewrite hdr_length, hdr_cur, hdr_left by assumption. reflexivity.
Qed.

Lemma getLength_hdr (m : memory) (p len : Z) (c l : bool) :
  len mod 8 = 0 -> load64 m p = hdr len c l -> getLength m p = len.
Proof.
  intros H E. unfold getLength, WORDSIZE. rewrite E.
  apply hdr_length; assumption.
Qed.

Lemma getLeftAllocated_hdr (m : memory) (p len : Z) (c l : bool) :
  len mod 8 = 0 -> load64 m p = hdr len c l -> getLeftAllocated m p = l.
Proof.
  intros H E. unfold getLeftAllocated. rewrite E.
  apply hdr_left; assumption.
Qed.

Lemma setLeftAllocated_hdr (m : memory) (p len : Z) (c l l' : bool) :
  len mod 8 = 0 -> load64 m p = hdr len c l ->
  setLeftAllocated m p l' = store64 m p (hdr len c l').
Proof.
  intros H E. unfold setLeftAllocated.
  rewrite (deconstruct_new_hdr m p len c l) by assumption.
  apply construct_new_hdr; assumption.
Qed.

(** Whatever word it finds, [setLeftAllocated] is one word store. *)
Lemma setLeftAllocated_store (m : memory) (p : Z) (l' : bool) :
  exists v, setLeftAllocated m p l' = store64 m p v /\
            (load64 m p mod 8 = 0 -> l' = false -> v = load64 m p).
Proof.
  unfold setLeftAllocated, deconstruct_new, WORDSIZE.
  set (w := load64 m p).
  eexists. split.
  - apply construct_new_hdr. lia.
  - intros Hw ->. unfold hdr.
    assert ((w mod 2 =? 1) = false) as -> by (apply Z.eqb_neq; lia). lia.
Qed.

(** ** The heap invariant *)

(** Status of a block in the abstract view of the arena: allocated, free
    (mirrored footer, linked in its class list), or [Limbo] -- a block in
    the middle of an operation, whose header carries a length but whose
    flags and neighbours are not yet settled. *)
Inductive status : Type := Alloc | Free | Limbo.

Definition block : Type := (Z * status)%type.

Fixpoint size (bs : list block) : Z :=
  match bs with
  | [] => 0
  | (len, _) :: r => len + 8 + size r
  end.

(** The blocks of [bs] laid out from address [a]: address, length, status. *)
Fixpoint place (a : Z) (bs : list block) : list (Z * Z * status) :=
  match bs with
  | [] => []
  | (len, st) :: r => (a, len, st) :: place (a + len + 8) r
  end.

Definition left_ok (pa : option bool) (l : bool) : Prop :=
  match pa with None => True | Some b => l = b end.

Definition next_pa (st : status) : option bool :=
  match st with Alloc => Some true | Free => Some false | Limbo => None end.

Definition cur_ok (st : status) (c : bool) : Prop :=
  match st with Alloc => c = true | Free => c = false | Limbo => True end.

Fixpoint end_pa (pa : option bool) (bs : list block) : option bool :=
  match bs with
  | [] => pa
  | (_, st) :: r => end_pa (next_pa st) r
  end.

(** [blocks m a pa bs e]: the metadata words found in [m] between [a] and
    [e] are those of the block sequence [bs]; [pa] is what is known about
    the block that precedes [a]. *)
Fixpoint blocks (m : memory) (a : Z) (pa : option bool) (bs : list block)
    (e : Z) : Prop :=
  match bs with
  | [] => a = e
  | (len, st) :: r =>
      8 <= len /\ len mod 16 = 8 /\
      (exists c l, load64 m a = hdr len c l /\ cur_ok st c /\ left_ok pa l) /\
      (st = Free -> load64 m (a + len) = load64 m a) /\
      blocks m (a + len + 8) (next_pa st) r e
  end.

Fixpoint no_adj (bs : list block) : Prop :=
  match bs with
  | [] => True
  | (_, st) :: r =>
      match st, r with
      | Free, (_, Free) :: _ => False
      | _, _ => True
      end /\ no_adj r
  end.

Definition no_limbo (bs : list block) : Prop :=
  Forall (fun b : block => snd b <> Limbo) bs.

(** A doubly linked list threaded through the words that follow the
    headers of the blocks [L]; [prev] is the predecessor of the first node
    and [nend] the successor of the last one. *)
Fixpoint links (m : memory) (prev : Z) (L : list Z) (nend : Z) : Prop :=
  match L with
  | [] => True
  | x :: r =>
      load64 m (x + 8) = prev /\ load64 m (x + 16) = hd nend r /\
      links m x r nend
  end.

Definition first_block (s : heap) : Z := heap_start s + 200.
Definition epilogue (s : heap) : Z := mem_brk s - 8.

Record inv (s : heap) (bs : list block) (fl : Z -> list Z) : Prop := {
  inv_init : initialized s = true;
  inv_lo : heap_start s = mem_start_brk s;
  inv_pos : 0 <= heap_start s;
  inv_al : heap_start s mod 16 = 0;
  inv_brk : mem_brk s <= mem_max_addr s /\ mem_max_addr s <= two64;
  inv_blocks :
    blocks (mem s) (first_block s) (Some true) bs (epilogue s);
  inv_epi : exists len l, len mod 8 = 0 /\ 0 <= len < two64 /\
              load64 (mem s) (epilogue s) = hdr len true l;
  inv_noadj : no_adj bs;
  inv_links : forall c, 0 <= c < 24 ->
    load64 (mem s) (heap_start s + 8 * c) = hd 0 (fl c) /\
    links (mem s) 0 (fl c) 0 /\ NoDup (fl c);
  inv_listed : forall c x, 0 <= c < 24 -> In x (fl c) ->
    exists len, In (x, len, Free) (place (first_block s) bs) /\
                8 < len /\ calculateClass_new len = c;
  inv_complete : forall x len,
    In (x, len, Free) (place (first_block s) bs) -> 8 < len ->
    In x (fl (calculateClass_new len))
}.

Definition last_alloc (bs : list block) : bool :=
  match end_pa (Some true) bs with Some b => b | None => true end.

(** The epilogue is a zero-length allocated block whose left flag tells
    the state of the last block. *)
Definition epi_strict (s : heap) (bs : list block) : Prop :=
  load64 (mem s) (epilogue s) = hdr 0 true (last_alloc bs).

(** The invariant of the arena between two public calls. *)
Definition heap_ok (s : heap) (bs : list block) : Prop :=
  no_limbo bs /\ exists fl, inv s bs fl.

(** ** Layout lemmas *)

Lemma size_app (b1 b2 : list block) : size (b1 ++ b2) = size b1 + size b2.
Proof. induction b1 as [|[len st] r IH]; simpl; lia. Qed.

Lemma place_app (b1 b2 : list block) : forall a,
  place a (b1 ++ b2) = place a b1 ++ place (a + size b1) b2.
Proof.
  induction b1 as [|[len st] r IH]; intros a; simpl.
  - f_equal. lia.
  - f_equal. rewrite IH. do 2 f_equal. lia.
Qed.

Lemma end_pa_app (b1 b2 : list block) : forall pa,
  end_pa pa (b1 ++ b2) = end_pa (end_pa pa b1) b2.
Proof. induction b1 as [|[len st] r IH]; intros pa; simpl; auto. Qed.

Lemma blocks_app (m : memory) (b1 b2 : list block) (e : Z) : forall a pa,
  blocks m a pa (b1 ++ b2) e <->
  blocks m a pa b1 (a + size b1) /\
  blocks m (a + size b1) (end_pa pa b1) b2 e.
Proof.
  induction b1 as [|[len st] r IH]; intros a pa; simpl.
  - rewrite Z.add_0_r. tauto.
  - rewrite IH. replace (a + len + 8 + size r) with (a + (len + 8 + size r)) by lia.
    tauto.
Qed.

Lemma blocks_size (m : memory) (bs : list block) (e : Z) : forall a pa,
  blocks m a pa bs e -> e = a + size bs.
Proof.
  induction bs as [|[len st] r IH]; intros a pa H; simpl in *.
  - lia.
  - destruct H as (_ & _ & _ & _ & H). apply IH in H. lia.
Qed.

Lemma blocks_size_nonneg (m : memory) (bs : list block) (e : Z) : forall a pa,
  blocks m a pa bs e -> 0 <= size bs.
Proof.
  induction bs as [|[len st] r IH]; intros a pa H; simpl in *.
  - lia.
  - destruct H as (? & _ & _ & _ & H). apply IH in H. lia.
Qed.

(** [blocks] only looks at words between [a] and [e]. *)
Lemma blocks_frame (m m' : memory) (bs : list block) (e : Z) : forall a pa,
  (forall w, a <= w -> w + 8 <= e -> load64 m' w = load64 m w) ->
  blocks m a pa bs e -> blocks m' a pa bs e.
Proof.
  induction bs as [|[len st] r IH]; intros a pa Hm H; simpl in *; [assumption|].
  destruct H as (H1 & H2 & (c & l & H3 & H4 & H5) & H6 & H7).
  pose proof (blocks_size _ _ _ _ _ H7) as Hs.
  pose proof (blocks_size_nonneg _ _ _ _ _ H7) as Hn.
  repeat split; try assumption.
  - exists c, l. rewrite Hm by lia. auto.
  - intros Hf. rewrite !Hm by lia. auto.
  - apply IH; [|assumption]. intros w Hw1 Hw2. apply Hm; lia.
Qed.

(** Every placed block lies inside the region described by [blocks]. *)
Lemma place_bounds (m : memory) (bs : list block) (e : Z) : forall a pa,
  blocks m a pa bs e ->
  forall x len st, In (x, len, st) (place a bs) ->
    a <= x /\ x + len + 8 <= e /\ 8 <= len /\ len mod 16 = 8 /\
    (x - a) mod 16 = 0.
Proof.
  induction bs as [|[len0 st0] r IH]; intros a pa H x len st Hin; simpl in *.
  - contradiction.
  - destruct H as (H1 & H2 & _ & _ & H7).
    pose proof (blocks_size _ _ _ _ _ H7) as Hs.
    pose proof (blocks_size_nonneg _ _ _ _ _ H7) as Hn.
    destruct Hin as [E|Hin].
    + inversion E; subst. repeat split; try lia.
    + specialize (IH _ _ H7 _ _ _ Hin). lia.
Qed.

(** The words of a placed block. *)
Lemma place_words (m : memory) (bs : list block) (e : Z) : forall a pa,
  blocks m a pa bs e ->
  forall x len st, In (x, len, st) (place a bs) ->
    exists c l, load64 m x = hdr len c l /\ cur_ok st c /\
                (st = Free -> load64 m (x + len) = hdr len c l).
Proof.
  induction bs as [|[len0 st0] r IH]; intros a pa H x len st Hin; simpl in *.
  - contradiction.
  - destruct H as (H1 & H2 & (c & l & H3 & H4 & H5) & H6 & H7).
    destruct Hin as [E|Hin].
    + inversion E; subst. exists c, l. repeat split; auto.
      intros Hf. rewrite H6 by assumption. assumption.
    + eapply IH; eauto.
Qed.

(** Two placed blocks are the same block or do not overlap. *)
Lemma place_disjoint (m : memory) (bs : list block) (e : Z) : forall a pa,
  blocks m a pa bs e ->
  forall x len st x' len' st',
    In (x, len, st) (place a bs) -> In (x', len', st') (place a bs) ->
    (x = x' /\ len = len' /\ st = st') \/
    x + len + 8 <= x' \/ x' + len' + 8 <= x.
Proof.
  induction bs as [|[len0 st0] r IH]; intros a pa H x len st x' len' st' I1 I2;
    simpl in *.
  - contradiction.
  - destruct H as (H1 & H2 & _ & _ & H7).
    destruct I1 as [E1|I1], I2 as [E2|I2].
    + inversion E1; inversion E2; subst. auto.
    + inversion E1; subst.
      pose proof (place_bounds _ _ _ _ _ H7 _ _ _ I2). lia.
    + inversion E2; subst.
      pose proof (place_bounds _ _ _ _ _ H7 _ _ _ I1). lia.
    + eapply IH; eauto.
Qed.

Lemma blocks_frame_meta (m m' : memory) (bs : list block) (e : Z) :
  forall a pa,
  (forall x len st, In (x, len, st) (place a bs) ->
     load64 m' x = load64 m x /\
     (st = Free -> load64 m' (x + len) = load64 m (x + len))) ->
  blocks m a pa bs e -> blocks m' a pa bs e.
Proof.
  induction bs as [|[len st] r IH]; intros a pa Hm H; simpl in *; [assumption|].
  destruct H as (H1 & H2 & (c & l & H3 & H4 & H5) & H6 & H7).
  destruct (Hm a len st (or_introl eq_refl)) as [E1 E2].
  repeat split; try assumption.
  - exists c, l. rewrite E1. auto.
  - intros Hf. rewrite E1, E2 by assumption. auto.
  - apply IH; [|assumption]. intros x len' st' Hin. apply Hm. right. assumption.
Qed.

(** ** Rewriting loads over stores *)

Lemma load64_store64_eq' (m : memory) (a v a' : Z) :
  a' = a -> 0 <= v < two64 -> load64 (store64 m a v) a' = v.
Proof. intros -> H. rewrite load64_store64_eq. apply u64_small. exact H. Qed.

Lemma load64_memset_eq' (m : memory) (a a' : Z) :
  a' = a -> load64 (mem_memset m a 0 WORDSIZE) a' = 0.
Proof. intros ->. apply load64_memset_eq. Qed.

Lemma load64_memcpy_eq' (m : memory) (d s a' : Z) :
  a' = d -> load64 (mem_memcpy m d s WORDSIZE) a' = load64 m s.
Proof. intros ->. apply load64_memcpy_eq. Qed.

Ltac arith := unfold WORDSIZE, two64 in *; lia.

Ltac mem_step :=
  first
    [ rewrite load64_store64_eq' by (first [assumption | arith])
    | rewrite load64_memset_eq' by arith
    | rewrite load64_memcpy_eq' by arith
    | rewrite load64_store64_ne by arith
    | rewrite load64_memset_ne by arith
    | rewrite load64_memcpy_ne by arith ].

Ltac mem_simpl := repeat mem_step.

(** ** Free-list lemmas *)

Lemma links_frame (m m' : memory) (L : list Z) (nend : Z) : forall prev,
  (forall x, In x L -> load64 m' (x + 8) = load64 m (x + 8) /\
                       load64 m' (x + 16) = load64 m (x + 16)) ->
  links m prev L nend -> links m' prev L nend.
Proof.
  induction L as [|x r IH]; intros prev Hm H; simpl in *; [exact I|].
  destruct H as (H1 & H2 & H3).
  destruct (Hm x (or_introl eq_refl)) as [E1 E2].
  rewrite E1, E2. repeat split; try assumption.
  apply IH; [|assumption]. intros y Hy. apply Hm. right. assumption.
Qed.

Lemma links_app (m : memory) (L1 L2 : list Z) (nend : Z) : forall prev,
  links m prev (L1 ++ L2) nend <->
  links m prev L1 (hd nend L2) /\ links m (last L1 prev) L2 nend.
Proof.
  induction L1 as [|x r IH]; intros prev.
  - simpl. tauto.
  - change ((x :: r) ++ L2) with (x :: (r ++ L2)).
    cbn [links]. rewrite IH.
    assert (hd nend (r ++ L2) = hd (hd nend L2) r) as -> by (destruct r; reflexivity).
    assert (last (x :: r) prev = last r x) as ->.
    { clear. revert x prev. induction r as [|y r IH]; intros x prev; [reflexivity|].
      change (last (x :: y :: r) prev) with (last (y :: r) prev).
      change (last (y :: r) x) with (last (y :: r) x).
      rewrite !IH. reflexivity. }
    tauto.
Qed.

(** Nodes of the free lists are block addresses. *)
Definition node (hs x : Z) : Prop :=
  hs + 200 <= x /\ (x - (hs + 200)) mod 16 = 0 /\ x < two64.

Lemma remove_app_NoDup (L1 L2 : list Z) (y : Z) :
  NoDup (L1 ++ y :: L2) ->
  remove Z.eq_dec y (L1 ++ y :: L2) = L1 ++ L2.
Proof.
  intros H. apply NoDup_remove_2 in H.
  rewrite remove_app. cbn [remove].
  destruct (Z.eq_dec y y) as [_|n]; [|congruence].
  rewrite !notin_remove; [reflexivity| |]; intros HI; apply H, in_or_app; auto.
Qed.

Ltac norm_ws :=
  change (2 * WORDSIZE) with 16 in *; change WORDSIZE with 8 in *.

Ltac side := first [assumption | apply load64_range | arith].

Ltac mem_step' :=
  first
    [ rewrite load64_store64_eq' by side
    | rewrite load64_memset_eq' by side
    | rewrite load64_memcpy_eq' by side
    | rewrite load64_store64_ne by side
    | rewrite load64_memset_ne by side
    | rewrite load64_memcpy_ne by side ].

Ltac mem_simpl' := repeat mem_step'.

Lemma remove_frame (hs : Z) (m : memory) (len y w : Z) :
  let prev := load64 m (y + 8) in
  let next := load64 m (y + 16) in
  let ca := hs + 8 * calculateClass_new len in
  (w + 8 <= ca \/ ca + 8 <= w) ->
  (prev <> 0 -> w + 8 <= prev + 16 \/ prev + 24 <= w) ->
  (next <> 0 -> w + 8 <= next + 8 \/ next + 16 <= w) ->
  load64 (removeFromFreeList hs m y len) w = load64 m w.
Proof.
  intros prev next ca H1 H2 H3. unfold removeFromFreeList. norm_ws.
  fold prev next.
  destruct (Z.eqb_spec prev 0) as [Ep|Ep];
    destruct (Z.eqb_spec next 0) as [En|En]; cbn [andb negb];
    subst ca; mem_simpl'; reflexivity.
Qed.

Lemma node_pos (hs x : Z) : 0 <= hs -> node hs x -> x <> 0.
Proof. unfold node. lia. Qed.

Lemma NoDup_app_l (L1 L2 : list Z) : NoDup (L1 ++ L2) -> NoDup L1.
Proof.
  induction L1 as [|x r IH]; intros H; [constructor|].
  inversion H; subst. constructor.
  - intros HI. apply H2, in_or_app. auto.
  - auto.
Qed.

Lemma NoDup_mid (L1 L2 : list Z) (y x : Z) :
  NoDup (L1 ++ y :: L2) -> In x (L1 ++ L2) -> x <> y.
Proof.
  intros H HI ->. apply NoDup_remove_2 in H. contradiction.
Qed.

(** Unlinking a node from its class list. *)
Lemma remove_links (hs : Z) (m : memory) (len c : Z) (L1 L2 : list Z) (y : Z) :
  c = calculateClass_new len -> 0 <= c < 24 -> 0 <= hs ->
  (forall x, In x (L1 ++ y :: L2) -> node hs x) ->
  NoDup (L1 ++ y :: L2) ->
  load64 m (hs + 8 * c) = hd 0 (L1 ++ y :: L2) ->
  links m 0 (L1 ++ y :: L2) 0 ->
  load64 (removeFromFreeList hs m y len) (hs + 8 * c) = hd 0 (L1 ++ L2) /\
  links (removeFromFreeList hs m y len) 0 (L1 ++ L2) 0.
Proof.
  intros Hc Hcr Hhs Hnode Hnd Hhead Hl.
  apply links_app in Hl as [HL1 HL2]. cbn [links hd] in HL1, HL2.
  destruct HL2 as (Hp & Hn & HL2).
  assert (Hy : node hs y) by (apply Hnode, in_or_app; right; left; reflexivity).
  assert (Hne : forall x, In x (L1 ++ L2) -> node hs x /\ x <> y).
  { intros x Hx. split; [|eapply NoDup_mid; eauto].
    apply Hnode. apply in_app_or in Hx. apply in_or_app.
    destruct Hx; [left|right; right]; assumption. }
  assert (Hnd' : NoDup (L1 ++ L2)) by (eapply NoDup_remove_1; eauto).
  unfold removeFromFreeList. norm_ws. rewrite Hp, Hn. rewrite <- Hc.
  replace (hs + c * 8) with (hs + 8 * c) by lia.
  destruct L1 as [|p0 L1'] using rev_ind; [|clear IHL1'].
  - (* y is the head *)
    cbn [last app hd] in *. rewrite Z.eqb_refl. cbn [andb negb].
    destruct L2 as [|z L2']; cbn [hd] in *.
    + rewrite Z.eqb_refl. cbn [negb andb]. mem_simpl'. split; [reflexivity|exact I].
    + destruct (Hne z (or_introl eq_refl)) as [Hz Hzy].
      pose proof (node_pos _ _ Hhs Hz) as Hz0.
      destruct (Z.eqb_spec z 0) as [|_]; [contradiction|]. cbn [negb].
      destruct HL2 as (Hzp & Hzn & HL2). unfold node in Hz.
      split; [|cbn [links]; repeat split].
      * mem_simpl'. reflexivity.
      * mem_simpl'. reflexivity.
      * mem_simpl'. assumption.
      * apply links_frame with (m := m); [|assumption].
        intros x Hx. inversion Hnd' as [|? ? Hnz _].
        assert (x <> z) by (intros ->; contradiction).
        destruct (Hne x (or_intror Hx)) as [[Hx1 Hx2] _].
        split; mem_simpl'; reflexivity.
  - (* y has a predecessor p0 *)
    rewrite last_last in *.
    assert (Hp0 : node hs p0 /\ p0 <> y).
    { apply Hne. apply in_or_app. left. apply in_or_app. right. left. reflexivity. }
    destruct Hp0 as [Hp0 Hp0y]. pose proof (node_pos _ _ Hhs Hp0) as Hp00.
    destruct (Z.eqb_spec p0 0) as [|_]; [contradiction|]. cbn [andb negb].
    apply links_app in HL1 as [HL1 HL1']. cbn [links hd] in HL1, HL1'.
    destruct HL1' as (Hpp & Hpn & _).
    rewrite <- app_assoc in Hhead, Hnd', Hne |- *. cbn [app] in Hhead, Hnd', Hne |- *.
    assert (Hh : hd 0 (L1' ++ p0 :: L2) = hd 0 (L1' ++ p0 :: y :: L2))
      by (destruct L1'; reflexivity).
    rewrite Hh, <- Hhead. clear Hh.
    assert (HinL1 : forall x, In x L1' -> node hs x /\ x <> p0 /\ x <> y).
    { intros x Hx. destruct (Hne x) as [? ?]; [apply in_or_app; auto|].
      split; [assumption | split; [|assumption]].
      intros ->. apply NoDup_remove_2 in Hnd'. apply Hnd', in_or_app. auto. }
    assert (HinL2 : forall x, In x L2 -> node hs x /\ x <> p0 /\ x <> y).
    { intros x Hx. destruct (Hne x) as [? ?]; [apply in_or_app; right; right; auto|].
      split; [assumption | split; [|assumption]].
      intros ->. apply NoDup_remove_2 in Hnd'. apply Hnd', in_or_app. auto. }
    unfold node in Hp0.
    destruct L2 as [|z L2']; cbn [hd] in *.
    + rewrite Z.eqb_refl. cbn [negb andb].
      split; [mem_simpl'; reflexivity|].
      apply links_app. cbn [links hd].
      repeat split.
      * apply links_frame with (m := m); [|assumption].
        intros x Hx. destruct (HinL1 x Hx) as ((Hx1 & Hx2 & Hx3) & Hx4 & _).
        split; mem_simpl'; reflexivity.
      * mem_simpl'. assumption.
      * mem_simpl'. reflexivity.
    + destruct (HinL2 z (or_introl eq_refl)) as (Hz & Hzp0 & Hzy).
      pose proof (node_pos _ _ Hhs Hz) as Hz0.
      destruct (Z.eqb_spec z 0) as [|_]; [contradiction|]. cbn [negb andb].
      destruct HL2 as (Hzp & Hzn & HL2). unfold node in Hz.
      assert (Hzn' : ~ In z (L1' ++ p0 :: L2')).
      { replace (L1' ++ p0 :: z :: L2') with ((L1' ++ [p0]) ++ z :: L2') in Hnd'
          by (rewrite <- app_assoc; reflexivity).
        apply NoDup_remove_2 in Hnd'. rewrite <- app_assoc in Hnd'. exact Hnd'. }
      split; [mem_simpl'; reflexivity|].
      apply links_app. cbn [links hd].
      repeat split.
      * apply links_frame with (m := m); [|assumption].
        intros x Hx. destruct (HinL1 x Hx) as ((Hx1 & Hx2 & Hx3) & Hx4 & _).
        assert (x <> z) by (intros ->; apply Hzn', in_or_app; auto).
        split; mem_simpl'; reflexivity.
      * mem_simpl'. assumption.
      * mem_simpl'. reflexivity.
      * mem_simpl'. reflexivity.
      * mem_simpl'. assumption.
      * apply links_frame with (m := m); [|assumption].
        intros x Hx.
        destruct (HinL2 x (or_intror Hx)) as ((Hx1 & Hx2 & Hx3) & Hx4 & _).
        assert (x <> z) by (intros ->; apply Hzn', in_or_app; right; right; auto).
        split; mem_simpl'; reflexivity.
Qed.

Lemma insert_frame (m : memory) (ca x w : Z) :
  let first := load64 m ca in
  (w + 8 <= ca \/ ca + 8 <= w) ->
  (w + 8 <= x + 8 \/ x + 24 <= w) ->
  (first <> 0 -> w + 8 <= first + 8 \/ first + 16 <= w) ->
  load64 (insertIntoFreeList m ca x) w = load64 m w.
Proof.
  intros first H1 H2 H3. unfold insertIntoFreeList. norm_ws. fold first.
  destruct (Z.eqb_spec first 0) as [E|E]; cbn [negb]; mem_simpl'; reflexivity.
Qed.

(** Linking a node at the head of a class list. *)
Lemma insert_links (hs : Z) (m : memory) (c : Z) (L : list Z) (x : Z) :
  0 <= c < 24 -> 0 <= hs ->
  (forall y, In y L -> node hs y) -> node hs x -> ~ In x L -> NoDup L ->
  load64 m (hs + 8 * c) = hd 0 L -> links m 0 L 0 ->
  load64 (insertIntoFreeList m (hs + 8 * c) x) (hs + 8 * c) = x /\
  links (insertIntoFreeList m (hs + 8 * c) x) 0 (x :: L) 0.
Proof.
  intros Hc Hhs Hnode Hx Hnin Hnd Hhead Hl.
  unfold insertIntoFreeList. norm_ws. rewrite Hhead.
  pose proof Hx as (Hx1 & Hx2 & Hx3).
  destruct L as [|z L']; cbn [hd links] in *.
  - rewrite Z.eqb_refl. cbn [negb].
    repeat split; mem_simpl'; reflexivity.
  - pose proof (Hnode z (or_introl eq_refl)) as Hz.
    pose proof (node_pos _ _ Hhs Hz) as Hz0.
    destruct Hz as (Hz1 & Hz2 & Hz3).
    destruct (Z.eqb_spec z 0) as [|_]; [contradiction|]. cbn [negb].
    assert (x <> z) by (intros ->; apply Hnin; left; reflexivity).
    destruct Hl as (Hzp & Hzn & Hl).
    repeat split; try (mem_simpl'; first [reflexivity | assumption]).
    apply links_frame with (m := m); [|assumption].
    intros y Hy. destruct (Hnode y (or_intror Hy)) as (Hy1 & Hy2 & Hy3).
    assert (y <> x) by (intros ->; apply Hnin; right; assumption).
    assert (y <> z) by (inversion Hnd; intros ->; contradiction).
    split; mem_simpl'; reflexivity.
Qed.

(** ** Size-class lemmas *)

Lemma class_small (req : Z) :
  8 <= req -> req + 8 <= 256 ->
  calculateClass_new req = (req + 8) / 16 - 1.
Proof.
  intros H1 H2. unfold calculateClass_new, WORDSIZE, ALIGNMENT.
  rewrite (u64_small (req + 8)) by (unfold two64; lia).
  destruct (Z.leb_spec (req + 8) 256) as [_|]; [|lia].
  apply u64_small. unfold two64. lia.
Qed.

Lemma log2_up_mid (a : Z) : 256 < a <= 32768 -> 9 <= Z.log2_up a <= 15.
Proof.
  intros H. split.
  - change 9 with (Z.log2_up 257). apply Z.log2_up_le_mono. lia.
  - change 15 with (Z.log2_up 32768). apply Z.log2_up_le_mono. lia.
Qed.

Lemma class_mid (req : Z) :
  256 < req + 8 <= 32768 ->
  calculateClass_new req = Z.log2_up (req + 8) + 7.
Proof.
  intros H. unfold calculateClass_new, WORDSIZE, ALIGNMENT, ceil_log2.
  rewrite (u64_small (req + 8)) by (unfold two64; lia).
  destruct (Z.leb_spec (req + 8) 256) as [|_]; [lia|].
  destruct (Z.leb_spec (req + 8) 32768) as [_|]; [|lia].
  pose proof (log2_up_mid (req + 8) H).
  apply u64_small. unfold two64. lia.
Qed.

Lemma class_large (req : Z) :
  32768 < req + 8 < two64 -> calculateClass_new req = 23.
Proof.
  intros H. unfold calculateClass_new, WORDSIZE.
  rewrite (u64_small (req + 8)) by lia.
  destruct (Z.leb_spec (req + 8) 256) as [|_]; [lia|].
  destruct (Z.leb_spec (req + 8) 32768) as [|_]; [lia|]. reflexivity.
Qed.

Lemma class_range (req : Z) :
  8 <= req -> req + 8 < two64 -> 0 <= calculateClass_new req < 24.
Proof.
  intros H1 H2.
  destruct (Z.le_gt_cases (req + 8) 256) as [Ha|Ha].
  - rewrite class_small by lia. lia.
  - destruct (Z.le_gt_cases (req + 8) 32768) as [Hb|Hb].
    + rewrite class_mid by lia. pose proof (log2_up_mid (req + 8)). lia.
    + rewrite class_large by lia. lia.
Qed.

(** ** Consequences of the invariant *)

Section InvFacts.
Variables (s : heap) (bs : list block) (fl : Z -> list Z).
Hypothesis Hinv : inv s bs fl.

Lemma inv_bounds : first_block s <= epilogue s /\ epilogue s + 8 <= two64.
Proof.
  destruct Hinv. pose proof (blocks_size _ _ _ _ _ inv_blocks0).
  pose proof (blocks_size_nonneg _ _ _ _ _ inv_blocks0).
  unfold epilogue in *. lia.
Qed.

Lemma inv_placed x len st :
  In (x, len, st) (place (first_block s) bs) ->
  first_block s <= x /\ x + len + 8 <= epilogue s /\ 8 <= len /\
  len mod 16 = 8 /\ (x - first_block s) mod 16 = 0 /\ len + 8 < two64.
Proof.
  intros H. pose proof inv_bounds. destruct Hinv.
  pose proof (place_bounds _ _ _ _ _ inv_blocks0 _ _ _ H).
  unfold first_block in *. lia.
Qed.

Lemma inv_class x len st :
  In (x, len, st) (place (first_block s) bs) ->
  0 <= calculateClass_new len < 24.
Proof.
  intros H. apply inv_placed in H. apply class_range; lia.
Qed.

Lemma inv_node c x :
  0 <= c < 24 -> In x (fl c) ->
  node (heap_start s) x /\
  exists len, In (x, len, Free) (place (first_block s) bs) /\
              24 <= len /\ calculateClass_new len = c.
Proof.
  intros Hc Hx. destruct (inv_listed _ _ _ Hinv c x Hc Hx) as (len & H1 & H2 & H3).
  pose proof (inv_placed _ _ _ H1) as Hp. pose proof inv_bounds.
  split.
  - unfold node, first_block in *. lia.
  - exists len. repeat split; try assumption. lia.
Qed.

Lemma inv_listed_unique c c' x :
  0 <= c < 24 -> 0 <= c' < 24 -> In x (fl c) -> In x (fl c') -> c = c'.
Proof.
  intros Hc Hc' H1 H2.
  destruct (inv_listed _ _ _ Hinv c x Hc H1) as (len & P1 & _ & E1).
  destruct (inv_listed _ _ _ Hinv c' x Hc' H2) as (len' & P2 & _ & E2).
  destruct (place_disjoint _ _ _ _ _ (inv_blocks _ _ _ Hinv) _ _ _ _ _ _ P1 P2)
    as [(_ & E & _)|D].
  - congruence.
  - apply inv_placed in P1. apply inv_placed in P2. lia.
Qed.

(** A word that is neither a class head nor a link word of a listed
    block. *)
Definition safe_word (w : Z) : Prop :=
  first_block s <= w /\
  forall y len, In (y, len, Free) (place (first_block s) bs) -> 8 < len ->
                w + 8 <= y + 8 \/ y + 24 <= w.

Lemma safe_header x len st :
  In (x, len, st) (place (first_block s) bs) -> safe_word x.
Proof.
  intros H. split; [apply (inv_placed _ _ _ H)|].
  intros y len' Hy Hl.
  destruct (place_disjoint _ _ _ _ _ (inv_blocks _ _ _ Hinv) _ _ _ _ _ _ H Hy)
    as [(E & _ & _)|D]; [lia|].
  apply inv_placed in H. apply inv_placed in Hy. lia.
Qed.

Lemma safe_footer x len st :
  In (x, len, st) (place (first_block s) bs) -> safe_word (x + len).
Proof.
  intros H. split; [pose proof (inv_placed _ _ _ H); lia|].
  intros y len' Hy Hl.
  destruct (place_disjoint _ _ _ _ _ (inv_blocks _ _ _ Hinv) _ _ _ _ _ _ H Hy)
    as [(E & E' & _)|D].
  - subst. apply inv_placed in H. lia.
  - apply inv_placed in H. apply inv_placed in Hy. lia.
Qed.

Lemma safe_inside x len st w :
  In (x, len, st) (place (first_block s) bs) -> st <> Free ->
  x <= w -> w + 8 <= x + len + 8 -> safe_word w.
Proof.
  intros H Hst H1 H2. split; [pose proof (inv_placed _ _ _ H); lia|].
  intros y len' Hy Hl.
  destruct (place_disjoint _ _ _ _ _ (inv_blocks _ _ _ Hinv) _ _ _ _ _ _ H Hy)
    as [(_ & _ & E)|D]; [congruence|].
  apply inv_placed in H. apply inv_placed in Hy. lia.
Qed.

Lemma safe_beyond w : epilogue s <= w -> safe_word w.
Proof.
  intros H. split; [pose proof inv_bounds; lia|].
  intros y len' Hy Hl. apply inv_placed in Hy. lia.
Qed.

(** The neighbours of a listed node in its class list. *)
Lemma inv_neighbours c x :
  0 <= c < 24 -> In x (fl c) ->
  exists L1 L2, fl c = L1 ++ x :: L2 /\
    load64 (mem s) (x + 8) = last L1 0 /\
    load64 (mem s) (x + 16) = hd 0 L2 /\
    (last L1 0 <> 0 -> In (last L1 0) L1) /\
    (hd 0 L2 <> 0 -> In (hd 0 L2) L2).
Proof.
  intros Hc Hx. destruct (in_split _ _ Hx) as (L1 & L2 & E).
  exists L1, L2. split; [assumption|].
  destruct (inv_links _ _ _ Hinv c Hc) as (_ & Hl & _).
  rewrite E in Hl. apply links_app in Hl as [_ Hl]. cbn [links] in Hl.
  destruct Hl as (Hp & Hn & _). repeat split; try assumption.
  - intros Hne. destruct L1 as [|a r] using rev_ind; [contradiction|].
    rewrite last_last. apply in_or_app. right. left. reflexivity.
  - intros Hne. destruct L2; [contradiction|]. left. reflexivity.
Qed.

(** Unlinking a listed block leaves every safe word alone. *)
Lemma unlink_load x len w :
  In (x, len, Free) (place (first_block s) bs) -> 8 < len ->
  safe_word w ->
  load64 (removeFromFreeList (heap_start s) (mem s) x len) w
  = load64 (mem s) w.
Proof.
  intros Hx Hl [Hw1 Hw2].
  pose proof (inv_class _ _ _ Hx) as Hc.
  pose proof (inv_complete _ _ _ Hinv _ _ Hx Hl) as Hin.
  destruct (inv_neighbours _ _ Hc Hin) as (L1 & L2 & E & Hp & Hn & Hp' & Hn').
  apply remove_frame.
  - unfold first_block in *. lia.
  - rewrite Hp. intros Hne. specialize (Hp' Hne).
    assert (Hi : In (last L1 0) (fl (calculateClass_new len)))
      by (rewrite E; apply in_or_app; auto).
    destruct (inv_node _ _ Hc Hi) as (_ & l' & P & Hl' & _).
    specialize (Hw2 _ _ P). lia.
  - rewrite Hn. intros Hne. specialize (Hn' Hne).
    assert (Hi : In (hd 0 L2) (fl (calculateClass_new len)))
      by (rewrite E; apply in_or_app; right; right; auto).
    destruct (inv_node _ _ Hc Hi) as (_ & l' & P & Hl' & _).
    specialize (Hw2 _ _ P). lia.
Qed.

(** Linking a block leaves every safe word outside that block alone. *)
Lemma link_load c x w :
  0 <= c < 24 -> safe_word w -> (w + 8 <= x + 8 \/ x + 24 <= w) ->
  load64 (insertIntoFreeList (mem s) (heap_start s + 8 * c) x) w
  = load64 (mem s) w.
Proof.
  intros Hc [Hw1 Hw2] Hx. apply insert_frame.
  - unfold first_block in *. lia.
  - assumption.
  - destruct (inv_links _ _ _ Hinv c Hc) as (Hh & _ & _). rewrite Hh.
    intros Hne.
    assert (Hi : In (hd 0 (fl c)) (fl c))
      by (destruct (fl c); [contradiction | left; reflexivity]).
    destruct (inv_node _ _ Hc Hi) as (_ & l' & P & Hl' & _).
    specialize (Hw2 _ _ P). lia.
Qed.
End InvFacts.

(** ** Abstract list surgery *)

Definition fl_remove (fl : Z -> list Z) (c x : Z) : Z -> list Z :=
  fun c' => if c' =? c then remove Z.eq_dec x (fl c') else fl c'.

Definition fl_insert (fl : Z -> list Z) (c x : Z) : Z -> list Z :=
  fun c' => if c' =? c then x :: fl c' else fl c'.

Lemma place_mid (pre post : list block) (len : Z) (st : status) (a : Z)
    (b : Z * Z * status) :
  In b (place a (pre ++ (len, st) :: post)) <->
  In b (place a pre) \/ b = (a + size pre, len, st) \/
  In b (place (a + size pre + len + 8) post).
Proof.
  rewrite place_app. cbn [place]. rewrite in_app_iff. cbn [In].
  intuition congruence.
Qed.

Lemma blocks_pa_weaken (m : memory) (bs : list block) (a e : Z)
    (pa : option bool) :
  blocks m a pa bs e -> blocks m a None bs e.
Proof.
  destruct bs as [|[len st] r]; simpl; [auto|].
  intros (H1 & H2 & (c & l & H3 & H4 & H5) & H6 & H7).
  repeat split; try assumption. exists c, l. repeat split; assumption.
Qed.

Lemma blocks_limbo (m : memory) (pre post : list block) (len : Z)
    (st : status) (a e : Z) (pa : option bool) :
  blocks m a pa (pre ++ (len, st) :: post) e ->
  blocks m a pa (pre ++ (len, Limbo) :: post) e.
Proof.
  intros H. apply blocks_app in H as [H1 H2]. apply blocks_app.
  split; [assumption|]. cbn [blocks] in *.
  destruct H2 as (A1 & A2 & (c & l & A3 & A4 & A5) & A6 & A7).
  repeat split; try assumption.
  - exists c, l. repeat split; assumption.
  - discriminate.
  - eapply blocks_pa_weaken; eassumption.
Qed.

Lemma no_adj_app_inv (b1 b2 : list block) :
  no_adj (b1 ++ b2) -> no_adj b1 /\ no_adj b2.
Proof.
  induction b1 as [|[len st] r IH]; intros H; cbn [app no_adj] in *.
  - split; [exact I | assumption].
  - destruct H as [H1 H2]. apply IH in H2 as [H2 H3].
    repeat split; try assumption.
    destruct st; try exact I. destruct r as [|[l' s'] r']; [exact I|].
    exact H1.
Qed.

Lemma no_adj_limbo (pre post : list block) (len : Z) (st : status) :
  no_adj (pre ++ (len, st) :: post) -> no_adj (pre ++ (len, Limbo) :: post).
Proof.
  induction pre as [|[l0 s0] r IH]; intros H; cbn [app no_adj] in *.
  - destruct H as [_ H]. split; [exact I | assumption].
  - destruct H as [H1 H2]. split; [|apply IH; assumption].
    destruct s0; try exact I.
    destruct r as [|[l' s'] r']; cbn [app] in *; [exact I | exact H1].
Qed.

Lemma in_remove_iff (L : list Z) (x y : Z) :
  In y (remove Z.eq_dec x L) <-> In y L /\ y <> x.
Proof.
  split.
  - apply in_remove.
  - intros [H1 H2]. apply in_in_remove; assumption.
Qed.

Lemma NoDup_remove_Z (L : list Z) (x : Z) :
  NoDup L -> NoDup (remove Z.eq_dec x L).
Proof.
  induction L as [|a r IH]; intros H; cbn [remove]; [constructor|].
  inversion H; subst. destruct (Z.eq_dec x a); [auto|].
  constructor; [|auto]. rewrite in_remove_iff. tauto.
Qed.

(** ** Unlinking a free block (Free -> Limbo) *)

Lemma inv_unlink (s : heap) (pre post : list block) (len : Z)
    (fl : Z -> list Z) :
  inv s (pre ++ (len, Free) :: post) fl -> 8 < len ->
  inv (with_mem s (removeFromFreeList (heap_start s) (mem s)
                     (first_block s + size pre) len))
      (pre ++ (len, Limbo) :: post)
      (fl_remove fl (calculateClass_new len) (first_block s + size pre)).
Proof.
  intros Hinv Hlen.
  set (x := first_block s + size pre).
  set (bs := pre ++ (len, Free) :: post) in *.
  set (c := calculateClass_new len).
  assert (Hx : In (x, len, Free) (place (first_block s) bs))
    by (apply place_mid; right; left; reflexivity).
  pose proof (inv_class _ _ _ Hinv _ _ _ Hx) as Hc. fold c in Hc.
  pose proof (inv_complete _ _ _ Hinv _ _ Hx Hlen) as Hin. fold c in Hin.
  pose proof (inv_blocks _ _ _ Hinv) as Hb.
  assert (Hsplit : forall y l, In (y, l, Free) (place (first_block s)
                                  (pre ++ (len, Limbo) :: post)) <->
                    In (y, l, Free) (place (first_block s) bs) /\ y <> x).
  { intros y l. unfold bs. rewrite !place_mid. fold x.
    apply blocks_app in Hb as [Hb1 Hb2]. cbn [blocks] in Hb2. fold x in Hb1, Hb2.
    destruct Hb2 as (Hl1 & Hl2 & _ & _ & Hb2).
    split.
    - intros [H|[H|H]]; [| discriminate |].
      + split; [auto|]. pose proof (place_bounds _ _ _ _ _ Hb1 _ _ _ H). lia.
      + split; [auto|]. pose proof (place_bounds _ _ _ _ _ Hb2 _ _ _ H). lia.
    - intros [[H|[H|H]] Hne]; [auto | | auto]. inversion H. contradiction. }
  constructor; cbn [with_mem initialized heap_start mem_start_brk mem_brk
                    mem_max_addr mem]; try apply Hinv.
  - (* blocks *)
    change (first_block (with_mem s _)) with (first_block s).
    change (epilogue (with_mem s _)) with (epilogue s).
    apply blocks_limbo with (st := Free).
    apply blocks_frame_meta with (m := mem s); [|exact Hb].
    intros y l st Hy. split; [|intros _].
    + apply (unlink_load _ _ _ Hinv); try assumption.
      eapply safe_header; eassumption.
    + apply (unlink_load _ _ _ Hinv); try assumption.
      eapply safe_footer; eassumption.
  - (* epilogue *)
    change (epilogue (with_mem s _)) with (epilogue s).
    destruct (inv_epi _ _ _ Hinv) as (le & l & E1 & E2 & E3).
    exists le, l. split; [assumption | split; [assumption|]].
    rewrite (unlink_load _ _ _ Hinv); try assumption.
    apply (safe_beyond _ _ _ Hinv). lia.
  - apply no_adj_limbo with (st := Free). apply Hinv.
  - (* links *)
    intros c' Hc'. unfold fl_remove.
    destruct (inv_links _ _ _ Hinv c' Hc') as (Hh & Hl & Hnd).
    destruct (Z.eqb_spec c' c) as [->|Hne].
    + destruct (in_split _ _ Hin) as (L1 & L2 & E).
      rewrite E in *. rewrite remove_app_NoDup by assumption.
      destruct (remove_links (heap_start s) (mem s) len c L1 L2 x) as [R1 R2];
        try assumption; try reflexivity; try apply Hinv.
      { intros y Hy. rewrite <- E in Hy. apply (inv_node _ _ _ Hinv c y Hc Hy). }
      repeat split; try assumption. eapply NoDup_remove_1; eassumption.
    + destruct (inv_neighbours _ _ _ Hinv _ _ Hc Hin)
        as (L1 & L2 & E & Hp & Hn & Hp' & Hn').
      assert (Hpn : forall y, In y (fl c') ->
                 node (heap_start s) y /\
                 (last L1 0 <> 0 -> y <> last L1 0 /\ node (heap_start s) (last L1 0)) /\
                 (hd 0 L2 <> 0 -> y <> hd 0 L2 /\ node (heap_start s) (hd 0 L2))).
      { intros y Hy. split; [apply (inv_node _ _ _ Hinv c' y Hc' Hy)|].
        split; intros H0.
        - assert (Hi : In (last L1 0) (fl c))
            by (rewrite E; apply in_or_app; auto).
          split; [|apply (inv_node _ _ _ Hinv c _ Hc Hi)].
          intros ->. apply Hne. eapply inv_listed_unique; eauto.
        - assert (Hi : In (hd 0 L2) (fl c))
            by (rewrite E; apply in_or_app; right; right; auto).
          split; [|apply (inv_node _ _ _ Hinv c _ Hc Hi)].
          intros ->. apply Hne. eapply inv_listed_unique; eauto. }
      repeat split; try assumption.
      * rewrite remove_frame; [assumption| fold c; lia | |];
          rewrite ?Hp, ?Hn; intros H0.
        -- assert (Hi : In (last L1 0) (fl c))
             by (rewrite E; apply in_or_app; auto).
           destruct (inv_node _ _ _ Hinv c _ Hc Hi) as [N _]. unfold node in N. lia.
        -- assert (Hi : In (hd 0 L2) (fl c))
             by (rewrite E; apply in_or_app; right; right; auto).
           destruct (inv_node _ _ _ Hinv c _ Hc Hi) as [N _]. unfold node in N. lia.
      * apply links_frame with (m := mem s); [|assumption].
        intros y Hy. destruct (Hpn y Hy) as (N & P1 & P2). unfold node in *.
        split; (rewrite remove_frame; [reflexivity | fold c; lia | |]);
          rewrite ?Hp, ?Hn; intros H0;
          try (destruct (P1 H0) as [? ?]); try (destruct (P2 H0) as [? ?]); lia.
  - (* listed *)
    change (first_block (with_mem s _)) with (first_block s).
    intros c' y Hc' Hy. unfold fl_remove in Hy.
    assert (Hy' : In y (fl c') /\ (c' = c -> y <> x)).
    { destruct (Z.eqb_spec c' c) as [->|Hne].
      - apply in_remove_iff in Hy. tauto.
      - split; [assumption | contradiction]. }
    destruct Hy' as [Hy1 Hy2].
    destruct (inv_listed _ _ _ Hinv c' y Hc' Hy1) as (l & P & Hl & Ec).
    exists l. repeat split; try assumption. apply Hsplit. split; [assumption|].
    intros ->. apply Hy2; [eapply inv_listed_unique; eauto | reflexivity].
  - (* complete *)
    change (first_block (with_mem s _)) with (first_block s).
    intros y l Hy Hl. apply Hsplit in Hy as [Hy Hne].
    pose proof (inv_complete _ _ _ Hinv _ _ Hy Hl) as Hi.
    unfold fl_remove. destruct (Z.eqb_spec (calculateClass_new l) c); [|assumption].
    apply in_remove_iff. split; assumption.
Qed.

(** ** Settling a limbo block as free (Limbo -> Free) *)

Definition left_flag (m : memory) (a : Z) (post : list block) (b : bool)
    : Prop :=
  match post with
  | [] => True
  | (l, _) :: _ => exists c, load64 m a = hdr l c b
  end.

Lemma blocks_left_flag (m : memory) (post : list block) (a e : Z) (b : bool)
    (pa : option bool) :
  blocks m a pa post e -> left_flag m a post b ->
  blocks m a (Some b) post e.
Proof.
  destruct post as [|[len st] r]; cbn [blocks left_flag]; [auto|].
  intros (H1 & H2 & (c & l & H3 & H4 & H5) & H6 & H7) [c' E].
  assert (len mod 8 = 0) by lia.
  rewrite H3 in E. apply hdr_inj in E as (_ & <- & ->); try assumption.
  repeat split; try assumption. exists c, b. repeat split; assumption.
Qed.

Lemma blocks_settle (m : memory) (pre post : list block) (len : Z)
    (st : status) (a e : Z) (pa : option bool) :
  blocks m a pa (pre ++ (len, Limbo) :: post) e ->
  (exists c l, load64 m (a + size pre) = hdr len c l /\ cur_ok st c) ->
  (st = Free -> load64 m (a + size pre + len) = load64 m (a + size pre)) ->
  (forall b, next_pa st = Some b ->
             left_flag m (a + size pre + len + 8) post b) ->
  blocks m a pa (pre ++ (len, st) :: post) e.
Proof.
  intros H (c & l & E & Hc) Hf Hn. apply blocks_app in H as [H1 H2].
  apply blocks_app. split; [assumption|]. cbn [blocks] in *.
  destruct H2 as (A1 & A2 & (c' & l' & A3 & A4 & A5) & A6 & A7).
  assert (len mod 8 = 0) by lia.
  rewrite E in A3. apply hdr_inj in A3 as (_ & <- & <-); try assumption.
  repeat split; try assumption.
  - exists c, l. repeat split; assumption.
  - destruct (next_pa st) as [b|] eqn:Eb.
    + eapply blocks_left_flag; [eassumption|]. apply Hn. reflexivity.
    + assumption.
Qed.

Lemma inv_link (s : heap) (pre post : list block) (len : Z)
    (fl : Z -> list Z) :
  inv s (pre ++ (len, Limbo) :: post) fl -> 8 < len ->
  (exists l, load64 (mem s) (first_block s + size pre) = hdr len false l) ->
  load64 (mem s) (first_block s + size pre + len)
  = load64 (mem s) (first_block s + size pre) ->
  left_flag (mem s) (first_block s + size pre + len + 8) post false ->
  no_adj (pre ++ (len, Free) :: post) ->
  inv (with_mem s (insertIntoFreeList (mem s)
                     (heap_start s + 8 * calculateClass_new len)
                     (first_block s + size pre)))
      (pre ++ (len, Free) :: post)
      (fl_insert fl (calculateClass_new len) (first_block s + size pre)).
Proof.
  intros Hinv Hlen (l0 & Hh) Hf Hlf Hna.
  set (x := first_block s + size pre) in *.
  set (bs := pre ++ (len, Limbo) :: post) in *.
  set (c := calculateClass_new len).
  assert (Hx : In (x, len, Limbo) (place (first_block s) bs))
    by (apply place_mid; right; left; reflexivity).
  pose proof (inv_class _ _ _ Hinv _ _ _ Hx) as Hc. fold c in Hc.
  pose proof (inv_placed _ _ _ Hinv _ _ _ Hx) as Hxp.
  pose proof (inv_blocks _ _ _ Hinv) as Hb.
  assert (Hsplit : forall y l, In (y, l, Free) (place (first_block s)
                                  (pre ++ (len, Free) :: post)) <->
                    In (y, l, Free) (place (first_block s) bs) \/
                    (y = x /\ l = len)).
  { intros y l. unfold bs. rewrite !place_mid. fold x.
    split.
    - intros [H|[H|H]]; [auto | inversion H; auto | auto].
    - intros [[H|[H|H]]|[-> ->]]; [auto | discriminate | auto | auto]. }
  assert (Hnl : forall c', 0 <= c' < 24 -> ~ In x (fl c')).
  { intros c' Hc' Hi. destruct (inv_listed _ _ _ Hinv c' x Hc' Hi) as (l & P & _).
    destruct (place_disjoint _ _ _ _ _ Hb _ _ _ _ _ _ P Hx) as [(_ & _ & E)|D];
      [discriminate|].
    apply (inv_placed _ _ _ Hinv) in P. lia. }
  assert (Hload : forall w, safe_word s bs w -> (w + 8 <= x + 8 \/ x + 24 <= w) ->
            load64 (insertIntoFreeList (mem s) (heap_start s + 8 * c) x) w
            = load64 (mem s) w).
  { intros w Hw1 Hw2. apply (link_load _ _ _ Hinv); assumption. }
  constructor; cbn [with_mem initialized heap_start mem_start_brk mem_brk
                    mem_max_addr mem]; try apply Hinv.
  - (* blocks *)
    change (first_block (with_mem s _)) with (first_block s).
    change (epilogue (with_mem s _)) with (epilogue s).
    fold x.
    assert (Hb' : blocks (insertIntoFreeList (mem s) (heap_start s + 8 * c) x)
                    (first_block s) (Some true) bs (epilogue s)).
    { apply blocks_frame_meta with (m := mem s); [|exact Hb].
      intros y l st Hy.
      pose proof (inv_placed _ _ _ Hinv _ _ _ Hy) as Hyp.
      destruct (place_disjoint _ _ _ _ _ Hb _ _ _ _ _ _ Hy Hx) as [(-> & -> & ->)|D].
      - split; [|discriminate]. apply Hload; [eapply safe_header; eassumption | lia].
      - split; [|intros _].
        + apply Hload; [eapply safe_header; eassumption | lia].
        + apply Hload; [eapply safe_footer; eassumption | lia]. }
    apply blocks_settle; try assumption; fold x.
    + exists false, l0. split; [|reflexivity].
      rewrite Hload; [assumption | eapply safe_header; eassumption | lia].
    + intros _. rewrite !Hload; [assumption | | | |];
        try (eapply safe_header; eassumption);
        try (eapply safe_footer; eassumption); lia.
    + intros b Eb. inversion Eb; subst b.
      destruct post as [|[l1 s1] r]; cbn [left_flag] in *; [exact I|].
      destruct Hlf as [c1 E1]. exists c1.
      assert (Hy : In (x + len + 8, l1, s1) (place (first_block s) bs)).
      { apply place_mid. right. right. left. reflexivity. }
      rewrite Hload; [assumption | eapply safe_header; eassumption | lia].
  - (* epilogue *)
    change (epilogue (with_mem s _)) with (epilogue s).
    destruct (inv_epi _ _ _ Hinv) as (le & l & E1 & E2 & E3).
    exists le, l. split; [assumption | split; [assumption|]].
    fold x. rewrite Hload; [assumption | apply (safe_beyond _ _ _ Hinv); lia | lia].
  - assumption.
  - (* links *)
    intros c' Hc'. unfold fl_insert. fold x c.
    destruct (inv_links _ _ _ Hinv c' Hc') as (Hh' & Hl & Hnd).
    destruct (Z.eqb_spec c' c) as [->|Hne].
    + destruct (insert_links (heap_start s) (mem s) c (fl c) x) as [R1 R2];
        try assumption; try apply Hinv.
      { intros y Hy. apply (inv_node _ _ _ Hinv c y Hc Hy). }
      { pose proof (inv_bounds _ _ _ Hinv). unfold node, first_block in *. lia. }
      { apply Hnl; assumption. }
      split; [assumption | split; [assumption|]].
      constructor; [apply Hnl|]; assumption.
    + assert (Hfirst : hd 0 (fl c) <> 0 ->
                 node (heap_start s) (hd 0 (fl c)) /\ In (hd 0 (fl c)) (fl c)).
      { intros H0. assert (Hi : In (hd 0 (fl c)) (fl c))
          by (destruct (fl c); [contradiction | left; reflexivity]).
        split; [apply (inv_node _ _ _ Hinv c _ Hc Hi) | assumption]. }
      destruct (inv_links _ _ _ Hinv c Hc) as (Hhc & _ & _).
      repeat split; try assumption.
      * rewrite insert_frame; [assumption | lia | unfold first_block in *; lia |].
        rewrite Hhc. intros H0. destruct (Hfirst H0) as [N _].
        unfold node in N. lia.
      * apply links_frame with (m := mem s); [|assumption].
        intros y Hy. destruct (inv_node _ _ _ Hinv c' y Hc' Hy) as [N _].
        assert (y <> x) by (intros ->; eapply Hnl; eassumption).
        assert (Hyf : hd 0 (fl c) <> 0 -> y <> hd 0 (fl c)).
        { intros H0 ->. destruct (Hfirst H0) as [_ Hi]. apply Hne.
          eapply inv_listed_unique; eauto. }
        unfold node, first_block in *.
        split; (rewrite insert_frame; [reflexivity | lia | lia |]);
          rewrite Hhc; intros H0; destruct (Hfirst H0) as [[? [? ?]] _];
          specialize (Hyf H0); lia.
  - (* listed *)
    change (first_block (with_mem s _)) with (first_block s).
    intros c' y Hc' Hy. unfold fl_insert in Hy. fold x c in Hy.
    assert (Hy' : (c' = c /\ y = x) \/ In y (fl c')).
    { destruct (Z.eqb_spec c' c) as [->|Hne]; [|auto].
      destruct Hy as [<-|Hy]; auto. }
    destruct Hy' as [[-> ->]|Hy'].
    + exists len. split; [|split; [assumption|reflexivity]].
      apply Hsplit. right. split; reflexivity.
    + destruct (inv_listed _ _ _ Hinv c' y Hc' Hy') as (l & P & Hl & Ec).
      exists l. repeat split; try assumption. apply Hsplit. left. assumption.
  - (* complete *)
    change (first_block (with_mem s _)) with (first_block s).
    intros y l Hy Hl. apply Hsplit in Hy as [Hy|[-> ->]].
    + pose proof (inv_complete _ _ _ Hinv _ _ Hy Hl) as Hi.
      unfold fl_insert. destruct (Z.eqb_spec (calculateClass_new l) c);
        [right|]; assumption.
    + unfold fl_insert. fold x c. rewrite Z.eqb_refl. left. reflexivity.
Qed.

(** ** Rewriting metadata words *)

(** A change of the arena that leaves the class heads and the link words
    of the listed blocks alone keeps the free lists. *)
Lemma inv_rewrite (s : heap) (bs bs' : list block) (fl : Z -> list Z)
    (m' : memory) :
  inv s bs fl ->
  (forall w, w + 8 <= first_block s -> load64 m' w = load64 (mem s) w) ->
  (forall y len, In (y, len, Free) (place (first_block s) bs) -> 8 < len ->
     load64 m' (y + 8) = load64 (mem s) (y + 8) /\
     load64 m' (y + 16) = load64 (mem s) (y + 16)) ->
  blocks m' (first_block s) (Some true) bs' (epilogue s) ->
  (exists len l, len mod 8 = 0 /\ 0 <= len < two64 /\
                 load64 m' (epilogue s) = hdr len true l) ->
  no_adj bs' ->
  (forall y len, 8 < len ->
     In (y, len, Free) (place (first_block s) bs') <->
     In (y, len, Free) (place (first_block s) bs)) ->
  inv (with_mem s m') bs' fl.
Proof.
  intros Hinv Hheads Hlinks Hb He Hna Hsame.
  constructor; cbn [with_mem initialized heap_start mem_start_brk mem_brk
                    mem_max_addr mem]; try apply Hinv; try assumption.
  - intros c Hc. destruct (inv_links _ _ _ Hinv c Hc) as (Hh & Hl & Hnd).
    split; [|split; [|assumption]].
    + rewrite Hheads; [assumption | unfold first_block; lia].
    + apply links_frame with (m := mem s); [|assumption].
      intros y Hy. destruct (inv_listed _ _ _ Hinv c y Hc Hy) as (l & P & Hl' & _).
      apply (Hlinks y l P Hl').
  - intros c x Hc Hx.
    destruct (inv_listed _ _ _ Hinv c x Hc Hx) as (l & P & Hl' & E).
    exists l. repeat split; try assumption.
    apply Hsame; assumption.
  - intros x len Hx Hl. apply Hsame in Hx; [|assumption].
    apply (inv_complete _ _ _ Hinv _ _ Hx Hl).
Qed.

(** Free -> Limbo for a block that may be too small to be listed. *)
Lemma inv_unlink_opt (s : heap) (pre post : list block) (len : Z)
    (fl : Z -> list Z) :
  inv s (pre ++ (len, Free) :: post) fl ->
  (exists fl',
    inv (with_mem s
           (if 8 <? len
            then removeFromFreeList (heap_start s) (mem s)
                   (first_block s + size pre) len
            else mem s))
        (pre ++ (len, Limbo) :: post) fl') /\
  load64 (if 8 <? len
          then removeFromFreeList (heap_start s) (mem s)
                 (first_block s + size pre) len
          else mem s) (epilogue s)
  = load64 (mem s) (epilogue s).
Proof.
  intros Hinv. destruct (Z.ltb_spec 8 len) as [Hl|Hl]; (split; [|try reflexivity]).
  - eexists. apply inv_unlink; eassumption.
  - apply (unlink_load _ _ _ Hinv); try assumption.
    + apply place_mid. right. left. reflexivity.
    + apply (safe_beyond _ _ _ Hinv). lia.
  - exists fl. apply inv_rewrite with (bs := pre ++ (len, Free) :: post);
      try (intros; reflexivity); try apply Hinv; try assumption.
    + intros y l _ _. split; reflexivity.
    + apply blocks_limbo with (st := Free). apply Hinv.
    + apply no_adj_limbo with (st := Free). apply Hinv.
    + intros y l Hyl. rewrite !place_mid. split.
      * intros [H|[H|H]]; [auto | discriminate | auto].
      * intros [H|[H|H]]; [auto | inversion H; lia | auto].
Qed.

Lemma blocks_size_mod (m : memory) (bs : list block) (e : Z) : forall a pa,
  blocks m a pa bs e -> size bs mod 16 = 0.
Proof.
  induction bs as [|[len st] r IH]; intros a pa H; simpl in *.
  - reflexivity.
  - destruct H as (? & ? & _ & _ & H). apply IH in H. lia.
Qed.

Lemma blocks_size_pos (m : memory) (bs : list block) (e : Z) : forall a pa,
  blocks m a pa bs e -> bs <> [] -> 16 <= size bs.
Proof.
  destruct bs as [|[len st] r]; intros a pa H Hne; [contradiction|].
  simpl in *. destruct H as (? & ? & _ & _ & H).
  apply blocks_size_nonneg in H. lia.
Qed.

Definition all_limbo (bs : list block) : Prop :=
  Forall (fun b : block => snd b = Limbo) bs.

Lemma all_limbo_not_free (Ls : list block) (a y l : Z) :
  all_limbo Ls -> ~ In (y, l, Free) (place a Ls).
Proof.
  revert a. induction Ls as [|[len st] r IH]; intros a H Hin; simpl in *.
  - contradiction.
  - inversion H; subst. simpl in *. destruct Hin as [E|Hin].
    + inversion E. congruence.
    + eapply IH; eauto.
Qed.

Lemma all_limbo_end_pa (Ls : list block) (pa : option bool) :
  all_limbo Ls -> Ls <> [] -> end_pa pa Ls = None.
Proof.
  revert pa. induction Ls as [|[len st] r IH]; intros pa H Hne; [contradiction|].
  inversion H; subst. simpl in *. subst st.
  destruct r as [|b r']; [reflexivity|]. apply IH; [assumption|discriminate].
Qed.

Definition head_not_free (post : list block) : Prop :=
  match post with (_, Free) :: _ => False | _ => True end.

Lemma no_adj_join (pre post : list block) (len : Z) (st : status) :
  no_adj pre -> no_adj post ->
  (st = Free -> head_not_free post /\ last_alloc pre = true) ->
  no_adj (pre ++ (len, st) :: post).
Proof.
  intros H1 H2 H3.
  induction pre as [|[l0 s0] r IH]; cbn [app no_adj] in *.
  - split; [|assumption]. destruct st; try exact I.
    destruct (H3 eq_refl) as [Hh _].
    destruct post as [|[l1 s1] r1]; [exact I|]. destruct s1; try exact I.
    exact Hh.
  - destruct H1 as [H1 H1']. split.
    + destruct s0; try exact I. destruct r as [|[l1 s1] r1]; cbn [app].
      * destruct st; try exact I. destruct (H3 eq_refl) as [_ Hl].
        discriminate.
      * exact H1.
    + apply IH; [assumption|].
      intros Hst. destruct (H3 Hst) as [Hh Hl]. split; [assumption|].
      unfold last_alloc in *. cbn [end_pa] in Hl.
      destruct r as [|[l1 s1] r1]; [reflexivity|]. cbn [end_pa] in *. exact Hl.
Qed.

Lemma place_seg (pre Ls post : list block) (a : Z) (b : Z * Z * status) :
  In b (place a (pre ++ Ls ++ post)) <->
  In b (place a pre) \/ In b (place (a + size pre) Ls) \/
  In b (place (a + size pre + size Ls) post).
Proof.
  rewrite !place_app, !in_app_iff. tauto.
Qed.

Lemma blocks_seg (m : memory) (pre Ls post : list block) (a e : Z)
    (pa : option bool) :
  blocks m a pa (pre ++ Ls ++ post) e <->
  blocks m a pa pre (a + size pre) /\
  blocks m (a + size pre) (end_pa pa pre) Ls (a + size pre + size Ls) /\
  blocks m (a + size pre + size Ls) (end_pa (end_pa pa pre) Ls) post e.
Proof. rewrite !blocks_app. tauto. Qed.

(** The header word found where [post] starts: the next block's header,
    or the epilogue. *)
Lemma right_word (m : memory) (post : list block) (a e : Z)
    (pa : option bool) :
  blocks m a pa post e ->
  (exists len l, len mod 8 = 0 /\ 0 <= len < two64 /\
                 load64 m e = hdr len true l) ->
  e + 8 <= two64 -> 0 <= a ->
  exists rl rc rlf,
    rl mod 8 = 0 /\ 0 <= rl < two64 /\ load64 m a = hdr rl rc rlf /\
    match post with
    | [] => a = e /\ rc = true
    | (l, st) :: _ => rl = l /\ cur_ok st rc /\ left_ok pa rlf
    end.
Proof.
  intros Hb (le & l & E1 & E2 & E3) He Ha. destruct post as [|[len st] r].
  - simpl in Hb. subst a. exists le, true, l. repeat split; assumption || lia.
  - simpl in Hb. destruct Hb as (H1 & H2 & (c & l' & H3 & H4 & H5) & H6 & H7).
    pose proof (blocks_size _ _ _ _ _ H7). pose proof (blocks_size_nonneg _ _ _ _ _ H7).
    exists len, c, l'. repeat split; try assumption; lia.
Qed.

(** ** Merging limbo blocks into one *)

Lemma inv_merge (s : heap) (pre Ls post : list block) (fl : Z -> list Z)
    (lf : bool) :
  inv s (pre ++ Ls ++ post) fl ->
  Ls <> [] -> all_limbo Ls -> head_not_free post ->
  left_ok (end_pa (Some true) pre) lf ->
  let x := first_block s + size pre in
  let total := size Ls - 8 in
  let m3 := construct_new (mem s) x total false lf in
  let m4 := mem_memcpy m3 (x + total) x WORDSIZE in
  let m5 := setLeftAllocated m4 (x + 8 + total) false in
  inv (with_mem s m5) (pre ++ (total, Limbo) :: post) fl /\
  load64 m5 x = hdr total false lf /\
  load64 m5 (x + total) = hdr total false lf /\
  left_flag m5 (x + total + 8) post false /\
  (post <> [] -> load64 m5 (epilogue s) = load64 (mem s) (epilogue s)) /\
  (forall le l, post = [] -> le mod 8 = 0 ->
     load64 (mem s) (epilogue s) = hdr le true l ->
     load64 m5 (epilogue s) = hdr le true false).
Proof.
  intros Hinv Hne Hal Hpost Hlf x total m3 m4 m5.
  pose proof (inv_blocks _ _ _ Hinv) as Hb.
  apply blocks_seg in Hb as (Hb1 & Hb2 & Hb3). fold x in Hb1, Hb2, Hb3.
  rewrite all_limbo_end_pa in Hb3 by assumption.
  pose proof (blocks_size_mod _ _ _ _ _ Hb2) as Hmod.
  pose proof (blocks_size_pos _ _ _ _ _ Hb2 Hne) as Hpos.
  pose proof (blocks_size _ _ _ _ _ Hb1) as Hs1.
  pose proof (blocks_size_nonneg _ _ _ _ _ Hb1) as Hn1.
  pose proof (blocks_size _ _ _ _ _ Hb3) as Hs3.
  pose proof (blocks_size_nonneg _ _ _ _ _ Hb3) as Hn3.
  pose proof (inv_bounds _ _ _ Hinv) as [Hbd1 Hbd2].
  pose proof (inv_pos _ _ _ Hinv) as Hhs.
  assert (Hx0 : first_block s <= x) by (unfold x; lia).
  assert (Ht : total mod 8 = 0 /\ 8 <= total /\ total mod 16 = 8 /\
               x + total + 8 = x + size Ls) by (unfold total; lia).
  destruct Ht as (Ht1 & Ht2 & Ht3 & Ht4).
  destruct (right_word _ _ _ _ _ Hb3 (inv_epi _ _ _ Hinv))
    as (rl & rc & rlf & R1 & R2 & R3 & R4);
    [lia | unfold first_block in *; lia |].
  assert (Hm3 : m3 = store64 (mem s) x (hdr total false lf))
    by (apply construct_new_hdr; assumption).
  assert (Hr : 0 <= hdr total false lf < two64).
  { apply hdr_range; [assumption|]. unfold first_block, two64 in *. lia. }
  assert (Hm5 : m5 = store64 m4 (x + 8 + total) (hdr rl rc false)).
  { apply setLeftAllocated_hdr with (l := rlf); [assumption|].
    unfold m4. rewrite Hm3. mem_simpl'.
    replace (x + 8 + total) with (x + size Ls) by lia. assumption. }
  assert (Hr' : 0 <= hdr rl rc false < two64) by (apply hdr_range; assumption).
  assert (Hfr : forall w, w + 8 <= x \/ x + total + 16 <= w ->
                  load64 m5 w = load64 (mem s) w).
  { intros w Hw. rewrite Hm5. unfold m4. rewrite Hm3. mem_simpl'. reflexivity. }
  assert (Hhd : load64 m5 x = hdr total false lf).
  { rewrite Hm5. unfold m4. rewrite Hm3. mem_simpl'. reflexivity. }
  assert (Hft : load64 m5 (x + total) = hdr total false lf).
  { rewrite Hm5. unfold m4. rewrite Hm3. mem_simpl'. reflexivity. }
  assert (Hnx : load64 m5 (x + total + 8) = hdr rl rc false).
  { rewrite Hm5. mem_simpl'. reflexivity. }
  split; [|split; [assumption | split; [assumption | split; [|split]]]].
  - apply inv_rewrite with (bs := pre ++ Ls ++ post).
    + assumption.
    + intros w Hw. apply Hfr. lia.
    + intros y len Hy Hl. apply place_seg in Hy. fold x in Hy.
      destruct Hy as [Hy|[Hy|Hy]].
      * pose proof (place_bounds _ _ _ _ _ Hb1 _ _ _ Hy).
        split; apply Hfr; lia.
      * exfalso. eapply all_limbo_not_free; eassumption.
      * pose proof (place_bounds _ _ _ _ _ Hb3 _ _ _ Hy) as Hyb.
        assert (y <> x + size Ls).
        { intros ->. destruct post as [|[l1 s1] r1]; [contradiction|].
          cbn [place In] in Hy. cbn [blocks] in Hb3.
          destruct Hb3 as (? & ? & _ & _ & Hb3).
          destruct Hy as [E|Hy]; [inversion E; subst; contradiction|].
          pose proof (place_bounds _ _ _ _ _ Hb3 _ _ _ Hy). lia. }
        split; apply Hfr; lia.
    + apply blocks_app. split.
      * apply blocks_frame with (m := mem s); [|assumption].
        intros w Hw1 Hw2. apply Hfr. fold x in Hw2. lia.
      * fold x. cbn [blocks]. repeat split; try assumption.
        -- exists false, lf. repeat split; assumption.
        -- discriminate.
        -- replace (x + total + 8) with (x + size Ls) by lia. cbn [next_pa].
           destruct post as [|[l1 s1] r1]; [assumption|].
           cbn [blocks] in *. destruct R4 as (-> & Rc & _).
           destruct Hb3 as (A1 & A2 & _ & A6 & A7).
           repeat split; try assumption.
           ++ exists rc, false. replace (x + size Ls) with (x + total + 8) by lia.
              repeat split; assumption.
           ++ intros ->. contradiction.
           ++ apply blocks_frame with (m := mem s); [|assumption].
              intros w Hw1 Hw2. apply Hfr. lia.
    + destruct (inv_epi _ _ _ Hinv) as (le & l & E1 & E2 & E3).
      destruct post as [|[l1 s1] r1].
      * simpl in Hb3. destruct R4 as [_ ->].
        exists rl, false. repeat split; try assumption; try lia.
        rewrite <- Hb3. replace (x + size Ls) with (x + total + 8) by lia.
        assumption.
      * exists le, l. repeat split; try assumption; try lia.
        rewrite Hfr; [assumption|]. cbn [blocks] in Hb3.
        destruct Hb3 as (A1 & A2 & _ & A6 & A7).
        pose proof (blocks_size _ _ _ _ _ A7).
        pose proof (blocks_size_nonneg _ _ _ _ _ A7). lia.
    + pose proof (inv_noadj _ _ _ Hinv) as Hna.
      apply no_adj_app_inv in Hna as [Hna1 Hna2].
      apply no_adj_app_inv in Hna2 as [_ Hna2].
      apply no_adj_join; try assumption. discriminate.
    + intros y len Hyl. rewrite place_mid, place_seg. fold x.
      replace (x + total + 8) with (x + size Ls) by lia.
      split.
      * intros [H|[H|H]]; [auto | discriminate | auto].
      * intros [H|[H|H]]; [auto | | auto].
        exfalso. eapply all_limbo_not_free; eassumption.
  - destruct post as [|[l1 s1] r1]; cbn [left_flag]; [exact I|].
    destruct R4 as (-> & _). exists rc. assumption.
  - intros Hpne. apply Hfr. destruct post as [|[l1 s1] r1]; [contradiction|].
    cbn [blocks] in Hb3. destruct Hb3 as (A1 & A2 & _ & A6 & A7).
    pose proof (blocks_size _ _ _ _ _ A7).
    pose proof (blocks_size_nonneg _ _ _ _ _ A7). lia.
  - intros le l -> Hle E. simpl in Hb3. destruct R4 as [_ ->].
    rewrite <- Hb3 in E. rewrite R3 in E.
    apply hdr_inj in E as (-> & _ & _); try assumption.
    rewrite <- Hb3. replace (x + size Ls) with (x + total + 8) by lia.
    assumption.
Qed.

(** ** The release engine, step by step *)

(** What [free_block] does once the three metadata words it reads are
    known: [len], [l] from the block's own header, [rl], [rc] from the
    word that follows the block, and [ll], [lla] from the word before the
    header when [l] is false. *)
Definition free_steps (hs : Z) (m : memory) (ptr len : Z) (l : bool)
    (ll : Z) (lla : bool) (rl : Z) (rc : bool) : memory :=
  let ls := if l then 0 else ll + 8 in
  let rs := if rc then 0 else rl + 8 in
  let total := ls + len + rs in
  let x := ptr - 8 - ls in
  let m1 := if negb l && (8 <? ll)
            then removeFromFreeList hs m x ll else m in
  let m2 := if negb rc && (8 <? rl)
            then removeFromFreeList hs m1 (ptr + len) rl else m1 in
  let m3 := construct_new m2 x total false (if l then true else lla) in
  let m4 := mem_memcpy m3 (x + total) x WORDSIZE in
  let m5 := setLeftAllocated m4 (x + 8 + total) false in
  if 8 <? total
  then insertIntoFreeList m5 (hs + 8 * calculateClass_new total) x
  else m5.

Lemma removeFromFreeList_congr hs m m' a a' l :
  m = m' -> a = a' ->
  removeFromFreeList hs m a l = removeFromFreeList hs m' a' l.
Proof. intros -> ->. reflexivity. Qed.

Lemma construct_new_congr m m' a a' len len' c l :
  m = m' -> a = a' -> len = len' ->
  construct_new m a len c l = construct_new m' a' len' c l.
Proof. intros -> -> ->. reflexivity. Qed.

Lemma mem_memcpy_congr m m' d d' s s' n :
  m = m' -> d = d' -> s = s' -> mem_memcpy m d s n = mem_memcpy m' d' s' n.
Proof. intros -> -> ->. reflexivity. Qed.

Lemma setLeftAllocated_congr m m' a a' b :
  m = m' -> a = a' -> setLeftAllocated m a b = setLeftAllocated m' a' b.
Proof. intros -> ->. reflexivity. Qed.

Lemma insertIntoFreeList_congr m m' a a' b b' :
  m = m' -> a = a' -> b = b' ->
  insertIntoFreeList m a b = insertIntoFreeList m' a' b'.
Proof. intros -> -> ->. reflexivity. Qed.

Ltac mem_eq :=
  repeat first
    [ reflexivity
    | apply insertIntoFreeList_congr
    | apply setLeftAllocated_congr
    | apply mem_memcpy_congr
    | apply construct_new_congr
    | apply removeFromFreeList_congr
    | lia ].

Lemma free_block_steps (hs : Z) (m : memory) (ptr len : Z) (c l : bool)
    (ll : Z) (lc lla : bool) (rl : Z) (rc rlf : bool) :
  len mod 8 = 0 -> rl mod 8 = 0 -> ll mod 8 = 0 ->
  0 <= len -> 0 <= rl -> 0 <= ll ->
  ll + len + (if rc then 0 else rl) + 32 < two64 ->
  load64 m (ptr - 8) = hdr len c l ->
  load64 m (ptr + len) = hdr rl rc rlf ->
  (l = false -> load64 m (ptr - 16) = hdr ll lc lla) ->
  free_block hs m ptr = free_steps hs m ptr len l ll lla rl rc.
Proof.
  intros M1 M2 M3 B1 B2 B3 B4 H1 H2 H3.
  assert (B5 : ll + len + 32 < two64) by (destruct rc; lia).
  unfold free_block, free_steps. norm_ws.
  rewrite (deconstruct_new_hdr m (ptr - 8) len c l) by assumption.
  rewrite (deconstruct_new_hdr m (ptr + len) rl rc rlf) by assumption.
  destruct l; cbn [negb andb].
  - destruct rc; cbn [negb andb]; cbv iota in B4.
    + replace (0 + len + 0) with len by lia.
      rewrite (u64_small (8 + len)) by (unfold two64 in *; lia).
      replace (ptr - 8 - 0) with (ptr - 8) by lia.
      replace (calculateClass_new len * 8) with (8 * calculateClass_new len) by lia.
      replace (ptr - 8 + (8 + len)) with (ptr - 8 + 8 + len) by lia.
      reflexivity.
    + rewrite (u64_small (len + 8 + rl)) by (unfold two64 in *; lia).
      rewrite (u64_small (8 + (len + 8 + rl))) by (unfold two64 in *; lia).
      replace (0 + len + (rl + 8)) with (len + 8 + rl) by lia.
      replace (ptr - 8 - 0) with (ptr - 8) by lia.
      replace (calculateClass_new (len + 8 + rl) * 8)
        with (8 * calculateClass_new (len + 8 + rl)) by lia.
      replace (ptr - 8 + len + 8) with (ptr + len) by lia.
      replace (ptr - 8 + (8 + (len + 8 + rl)))
        with (ptr - 8 + 8 + (len + 8 + rl)) by lia.
      reflexivity.
  - rewrite (deconstruct_new_hdr m (ptr - 16) ll lc lla) by auto.
    rewrite (u64_small (16 + ll)) by (unfold two64 in *; lia).
    replace (ptr - 8 - (ll + 8)) with (ptr - (16 + ll)) by lia.
    destruct rc; cbn [negb andb]; cbv iota in B4.
    + rewrite (u64_small (ll + 8 + len)) by (unfold two64 in *; lia).
      rewrite (u64_small (8 + (ll + 8 + len))) by (unfold two64 in *; lia).
      replace (ll + 8 + len + 0) with (ll + 8 + len) by lia.
      replace (calculateClass_new (ll + 8 + len) * 8)
        with (8 * calculateClass_new (ll + 8 + len)) by lia.
      replace (ptr - (16 + ll) + (8 + (ll + 8 + len)))
        with (ptr - (16 + ll) + 8 + (ll + 8 + len)) by lia.
      reflexivity.
    + rewrite (u64_small (ll + len + rl + 16)) by (unfold two64 in *; lia).
      rewrite (u64_small (8 + (ll + len + rl + 16))) by (unfold two64 in *; lia).
      rewrite (u64_small (ll + len + 16)) by (unfold two64 in *; lia).
      replace (ll + 8 + len + (rl + 8)) with (ll + len + rl + 16) by lia.
      replace (calculateClass_new (ll + len + rl + 16) * 8)
        with (8 * calculateClass_new (ll + len + rl + 16)) by lia.
      replace (ptr - (16 + ll) + (ll + len + 16)) with (ptr + len) by lia.
      replace (ptr - (16 + ll) + (8 + (ll + len + rl + 16)))
        with (ptr - (16 + ll) + 8 + (ll + len + rl + 16)) by lia.
      reflexivity.
Qed.

(** Limbo -> Free for a block too small to be listed. *)
Lemma inv_settle (s : heap) (pre post : list block) (len : Z)
    (fl : Z -> list Z) :
  inv s (pre ++ (len, Limbo) :: post) fl -> len <= 8 ->
  (exists l, load64 (mem s) (first_block s + size pre) = hdr len false l) ->
  load64 (mem s) (first_block s + size pre + len)
  = load64 (mem s) (first_block s + size pre) ->
  left_flag (mem s) (first_block s + size pre + len + 8) post false ->
  no_adj (pre ++ (len, Free) :: post) ->
  inv (with_mem s (mem s)) (pre ++ (len, Free) :: post) fl.
Proof.
  intros Hinv Hlen (l0 & Hh) Hf Hlf Hna.
  apply inv_rewrite with (bs := pre ++ (len, Limbo) :: post);
    try assumption; try (intros; reflexivity); try apply Hinv.
  - intros y l _ _. split; reflexivity.
  - apply blocks_settle; try apply Hinv.
    + exists false, l0. split; [assumption | reflexivity].
    + intros _. assumption.
    + intros b Eb. inversion Eb. assumption.
  - intros y l Hyl. rewrite !place_mid. split.
    + intros [H|[H|H]]; [auto | inversion H; lia | auto].
    + intros [H|[H|H]]; [auto | discriminate | auto].
Qed.

(** The abstract effect of a release: the block and its free neighbours
    become one free block. *)
Definition take_free_front (post : list block) : Z * list block :=
  match post with
  | (rl, Free) :: r => (rl + 8, r)
  | _ => (0, post)
  end.

Definition take_free_end (pre : list block) : list block * Z :=
  match rev pre with
  | (ll, Free) :: r => (rev r, ll + 8)
  | _ => (pre, 0)
  end.

Definition merge_free (pre : list block) (len : Z) (post : list block)
    : list block :=
  let '(pre', ls) := take_free_end pre in
  let '(rs, post') := take_free_front post in
  pre' ++ (ls + len + rs, Free) :: post'.

Lemma end_pa_last (pre : list block) (ll : Z) (st : status) (pa : option bool) :
  end_pa pa (pre ++ [(ll, st)]) = next_pa st.
Proof. rewrite end_pa_app. reflexivity. Qed.

Lemma no_limbo_end_pa (pre : list block) (b : bool) :
  no_limbo pre -> end_pa (Some b) pre = Some (match end_pa (Some b) pre with
                                              | Some b' => b' | None => true end).
Proof.
  intros H. destruct pre as [|[ll st] r] using rev_ind; [reflexivity|].
  rewrite end_pa_last. apply Forall_app in H as [_ H]. inversion H; subst.
  simpl in *. destruct st; try reflexivity. congruence.
Qed.

Lemma left_case (pre : list block) :
  no_limbo pre ->
  (end_pa (Some true) pre = Some true /\ take_free_end pre = (pre, 0)) \/
  (exists r ll, pre = r ++ [(ll, Free)] /\ take_free_end pre = (r, ll + 8)).
Proof.
  intros H. destruct pre as [|[ll st] r] using rev_ind.
  - left. split; reflexivity.
  - apply Forall_app in H as [_ H]. inversion H; subst. simpl in *.
    unfold take_free_end. rewrite rev_app_distr. cbn [rev app].
    destruct st; [left | right | congruence].
    + split; [apply end_pa_last | reflexivity].
    + exists r, ll. rewrite rev_involutive. split; reflexivity.
Qed.

Lemma right_case (post : list block) :
  no_limbo post ->
  (head_not_free post /\ take_free_front post = (0, post)) \/
  (exists rl r, post = (rl, Free) :: r /\ take_free_front post = (rl + 8, r)).
Proof.
  intros H. destruct post as [|[rl st] r].
  - left. split; [exact I | reflexivity].
  - inversion H; subst. simpl in *. destruct st; [left | right | congruence].
    + split; [exact I | reflexivity].
    + exists rl, r. split; reflexivity.
Qed.

Lemma no_adj_free_last (r rest : list block) (ll : Z) :
  no_adj (r ++ (ll, Free) :: rest) -> no_limbo r ->
  end_pa (Some true) r = Some true.
Proof.
  intros H Hnl. destruct r as [|[l0 s0] r'] using rev_ind; [reflexivity|].
  rewrite end_pa_last. apply Forall_app in Hnl as [_ Hnl].
  inversion Hnl; subst. simpl in *.
  destruct s0; [reflexivity | | congruence].
  exfalso. rewrite <- app_assoc in H. cbn [app] in H.
  apply no_adj_app_inv in H as [_ H]. cbn [no_adj] in H. tauto.
Qed.

Lemma no_adj_free_head (pre r : list block) (rl : Z) :
  no_adj (pre ++ (rl, Free) :: r) -> head_not_free r.
Proof.
  intros H. apply no_adj_app_inv in H as [_ H]. cbn [no_adj] in H.
  destruct r as [|[l1 s1] r1]; [exact I|]. destruct s1; try exact I. tauto.
Qed.

Lemma with_mem_with_mem (s : heap) (m m' : memory) :
  with_mem (with_mem s m) m' = with_mem s m'.
Proof. reflexivity. Qed.

Ltac splits := repeat match goal with |- _ /\ _ => split end.

Lemma inv_same (s : heap) (bs : list block) (fl : Z -> list Z) :
  inv s bs fl -> inv (with_mem s (mem s)) bs fl.
Proof.
  intros Hinv. apply inv_rewrite with (bs := bs);
    try (intros; reflexivity); try apply Hinv.
  intros y l' _ _. split; reflexivity.
Qed.

(** ** Release of a block *)

(** A word inside the payload of an allocated block. *)
Definition in_payload (s : heap) (bs : list block) (w : Z) : Prop :=
  exists y l, In (y, l, Alloc) (place (first_block s) bs) /\
              y + 8 <= w /\ w + 8 <= y + l + 8.

Lemma in_payload_safe (s : heap) (bs : list block) (fl : Z -> list Z)
    (w : Z) :
  inv s bs fl -> in_payload s bs w -> safe_word s bs w.
Proof.
  intros Hinv (y & l & P & H1 & H2).
  apply (safe_inside s bs fl Hinv y l Alloc); [assumption | discriminate | lia | lia].
Qed.

Lemma all_limbo_not_alloc (Ls : list block) (a y l : Z) :
  all_limbo Ls -> ~ In (y, l, Alloc) (place a Ls).
Proof.
  revert a. induction Ls as [|[len st] r IH]; intros a H Hin; simpl in *.
  - contradiction.
  - inversion H; subst. simpl in *. destruct Hin as [E|Hin].
    + inversion E. congruence.
    + eapply IH; eauto.
Qed.

(** Allocated blocks do not notice a change of status of a block that is
    not allocated. *)
Lemma alloc_flip (A B : list block) (n : Z) (st st' : status) (a y l : Z) :
  st <> Alloc ->
  In (y, l, Alloc) (place a (A ++ (n, st) :: B)) ->
  In (y, l, Alloc) (place a (A ++ (n, st') :: B)).
Proof.
  intros Hst Hin. apply place_mid in Hin. apply place_mid.
  destruct Hin as [H|[H|H]]; [left; exact H | | right; right; exact H].
  inversion H. congruence.
Qed.

(** The three stores that write the boundary tags of a merged block touch
    its first word, its last word and the header that follows. *)
Lemma merge_frame (m : memory) (X T : Z) (lf : bool) (w : Z) :
  w + 8 <= X \/ X + T + 16 <= w -> 0 <= T ->
  load64 (setLeftAllocated
            (mem_memcpy (construct_new m X T false lf) (X + T) X WORDSIZE)
            (X + 8 + T) false) w
  = load64 m w.
Proof.
  intros Hw HT.
  destruct (setLeftAllocated_store
              (mem_memcpy (construct_new m X T false lf) (X + T) X WORDSIZE)
              (X + 8 + T) false) as (v & -> & _).
  rewrite load64_store64_ne by lia.
  rewrite load64_memcpy_ne by (unfold WORDSIZE; lia).
  unfold construct_new. cbv zeta.
  apply load64_store64_ne. lia.
Qed.

Lemma free_limbo_full (s : heap) (pre post : list block) (len : Z)
    (fl : Z -> list Z) :
  inv s (pre ++ (len, Limbo) :: post) fl ->
  no_limbo pre -> no_limbo post ->
  (exists fl',
    inv (free s (first_block s + size pre + 8)) (merge_free pre len post) fl')
  /\
  (forall le l0, le mod 8 = 0 ->
     load64 (mem s) (epilogue s) = hdr le true l0 ->
     load64 (mem (free s (first_block s + size pre + 8))) (epilogue s)
     = hdr le true (match snd (take_free_front post) with
                    | [] => false | _ => l0 end))
  /\
  (forall w, in_payload s (pre ++ (len, Limbo) :: post) w ->
     load64 (mem (free s (first_block s + size pre + 8))) w
     = load64 (mem s) w)
  /\
  (forall y l0,
     In (y, l0, Alloc) (place (first_block s) (pre ++ (len, Limbo) :: post)) ->
     In (y, l0, Alloc) (place (first_block s) (merge_free pre len post)))
  /\
  (8 < snd (take_free_end pre) + len + fst (take_free_front post) ->
   load64 (mem (free s (first_block s + size pre + 8)))
     (heap_start s
      + 8 * calculateClass_new
              (snd (take_free_end pre) + len + fst (take_free_front post)))
   = first_block s + size (fst (take_free_end pre))).
Proof.
  intros Hinv Hnl1 Hnl2.
  set (x := first_block s + size pre).
  pose proof (inv_blocks _ _ _ Hinv) as Hb.
  apply blocks_app in Hb as [Hb1 Hb2]. fold x in Hb1, Hb2. cbn [blocks] in Hb2.
  destruct Hb2 as (Hl1 & Hl2 & (c & l & Hh & _ & Hlo) & _ & Hb3).
  cbn [next_pa] in Hb3.
  pose proof (inv_bounds _ _ _ Hinv) as [Hbd1 Hbd2].
  pose proof (inv_pos _ _ _ Hinv) as Hhs.
  pose proof (blocks_size _ _ _ _ _ Hb1) as Hs1.
  pose proof (blocks_size_nonneg _ _ _ _ _ Hb1) as Hn1.
  pose proof (blocks_size _ _ _ _ _ Hb3) as Hs3.
  pose proof (blocks_size_nonneg _ _ _ _ _ Hb3) as Hn3.
  assert (Hx0 : first_block s <= x) by (unfold x; lia).
  destruct (right_word _ _ _ _ _ Hb3 (inv_epi _ _ _ Hinv))
    as (rl & rc & rlf & R1 & R2 & R3 & R4);
    [lia | unfold first_block in *; lia |].
  pose proof (inv_noadj _ _ _ Hinv) as Hna.
  apply no_adj_app_inv in Hna as [Hna1 Hna2].
  cbn [no_adj] in Hna2. destruct Hna2 as [_ Hna2].
  unfold free. destruct (Z.eqb_spec (x + 8) NULL) as [E|_];
    [unfold NULL, first_block in *; lia|].
  (* the left neighbour *)
  assert (HL : exists pre' Ll ll lc lla fl1,
    take_free_end pre = (pre', size Ll) /\ all_limbo Ll /\
    (l = false -> load64 (mem s) (x - 8) = hdr ll lc lla) /\
    ll mod 8 = 0 /\ 0 <= ll /\
    size Ll = (if l then 0 else ll + 8) /\ ll <= size pre /\
    first_block s + size pre' = x - size Ll /\
    end_pa (Some true) pre' = Some true /\
    left_ok (end_pa (Some true) pre') (if l then true else lla) /\
    no_adj pre' /\
    load64 (if negb l && (8 <? ll)
            then removeFromFreeList (heap_start s) (mem s)
                   (first_block s + size pre') ll
            else mem s) (epilogue s) = load64 (mem s) (epilogue s) /\
    inv (with_mem s (if negb l && (8 <? ll)
                     then removeFromFreeList (heap_start s) (mem s)
                            (first_block s + size pre') ll
                     else mem s))
        (pre' ++ (Ll ++ (len, Limbo) :: post)) fl1 /\
    (forall w, in_payload s (pre ++ (len, Limbo) :: post) w ->
       load64 (if negb l && (8 <? ll)
               then removeFromFreeList (heap_start s) (mem s)
                      (first_block s + size pre') ll
               else mem s) w = load64 (mem s) w) /\
    (forall y l0,
       In (y, l0, Alloc)
          (place (first_block s) (pre ++ (len, Limbo) :: post)) ->
       In (y, l0, Alloc)
          (place (first_block s) (pre' ++ (Ll ++ (len, Limbo) :: post))))).
  { destruct (left_case pre Hnl1) as [[Hep Htf] | (r & ll & Epre & Htf)].
    - rewrite Hep in Hlo. cbn [left_ok] in Hlo. subst l.
      exists pre, [], 0, true, true, fl. cbn [size app negb andb].
      splits; try assumption; try lia; try discriminate.
      + constructor.
      + rewrite Hep. reflexivity.
      + apply inv_same. assumption.
      + intros y l0 H. exact H.
    - subst pre. rewrite end_pa_last in Hlo. cbn [left_ok next_pa] in Hlo. subst l.
      apply blocks_app in Hb1 as [Hb0 Hbl]. cbn [blocks] in Hbl.
      destruct Hbl as (A1 & A2 & (cl & lla & A3 & A4 & A5) & A6 & A7).
      cbn [cur_ok] in A4. subst cl. specialize (A6 eq_refl).
      rewrite size_app in *. cbn [size] in *.
      rewrite <- app_assoc in Hinv. cbn [app] in Hinv.
      destruct (inv_unlink_opt _ _ _ _ _ Hinv) as [[fl1 Hinv1] Hep1].
      apply Forall_app in Hnl1 as [Hnl1 _].
      pose proof (blocks_size_nonneg _ _ _ _ _ Hb0) as Hn0.
      exists r, [(ll, Limbo)], ll, false, lla, fl1. cbn [size app negb andb].
      splits; try assumption; try lia.
      + rewrite Htf. replace (ll + 8 + 0) with (ll + 8) by lia. reflexivity.
      + constructor; [reflexivity | constructor].
      + intros _. replace (x - 8) with (first_block s + size r + ll) by (unfold x; lia).
        rewrite A6. assumption.
      + eapply no_adj_free_last; eassumption.
      + apply no_adj_app_inv in Hna1 as [Hna1 _]. assumption.
      + intros w Hw. destruct (Z.ltb_spec 8 ll) as [Hll|_]; [|reflexivity].
        apply (unlink_load s _ fl Hinv).
        * apply place_mid. right. left. reflexivity.
        * assumption.
        * apply (in_payload_safe s _ fl); [assumption|].
          rewrite <- app_assoc in Hw. exact Hw.
      + intros y l0 Hin. rewrite <- app_assoc in Hin. cbn [app] in Hin.
        apply alloc_flip with (st := Free); [discriminate | exact Hin]. }
  destruct HL as (pre' & Ll & ll & lc & lla & fl1 & Htf & Hal & Hlw & Hll1 & Hll2
                  & Hls & Hlb & Hxl & Hep' & Hlok & Hnap & Hepi1 & Hinv1
                  & HfrL & HkeepL).
  set (m1 := if negb l && (8 <? ll)
             then removeFromFreeList (heap_start s) (mem s)
                    (first_block s + size pre') ll
             else mem s) in *.
  (* the right neighbour *)
  assert (HR : exists post' Lr fl2,
    take_free_front post = (size Lr, post') /\ all_limbo Lr /\
    size Lr = (if rc then 0 else rl + 8) /\ size Lr <= size post /\
    head_not_free post' /\ no_adj post' /\
    load64 (if negb rc && (8 <? rl)
            then removeFromFreeList (heap_start s) m1 (x + 8 + len) rl
            else m1) (epilogue s) = load64 m1 (epilogue s) /\
    inv (with_mem s (if negb rc && (8 <? rl)
                     then removeFromFreeList (heap_start s) m1
                            (x + 8 + len) rl
                     else m1))
        (pre' ++ (Ll ++ (len, Limbo) :: Lr) ++ post') fl2 /\
    (forall w, in_payload s (pre' ++ (Ll ++ (len, Limbo) :: post)) w ->
       load64 (if negb rc && (8 <? rl)
               then removeFromFreeList (heap_start s) m1 (x + 8 + len) rl
               else m1) w = load64 m1 w) /\
    (forall y l0,
       In (y, l0, Alloc)
          (place (first_block s) (pre' ++ (Ll ++ (len, Limbo) :: post))) ->
       In (y, l0, Alloc)
          (place (first_block s)
             (pre' ++ (Ll ++ (len, Limbo) :: Lr) ++ post')))).
  { destruct (right_case post Hnl2) as [[Hhf Htr] | (rl' & r & Epost & Htr)].
    - assert (rc = true) as ->.
      { destruct post as [|[l1 s1] r1]; [tauto|].
        inversion Hnl2; subst. simpl in *. destruct R4 as (_ & Hc & _).
        destruct s1; simpl in *; congruence || contradiction. }
      exists post, [], fl1. cbn [size app negb andb].
      splits; try assumption; try lia.
      + constructor.
      + rewrite <- app_assoc. cbn [app]. exact Hinv1.
      + intros y l0 H. rewrite <- app_assoc. cbn [app]. exact H.
    - subst post. destruct R4 as (-> & Hc & _). cbn [cur_ok] in Hc. subst rc.
      replace (pre' ++ Ll ++ (len, Limbo) :: (rl', Free) :: r)
        with ((pre' ++ Ll ++ [(len, Limbo)]) ++ (rl', Free) :: r) in Hinv1
        by (rewrite <- !app_assoc; reflexivity).
      destruct (inv_unlink_opt _ _ _ _ _ Hinv1) as [[fl2 Hinv2] Hep2].
      assert (Hnr : 0 <= size r).
      { cbn [blocks] in Hb3. destruct Hb3 as (_ & _ & _ & _ & Hb3).
        eapply blocks_size_nonneg; eassumption. }
      exists r, [(rl', Limbo)], fl2. cbn [size app negb andb].
      splits; try assumption; try lia.
      + rewrite Htr. replace (rl' + 8 + 0) with (rl' + 8) by lia. reflexivity.
      + constructor; [reflexivity | constructor].
      + eapply no_adj_free_head with (pre := []). exact Hna2.
      + apply no_adj_app_inv with (b1 := [(rl', Free)]) in Hna2 as [_ Hna2].
        assumption.
      + cbn [with_mem heap_start mem] in Hep2.
        change (first_block (with_mem s m1)) with (first_block s) in Hep2.
        change (epilogue (with_mem s m1)) with (epilogue s) in Hep2.
        rewrite !size_app in Hep2. cbn [size] in Hep2.
        replace (first_block s + (size pre' + (size Ll + (len + 8 + 0))))
          with (x + 8 + len) in Hep2 by lia.
        exact Hep2.
      + rewrite with_mem_with_mem in Hinv2.
        cbn [with_mem heap_start mem] in Hinv2.
        change (first_block (with_mem s m1)) with (first_block s) in Hinv2.
        rewrite !size_app in Hinv2. cbn [size] in Hinv2.
        replace (first_block s + (size pre' + (size Ll + (len + 8 + 0))))
          with (x + 8 + len) in Hinv2 by lia.
        rewrite <- !app_assoc in Hinv2. cbn [app] in Hinv2.
        rewrite <- !app_assoc. cbn [app].
        exact Hinv2.
      + intros w Hw. destruct (Z.ltb_spec 8 rl') as [Hrl|_]; [|reflexivity].
        pose proof (unlink_load (with_mem s m1) _ fl1 Hinv1 (x + 8 + len) rl' w)
          as U.
        cbn [with_mem heap_start mem] in U. apply U.
        * apply place_mid. right. left. f_equal. f_equal.
          change (first_block (with_mem s m1)) with (first_block s).
          rewrite !size_app. cbn [size]. lia.
        * assumption.
        * apply (in_payload_safe _ _ fl1); [exact Hinv1|].
          destruct Hw as (y & l0 & P & Hw1 & Hw2). exists y, l0.
          split; [|lia].
          change (first_block (with_mem s m1)) with (first_block s).
          rewrite <- !app_assoc. cbn [app]. exact P.
      + intros y l0 Hin.
        replace (pre' ++ (Ll ++ (len, Limbo) :: [(rl', Limbo)]) ++ r)
          with ((pre' ++ Ll ++ [(len, Limbo)]) ++ (rl', Limbo) :: r)
          by (rewrite <- !app_assoc; reflexivity).
        replace (pre' ++ Ll ++ (len, Limbo) :: (rl', Free) :: r)
          with ((pre' ++ Ll ++ [(len, Limbo)]) ++ (rl', Free) :: r) in Hin
          by (rewrite <- !app_assoc; reflexivity).
        apply alloc_flip with (st := Free); [discriminate | exact Hin]. }
  destruct HR as (post' & Lr & fl2 & Htr & Har & Hrs & Hrb & Hhf & Hnar & Hepi2
                  & Hinv2 & HfrR & HkeepR).
  set (m2 := if negb rc && (8 <? rl)
             then removeFromFreeList (heap_start s) m1 (x + 8 + len) rl
             else m1) in *.
  (* evaluate the code *)
  rewrite (free_block_steps (heap_start s) (mem s) (x + 8) len c l
             ll lc lla rl rc rlf);
    try assumption; try lia.
  2:{ destruct rc; unfold first_block in *; lia. }
  2:{ replace (x + 8 - 8) with x by lia. assumption. }
  2:{ replace (x + 8 + len) with (x + len + 8) by lia. assumption. }
  2:{ replace (x + 8 - 16) with (x - 8) by lia. assumption. }
  unfold free_steps.
  set (Ls := Ll ++ (len, Limbo) :: Lr) in *.
  assert (Ex : x + 8 - 8 - (if l then 0 else ll + 8) = first_block s + size pre')
    by lia.
  assert (Et : (if l then 0 else ll + 8) + len + (if rc then 0 else rl + 8)
               = size Ls - 8).
  { unfold Ls. rewrite size_app. cbn [size]. lia. }
  rewrite Ex, Et.
  fold m1 m2.
  (* merge the limbo blocks, then settle the result *)
  assert (HLs : all_limbo Ls).
  { unfold Ls. apply Forall_app. split; [assumption|].
    constructor; [reflexivity | assumption]. }
  destruct (inv_merge _ pre' Ls post' fl2 (if l then true else lla) Hinv2)
    as (Hinv3 & Hhd & Hft & Hlf & He1 & He2); try assumption.
  { unfold Ls. destruct Ll; discriminate. }
  cbn [with_mem heap_start mem] in Hinv3, Hhd, Hft, Hlf, He1, He2.
  change (first_block (with_mem s m2)) with (first_block s)
    in Hinv3, Hhd, Hft, Hlf, He1, He2.
  change (epilogue (with_mem s m2)) with (epilogue s) in He1, He2.
  rewrite with_mem_with_mem in Hinv3.
  set (X := first_block s + size pre') in *.
  set (T := size Ls - 8) in *.
  set (m5 := setLeftAllocated
               (mem_memcpy (construct_new m2 X T false (if l then true else lla))
                  (X + T) X WORDSIZE) (X + 8 + T) false) in *.
  assert (Hmf : merge_free pre len post = pre' ++ (T, Free) :: post').
  { unfold merge_free. rewrite Htf, Htr. unfold T, Ls. rewrite size_app.
    cbn [size]. do 3 f_equal. lia. }
  rewrite Hmf.
  assert (Hnaf : no_adj (pre' ++ (T, Free) :: post')).
  { apply no_adj_join; try assumption. intros _. split; [assumption|].
    unfold last_alloc. rewrite Hep'. reflexivity. }
  assert (Hm5e : forall le l0, le mod 8 = 0 ->
            load64 (mem s) (epilogue s) = hdr le true l0 ->
            load64 m5 (epilogue s)
            = hdr le true (match post' with [] => false | _ => l0 end)).
  { intros le l0 Hle E. rewrite <- Hepi1, <- Hepi2 in E. fold m1 m2 in E.
    destruct post' as [|b1 r1].
    - eapply He2; eauto.
    - rewrite He1 by discriminate. assumption. }
  assert (Hpe : X + T + 8 <= epilogue s /\ T mod 16 = 8).
  { pose proof (inv_placed _ _ _ Hinv3 X T Limbo) as Hp.
    assert (Hi : In (X, T, Limbo)
                   (place (first_block (with_mem s m5)) (pre' ++ (T, Limbo) :: post')))
      by (apply place_mid; right; left; reflexivity).
    specialize (Hp Hi). split; [exact (proj1 (proj2 Hp))|].
    exact (proj1 (proj2 (proj2 (proj2 Hp)))). }
  assert (Hkeep3 : forall y l0,
            In (y, l0, Alloc)
               (place (first_block s) (pre ++ (len, Limbo) :: post)) ->
            In (y, l0, Alloc)
               (place (first_block s) (pre' ++ (T, Limbo) :: post'))).
  { intros y l0 Hin. apply HkeepL, HkeepR in Hin.
    rewrite !place_app in Hin. apply place_mid.
    apply in_app_or in Hin. destruct Hin as [H|H]; [left; exact H|].
    apply in_app_or in H. destruct H as [H|H].
    - exfalso. exact (all_limbo_not_alloc _ _ _ _ HLs H).
    - right. right.
      replace (first_block s + size pre' + T + 8)
        with (first_block s + size pre' + size Ls) by (unfold T; lia).
      exact H. }
  assert (Hgeo : forall w, in_payload s (pre ++ (len, Limbo) :: post) w ->
            (w + 8 <= X \/ X + T + 16 <= w) /\ 0 <= T /\
            in_payload (with_mem s m5) (pre' ++ (T, Limbo) :: post') w).
  { intros w (y & l0 & P & H1 & H2). pose proof (Hkeep3 _ _ P) as P3.
    assert (Hi : In (X, T, Limbo)
                   (place (first_block (with_mem s m5)) (pre' ++ (T, Limbo) :: post')))
      by (apply place_mid; right; left; reflexivity).
    pose proof (inv_placed _ _ _ Hinv3 X T Limbo Hi) as Hp.
    destruct (place_disjoint _ _ _ _ _ (inv_blocks _ _ _ Hinv3) _ _ _ _ _ _ P3 Hi)
      as [(_ & _ & E)|D]; [discriminate|].
    split; [lia|]. split; [lia|]. exists y, l0. split; [exact P3 | lia]. }
  assert (Hm5f : forall w, in_payload s (pre ++ (len, Limbo) :: post) w ->
            load64 m5 w = load64 (mem s) w).
  { intros w Hw. destruct (Hgeo w Hw) as (Hg & HT0 & _).
    unfold m5. rewrite merge_frame by assumption.
    rewrite HfrR; [apply HfrL; exact Hw|].
    destruct Hw as (y & l0 & P & H1 & H2). exists y, l0.
    split; [apply HkeepL; exact P | lia]. }
  rewrite Htf, Htr. cbn [fst snd].
  replace (size Ll + len + size Lr) with T
    by (unfold T, Ls; rewrite size_app; cbn [size]; lia).
  fold X.
  destruct (Z.ltb_spec 8 T) as [HT|HT].
  - assert (Hinv4 : inv (with_mem s
                           (insertIntoFreeList m5
                              (heap_start s + 8 * calculateClass_new T) X))
                        (pre' ++ (T, Free) :: post')
                        (fl_insert fl2 (calculateClass_new T) X)).
    { pose proof (inv_link _ pre' post' T fl2 Hinv3 HT) as Hinv4.
      cbn [with_mem heap_start mem] in Hinv4.
      change (first_block (with_mem s m5)) with (first_block s) in Hinv4.
      rewrite with_mem_with_mem in Hinv4. fold X in Hinv4.
      apply Hinv4; try assumption.
      * eexists. eassumption.
      * rewrite Hft, Hhd. reflexivity. }
    split; [|split; [|split; [|split]]].
    + eexists. exact Hinv4.
    + intros le l0 Hle E. cbn [with_mem mem].
      pose proof (inv_class _ _ _ Hinv3 X T Limbo) as Hc.
      rewrite (link_load _ _ _ Hinv3).
      * apply Hm5e; assumption.
      * apply Hc. apply place_mid. right. left. reflexivity.
      * apply (safe_beyond _ _ _ Hinv3). change (epilogue (with_mem s m5)) with (epilogue s). lia.
      * lia.
    + intros w Hw. cbn [with_mem mem].
      destruct (Hgeo w Hw) as (Hg & _ & Hp3).
      rewrite (link_load _ _ _ Hinv3).
      * apply Hm5f. exact Hw.
      * apply (inv_class _ _ _ Hinv3 X T Limbo).
        apply place_mid. right. left. reflexivity.
      * apply (in_payload_safe _ _ fl2); [exact Hinv3 | exact Hp3].
      * lia.
    + intros y l0 Hin.
      apply alloc_flip with (st := Limbo); [discriminate|].
      apply Hkeep3. exact Hin.
    + intros _.
      pose proof (inv_class _ _ _ Hinv3 X T Limbo) as Hc.
      destruct (inv_links _ _ _ Hinv4 (calculateClass_new T)) as (Hhead & _).
      { apply Hc. apply place_mid. right. left. reflexivity. }
      cbn [with_mem heap_start mem] in Hhead. cbn [with_mem mem].
      rewrite Hhead.
      unfold fl_insert. rewrite Z.eqb_refl. reflexivity.
  - split; [|split; [|split; [|split]]].
    + eexists.
      pose proof (inv_settle _ pre' post' T fl2 Hinv3 HT) as Hinv4.
      cbn [with_mem heap_start mem] in Hinv4.
      change (first_block (with_mem s m5)) with (first_block s) in Hinv4.
      rewrite with_mem_with_mem in Hinv4. fold X in Hinv4.
      apply Hinv4; try assumption.
      * eexists. eassumption.
      * rewrite Hft, Hhd. reflexivity.
    + intros le l0 Hle E. cbn [with_mem mem]. apply Hm5e; assumption.
    + intros w Hw. cbn [with_mem mem]. apply Hm5f. exact Hw.
    + intros y l0 Hin.
      apply alloc_flip with (st := Limbo); [discriminate|].
      apply Hkeep3. exact Hin.
    + intros Hgt. lia.
Qed.

Lemma free_limbo (s : heap) (pre post : list block) (len : Z)
    (fl : Z -> list Z) :
  inv s (pre ++ (len, Limbo) :: post) fl ->
  no_limbo pre -> no_limbo post ->
  (exists fl',
    inv (free s (first_block s + size pre + 8)) (merge_free pre len post) fl')
  /\
  (forall le l0, le mod 8 = 0 ->
     load64 (mem s) (epilogue s) = hdr le true l0 ->
     load64 (mem (free s (first_block s + size pre + 8))) (epilogue s)
     = hdr le true (match snd (take_free_front post) with
                    | [] => false | _ => l0 end)).
Proof.
  intros Hinv H1 H2.
  destruct (free_limbo_full s pre post len fl Hinv H1 H2) as (A & B & _).
  split; assumption.
Qed.

(** Any block that is not listed can be put in limbo. *)
Lemma inv_to_limbo (s : heap) (pre post : list block) (len : Z)
    (fl : Z -> list Z) :
  inv s (pre ++ (len, Alloc) :: post) fl ->
  inv s (pre ++ (len, Limbo) :: post) fl.
Proof.
  intros Hinv.
  assert (Hsame : forall y l,
            In (y, l, Free) (place (first_block s) (pre ++ (len, Limbo) :: post))
            <-> In (y, l, Free) (place (first_block s) (pre ++ (len, Alloc) :: post))).
  { intros y l. rewrite !place_mid. split.
    - intros [H|[H|H]]; [auto | discriminate | auto].
    - intros [H|[H|H]]; [auto | discriminate | auto]. }
  constructor; try apply Hinv.
  - apply blocks_limbo with (st := Alloc). apply Hinv.
  - apply no_adj_limbo with (st := Alloc). apply Hinv.
  - intros c x Hc Hx.
    destruct (inv_listed _ _ _ Hinv c x Hc Hx) as (l & P & Hl & E).
    exists l. splits; try assumption. apply Hsame. assumption.
  - intros x l Hx Hl. apply Hsame in Hx. apply (inv_complete _ _ _ Hinv _ _ Hx Hl).
Qed.

Lemma no_limbo_merge_free (pre post : list block) (len : Z) :
  no_limbo pre -> no_limbo post -> no_limbo (merge_free pre len post).
Proof.
  intros H1 H2. unfold merge_free.
  destruct (left_case pre H1) as [[_ ->] | (r & ll & -> & ->)];
    destruct (right_case post H2) as [[_ ->] | (rl & r' & -> & ->)];
    apply Forall_app; split;
      try (apply Forall_app in H1 as [H1 _]); try assumption;
      constructor; try assumption; try discriminate;
      inversion H2; assumption.
Qed.

(** [free] on the payload pointer of an allocated block. *)
Lemma free_ok (s : heap) (pre post : list block) (len : Z) :
  heap_ok s (pre ++ (len, Alloc) :: post) ->
  heap_ok (free s (first_block s + size pre + 8)) (merge_free pre len post).
Proof.
  intros [Hnl [fl Hinv]].
  apply Forall_app in Hnl as [Hnl1 Hnl2]. inversion Hnl2 as [|? ? _ Hnl3]; subst.
  split.
  - apply no_limbo_merge_free; assumption.
  - apply inv_to_limbo in Hinv. eapply (proj1 (free_limbo _ _ _ _ _ Hinv Hnl1 Hnl3)).
Qed.

(** ** Splitting and taking a limbo block *)

Lemma inv_split (s : heap) (pre post : list block) (len req : Z)
    (fl : Z -> list Z) (lf : bool) :
  inv s (pre ++ (len, Limbo) :: post) fl ->
  8 <= req -> req mod 16 = 8 -> req < len ->
  left_ok (end_pa (Some true) pre) lf ->
  let x := first_block s + size pre in
  let rem := len - req - 8 in
  let m2 := construct_new (mem s) x req true lf in
  let m3 := construct_new m2 (x + req + 8) rem false true in
  let m4 := construct_new m3 (x + len) rem false true in
  inv (with_mem s m4) (pre ++ (req, Alloc) :: (rem, Limbo) :: post) fl /\
  (forall w, w + 8 <= x \/ x + len + 8 <= w ->
     load64 m4 w = load64 (mem s) w).
Proof.
  intros Hinv Hr1 Hr2 Hr3 Hlf x rem m2 m3 m4.
  pose proof (inv_blocks _ _ _ Hinv) as Hb.
  apply blocks_app in Hb as [Hb1 Hb2]. fold x in Hb1, Hb2. cbn [blocks] in Hb2.
  destruct Hb2 as (Hl1 & Hl2 & _ & _ & Hb3). cbn [next_pa] in Hb3.
  pose proof (inv_bounds _ _ _ Hinv) as [Hbd1 Hbd2].
  pose proof (inv_pos _ _ _ Hinv) as Hhs.
  pose proof (blocks_size _ _ _ _ _ Hb1) as Hs1.
  pose proof (blocks_size_nonneg _ _ _ _ _ Hb1) as Hn1.
  pose proof (blocks_size _ _ _ _ _ Hb3) as Hs3.
  pose proof (blocks_size_nonneg _ _ _ _ _ Hb3) as Hn3.
  assert (Hx0 : first_block s <= x) by (unfold x; lia).
  assert (Hrem : 8 <= rem /\ rem mod 16 = 8 /\ rem mod 8 = 0 /\ req mod 8 = 0
                 /\ x + req + 8 + rem = x + len) by (unfold rem; lia).
  destruct Hrem as (Hm1 & Hm2 & Hm3 & Hm4 & Hm5).
  assert (E2 : m2 = store64 (mem s) x (hdr req true lf))
    by (apply construct_new_hdr; assumption).
  assert (E3 : m3 = store64 m2 (x + req + 8) (hdr rem false true))
    by (apply construct_new_hdr; assumption).
  assert (E4 : m4 = store64 m3 (x + len) (hdr rem false true))
    by (apply construct_new_hdr; assumption).
  assert (Hr : 0 <= hdr req true lf < two64).
  { apply hdr_range; [assumption|]. unfold first_block, two64 in *. lia. }
  assert (Hr' : 0 <= hdr rem false true < two64).
  { apply hdr_range; [assumption|]. unfold first_block, two64 in *. lia. }
  assert (Hfr : forall w, w + 8 <= x \/ x + len + 8 <= w ->
                  load64 m4 w = load64 (mem s) w).
  { intros w Hw. rewrite E4, E3, E2. mem_simpl'. reflexivity. }
  split; [|exact Hfr].
  apply inv_rewrite with (bs := pre ++ (len, Limbo) :: post).
  - assumption.
  - intros w Hw. apply Hfr. lia.
  - intros y l Hy Hl. apply place_mid in Hy. fold x in Hy.
    destruct Hy as [Hy|[Hy|Hy]]; [|discriminate|].
    + pose proof (place_bounds _ _ _ _ _ Hb1 _ _ _ Hy). split; apply Hfr; lia.
    + pose proof (place_bounds _ _ _ _ _ Hb3 _ _ _ Hy). split; apply Hfr; lia.
  - apply blocks_app. split.
    + apply blocks_frame with (m := mem s); [|assumption].
      intros w Hw1 Hw2. apply Hfr. fold x in Hw2. lia.
    + fold x. cbn [blocks next_pa]. splits; try assumption; try discriminate.
      * exists true, lf. splits; try assumption; try reflexivity.
        rewrite E4, E3, E2. mem_simpl'. reflexivity.
      * exists false, true. splits; try reflexivity.
        rewrite E4, E3. mem_simpl'. reflexivity.
      * replace (x + req + 8 + rem + 8) with (x + len + 8) by lia.
        apply blocks_frame with (m := mem s); [|assumption].
        intros w Hw1 Hw2. apply Hfr. lia.
  - destruct (inv_epi _ _ _ Hinv) as (le & l & A1 & A2 & A3).
    exists le, l. splits; try assumption; try lia. rewrite Hfr; [assumption | lia].
  - pose proof (inv_noadj _ _ _ Hinv) as Hna.
    apply no_adj_app_inv in Hna as [Hna1 Hna2]. cbn [no_adj] in Hna2.
    apply no_adj_join; [assumption | | discriminate].
    cbn [no_adj]. tauto.
  - intros y l Hyl.
    replace (pre ++ (req, Alloc) :: (rem, Limbo) :: post)
      with ((pre ++ [(req, Alloc)]) ++ (rem, Limbo) :: post)
      by (rewrite <- app_assoc; reflexivity).
    rewrite !place_mid. rewrite size_app. cbn [place size In].
    replace (first_block s + (size pre + (req + 8 + 0)) + rem + 8)
      with (first_block s + size pre + len + 8) by (unfold rem; lia).
    split.
    + intros [[H|[H|[]]]|[H|H]]; [auto | discriminate | discriminate | auto].
    + intros [H|[H|H]]; [auto | discriminate | auto].
Qed.

Lemma inv_take (s : heap) (pre post : list block) (len : Z)
    (fl : Z -> list Z) (lf : bool) :
  inv s (pre ++ (len, Limbo) :: post) fl ->
  head_not_free post ->
  left_ok (end_pa (Some true) pre) lf ->
  let x := first_block s + size pre in
  let m2 := construct_new (mem s) x len true lf in
  let m3 := setLeftAllocated m2 (x + len + 8) true in
  inv (with_mem s m3) (pre ++ (len, Alloc) :: post) fl /\
  (forall w, w + 8 <= x \/ x + 8 <= w /\ w + 8 <= x + len + 8 \/
             x + len + 16 <= w ->
     load64 m3 w = load64 (mem s) w) /\
  (forall le l, post = [] -> le mod 8 = 0 ->
     load64 (mem s) (epilogue s) = hdr le true l ->
     load64 m3 (epilogue s) = hdr le true true) /\
  (post <> [] -> load64 m3 (epilogue s) = load64 (mem s) (epilogue s)).
Proof.
  intros Hinv Hhf Hlf x m2 m3.
  pose proof (inv_blocks _ _ _ Hinv) as Hb.
  apply blocks_app in Hb as [Hb1 Hb2]. fold x in Hb1, Hb2. cbn [blocks] in Hb2.
  destruct Hb2 as (Hl1 & Hl2 & _ & _ & Hb3). cbn [next_pa] in Hb3.
  pose proof (inv_bounds _ _ _ Hinv) as [Hbd1 Hbd2].
  pose proof (inv_pos _ _ _ Hinv) as Hhs.
  pose proof (blocks_size _ _ _ _ _ Hb1) as Hs1.
  pose proof (blocks_size_nonneg _ _ _ _ _ Hb1) as Hn1.
  pose proof (blocks_size _ _ _ _ _ Hb3) as Hs3.
  pose proof (blocks_size_nonneg _ _ _ _ _ Hb3) as Hn3.
  assert (Hx0 : first_block s <= x) by (unfold x; lia).
  assert (Hlen : len mod 8 = 0) by lia.
  destruct (right_word _ _ _ _ _ Hb3 (inv_epi _ _ _ Hinv))
    as (rl & rc & rlf & R1 & R2 & R3 & R4);
    [lia | unfold first_block in *; lia |].
  assert (E2 : m2 = store64 (mem s) x (hdr len true lf))
    by (apply construct_new_hdr; assumption).
  assert (Hr : 0 <= hdr len true lf < two64).
  { apply hdr_range; [assumption|]. unfold first_block, two64 in *. lia. }
  assert (E3 : m3 = store64 m2 (x + len + 8) (hdr rl rc true)).
  { apply setLeftAllocated_hdr with (l := rlf); [assumption|].
    rewrite E2. mem_simpl'. assumption. }
  assert (Hr' : 0 <= hdr rl rc true < two64) by (apply hdr_range; assumption).
  assert (Hfr : forall w, w + 8 <= x \/ x + 8 <= w /\ w + 8 <= x + len + 8 \/
                          x + len + 16 <= w ->
                  load64 m3 w = load64 (mem s) w).
  { intros w Hw. rewrite E3, E2. mem_simpl'. reflexivity. }
  assert (Hnx : load64 m3 (x + len + 8) = hdr rl rc true).
  { rewrite E3. mem_simpl'. reflexivity. }
  split; [|split; [exact Hfr | split]].
  - apply inv_rewrite with (bs := pre ++ (len, Limbo) :: post).
    + assumption.
    + intros w Hw. apply Hfr. lia.
    + intros y l Hy Hl. apply place_mid in Hy. fold x in Hy.
      destruct Hy as [Hy|[Hy|Hy]]; [|discriminate|].
      * pose proof (place_bounds _ _ _ _ _ Hb1 _ _ _ Hy). split; apply Hfr; lia.
      * pose proof (place_bounds _ _ _ _ _ Hb3 _ _ _ Hy) as Hyb.
        assert (y <> x + len + 8).
        { intros ->. destruct post as [|[l1 s1] r1]; [contradiction|].
          cbn [place In] in Hy. cbn [blocks] in Hb3.
          destruct Hb3 as (? & ? & _ & _ & Hb3).
          destruct Hy as [E|Hy]; [inversion E; subst; contradiction|].
          pose proof (place_bounds _ _ _ _ _ Hb3 _ _ _ Hy). lia. }
        split; apply Hfr; lia.
    + apply blocks_app. split.
      * apply blocks_frame with (m := mem s); [|assumption].
        intros w Hw1 Hw2. apply Hfr. fold x in Hw2. lia.
      * fold x. cbn [blocks next_pa]. splits; try assumption; try discriminate.
        -- exists true, lf. splits; try assumption; try reflexivity.
           rewrite E3, E2. mem_simpl'. reflexivity.
        -- destruct post as [|[l1 s1] r1]; [assumption|].
           cbn [blocks] in *. destruct R4 as (-> & Rc & _).
           destruct Hb3 as (A1 & A2 & _ & A6 & A7).
           splits; try assumption.
           ++ exists rc, true. splits; try assumption; reflexivity.
           ++ intros ->. contradiction.
           ++ apply blocks_frame with (m := mem s); [|assumption].
              intros w Hw1 Hw2. apply Hfr. lia.
    + destruct (inv_epi _ _ _ Hinv) as (le & l & E1 & E2' & E3').
      destruct post as [|[l1 s1] r1].
      * simpl in Hb3. destruct R4 as [_ ->].
        exists rl, true. splits; try assumption; try lia.
        rewrite <- Hb3. assumption.
      * exists le, l. splits; try assumption; try lia.
        rewrite Hfr; [assumption|]. cbn [blocks] in Hb3.
        destruct Hb3 as (A1 & A2 & _ & A6 & A7).
        pose proof (blocks_size _ _ _ _ _ A7).
        pose proof (blocks_size_nonneg _ _ _ _ _ A7). lia.
    + pose proof (inv_noadj _ _ _ Hinv) as Hna.
      apply no_adj_app_inv in Hna as [Hna1 Hna2]. cbn [no_adj] in Hna2.
      apply no_adj_join; [assumption | tauto | discriminate].
    + intros y l Hyl. rewrite !place_mid. split.
      * intros [H|[H|H]]; [auto | discriminate | auto].
      * intros [H|[H|H]]; [auto | discriminate | auto].
  - intros le l -> Hle E. simpl in Hb3. destruct R4 as [_ ->].
    rewrite <- Hb3 in E. rewrite R3 in E.
    apply hdr_inj in E as (-> & _ & _); try assumption.
    rewrite <- Hb3. assumption.
  - intros Hpne. apply Hfr. destruct post as [|[l1 s1] r1]; [contradiction|].
    cbn [blocks] in Hb3. destruct Hb3 as (A1 & A2 & _ & A6 & A7).
    pose proof (blocks_size _ _ _ _ _ A7).
    pose proof (blocks_size_nonneg _ _ _ _ _ A7). lia.
Qed.

(** ** The epilogue's left flag *)

Lemma end_pa_nonempty (post : list block) (pa pa' : option bool) :
  post <> [] -> end_pa pa post = end_pa pa' post.
Proof. destruct post as [|[l st] r]; [contradiction | reflexivity]. Qed.

Lemma last_alloc_mid (pre post : list block) (len : Z) (st : status) :
  last_alloc (pre ++ (len, st) :: post)
  = match post with
    | [] => match st with Free => false | _ => true end
    | _ => last_alloc post
    end.
Proof.
  unfold last_alloc. rewrite end_pa_app. cbn [end_pa].
  destruct post as [|b r].
  - destruct st; reflexivity.
  - rewrite (end_pa_nonempty (b :: r) (next_pa st) (Some true)) by discriminate.
    reflexivity.
Qed.

Lemma last_alloc_merge_free (pre post : list block) (len : Z) (st : status) :
  no_limbo pre -> no_limbo post ->
  last_alloc (merge_free pre len post)
  = match snd (take_free_front post) with
    | [] => false
    | _ => last_alloc (pre ++ (len, st) :: post)
    end.
Proof.
  intros H1 H2. unfold merge_free.
  destruct (take_free_end pre) as [pre' ls].
  destruct (right_case post H2) as [[_ E] | (rl & r & -> & E)]; rewrite E; cbn [snd].
  - rewrite !last_alloc_mid. destruct post; reflexivity.
  - rewrite !last_alloc_mid. destruct r; reflexivity.
Qed.

(** The epilogue word: allocated, with length [le] and a left flag that
    tells the state of the last block ([epi_strict] is the case [le = 0]). *)
Definition epi_word (s : heap) (le : Z) (bs : list block) : Prop :=
  load64 (mem s) (epilogue s) = hdr le true (last_alloc bs).

Lemma free_epi (s : heap) (pre post : list block) (len le : Z)
    (fl : Z -> list Z) (st : status) :
  inv s (pre ++ (len, Limbo) :: post) fl ->
  no_limbo pre -> no_limbo post -> le mod 8 = 0 ->
  (exists l0, load64 (mem s) (epilogue s) = hdr le true l0 /\
              (post <> [] -> l0 = last_alloc post)) ->
  epi_word (free s (first_block s + size pre + 8)) le (merge_free pre len post).
Proof.
  intros Hinv H1 H2 Hle (l0 & E & Hl0).
  destruct (free_limbo _ _ _ _ _ Hinv H1 H2) as [_ He].
  specialize (He le l0 Hle E). unfold epi_word.
  assert (Hep : epilogue (free s (first_block s + size pre + 8)) = epilogue s).
  { unfold free. destruct (_ =? NULL); reflexivity. }
  rewrite Hep, He. f_equal.
  rewrite (last_alloc_merge_free pre post len Limbo) by assumption.
  destruct (snd (take_free_front post)) as [|b r] eqn:Et; [reflexivity|].
  rewrite last_alloc_mid.
  destruct post as [|b0 r0]; [discriminate Et|]. apply Hl0. discriminate.
Qed.

(** ** Allocation from a free block *)

Lemma merge_free_after_alloc (pre post : list block) (req rem : Z) :
  head_not_free post ->
  merge_free (pre ++ [(req, Alloc)]) rem post
  = pre ++ (req, Alloc) :: (rem, Free) :: post.
Proof.
  intros Hhf. unfold merge_free, take_free_end.
  rewrite rev_app_distr. cbn [rev app].
  assert (take_free_front post = (0, post)) as ->.
  { destruct post as [|[l1 s1] r1]; [reflexivity|].
    destruct s1; try reflexivity. contradiction. }
  rewrite <- app_assoc. cbn [app].
  replace (0 + rem + 0) with rem by lia. reflexivity.
Qed.

Definition served (pre : list block) (length req : Z) (post : list block)
    : list block :=
  if req <? length
  then pre ++ (req, Alloc) :: (length - req - 8, Free) :: post
  else pre ++ (length, Alloc) :: post.

Lemma allocateWithinHeap_ok (s : heap) (pre post : list block)
    (length req cls : Z) (fl : Z -> list Z) :
  inv s (pre ++ (length, Free) :: post) fl ->
  no_limbo pre -> no_limbo post ->
  8 < length -> 8 <= req -> req mod 16 = 8 -> req <= length ->
  let x := first_block s + size pre in
  fst (allocateWithinHeap s x req length cls) = x + 8 /\
  (exists fl', inv (snd (allocateWithinHeap s x req length cls))
                 (served pre length req post) fl') /\
  (forall le, le mod 8 = 0 ->
     epi_word s le (pre ++ (length, Free) :: post) ->
     epi_word (snd (allocateWithinHeap s x req length cls)) le
       (served pre length req post)) /\
  mem_brk (snd (allocateWithinHeap s x req length cls)) = mem_brk s.
Proof.
  intros Hinv Hnl1 Hnl2 Hlen Hr1 Hr2 Hr3 x.
  pose proof (inv_blocks _ _ _ Hinv) as Hb.
  apply blocks_app in Hb as [Hb1 Hb2]. fold x in Hb1, Hb2. cbn [blocks] in Hb2.
  destruct Hb2 as (Hl1 & Hl2 & (c & lf & Hh & Hc & Hlo) & _ & Hb3).
  cbn [cur_ok] in Hc. subst c.
  pose proof (inv_bounds _ _ _ Hinv) as [Hbd1 Hbd2].
  pose proof (inv_pos _ _ _ Hinv) as Hhs.
  pose proof (blocks_size _ _ _ _ _ Hb1) as Hs1.
  pose proof (blocks_size_nonneg _ _ _ _ _ Hb1) as Hn1.
  pose proof (blocks_size _ _ _ _ _ Hb3) as Hs3.
  pose proof (blocks_size_nonneg _ _ _ _ _ Hb3) as Hn3.
  assert (Hhf : head_not_free post).
  { pose proof (inv_noadj _ _ _ Hinv) as Hna.
    eapply no_adj_free_head; eassumption. }
  pose proof (inv_unlink _ _ _ _ _ Hinv Hlen) as Hinv1. fold x in Hinv1.
  assert (Hep1 : load64 (removeFromFreeList (heap_start s) (mem s) x length)
                   (epilogue s) = load64 (mem s) (epilogue s)).
  { apply (unlink_load _ _ _ Hinv); try assumption.
    - apply place_mid. right. left. reflexivity.
    - apply (safe_beyond _ _ _ Hinv). lia. }
  unfold allocateWithinHeap, served. norm_ws.
  rewrite (getLeftAllocated_hdr (mem s) x length false lf) by (assumption || lia).
  set (m1 := removeFromFreeList (heap_start s) (mem s) x length) in *.
  destruct (Z.ltb_spec req length) as [Hlt|Hge]; cbn [fst snd].
  - split; [reflexivity|].
    rewrite (u64_small (req + 8)) by (unfold first_block, two64 in *; lia).
    rewrite (u64_small (length - req - 8)) by (unfold first_block, two64 in *; lia).
    rewrite (u64_small (req + 16)) by (unfold first_block, two64 in *; lia).
    destruct (inv_split _ _ _ _ req _ lf Hinv1) as [Hinv2 Hfr2]; try assumption.
    cbn [with_mem heap_start mem] in Hinv2, Hfr2.
    change (first_block (with_mem s m1)) with (first_block s) in Hinv2, Hfr2.
    fold x in Hinv2, Hfr2. rewrite with_mem_with_mem in Hinv2.
    replace (x + (req + 8)) with (x + req + 8) by lia.
    set (m4 := construct_new _ (x + length) _ false true) in *.
    replace (pre ++ (req, Alloc) :: (length - req - 8, Limbo) :: post)
      with ((pre ++ [(req, Alloc)]) ++ (length - req - 8, Limbo) :: post) in Hinv2
      by (rewrite <- app_assoc; reflexivity).
    assert (Hnl1' : no_limbo (pre ++ [(req, Alloc)])).
    { apply Forall_app. split; [assumption|]. constructor; [discriminate|constructor]. }
    assert (Hptr : first_block (with_mem s m4) + size (pre ++ [(req, Alloc)]) + 8
                   = x + (req + 16)).
    { change (first_block (with_mem s m4)) with (first_block s).
      rewrite size_app. cbn [size]. unfold x. lia. }
    split; [|split].
    + destruct (free_limbo _ _ _ _ _ Hinv2) as [[fl' Hinv3] _]; try assumption.
      rewrite merge_free_after_alloc in Hinv3 by assumption.
      rewrite Hptr in Hinv3. exists fl'. exact Hinv3.
    + intros le Hle Hew.
      rewrite <- Hptr. rewrite <- (merge_free_after_alloc pre post req) by assumption.
      eapply free_epi; try eassumption; try exact Limbo.
      exists (last_alloc (pre ++ (length, Free) :: post)). split.
      * cbn [with_mem mem]. change (epilogue (with_mem s m4)) with (epilogue s).
        rewrite Hfr2 by lia. rewrite Hep1. exact Hew.
      * intros Hne. rewrite last_alloc_mid. destruct post; [contradiction|reflexivity].
    + unfold free. destruct (_ =? NULL); reflexivity.
  - split; [reflexivity|].
    assert (req = length) as -> by lia.
    rewrite (u64_small (length + 8)) by (unfold first_block, two64 in *; lia).
    destruct (inv_take _ _ _ _ _ lf Hinv1) as (Hinv2 & _ & He1 & He2); try assumption.
    cbn [with_mem heap_start mem] in Hinv2, He1, He2.
    change (first_block (with_mem s m1)) with (first_block s) in Hinv2, He1, He2.
    change (epilogue (with_mem s m1)) with (epilogue s) in He1, He2.
    fold x in Hinv2, He1, He2. rewrite with_mem_with_mem in Hinv2.
    replace (x + (length + 8)) with (x + length + 8) by lia.
    split; [|split; [|reflexivity]].
    + eexists. exact Hinv2.
    + intros le Hle Hew. unfold epi_word in *. cbn [with_mem mem].
      change (epilogue (with_mem s _)) with (epilogue s).
      rewrite last_alloc_mid in *.
      destruct post as [|b r].
      * eapply He1; [reflexivity | assumption |]. rewrite Hep1. exact Hew.
      * rewrite He2 by discriminate. rewrite Hep1. exact Hew.
Qed.

(** Serving a request from a free block leaves the payload of every
    allocated block as it was. *)
Lemma allocateWithinHeap_frame (s : heap) (pre post : list block)
    (length req cls : Z) (fl : Z -> list Z) :
  inv s (pre ++ (length, Free) :: post) fl ->
  no_limbo pre -> no_limbo post ->
  8 < length -> 8 <= req -> req mod 16 = 8 -> req <= length ->
  let x := first_block s + size pre in
  forall w, in_payload s (pre ++ (length, Free) :: post) w ->
    load64 (mem (snd (allocateWithinHeap s x req length cls))) w
    = load64 (mem s) w.
Proof.
  intros Hinv Hnl1 Hnl2 Hlen Hr1 Hr2 Hr3 x w Hw.
  pose proof (inv_blocks _ _ _ Hinv) as Hb.
  apply blocks_app in Hb as [Hb1 Hb2]. fold x in Hb1, Hb2. cbn [blocks] in Hb2.
  destruct Hb2 as (Hl1 & Hl2 & (c & lf & Hh & Hc & Hlo) & _ & Hb3).
  cbn [cur_ok] in Hc. subst c.
  pose proof (inv_bounds _ _ _ Hinv) as [Hbd1 Hbd2].
  pose proof (inv_pos _ _ _ Hinv) as Hhs.
  pose proof (blocks_size _ _ _ _ _ Hb1) as Hs1.
  pose proof (blocks_size_nonneg _ _ _ _ _ Hb1) as Hn1.
  pose proof (blocks_size _ _ _ _ _ Hb3) as Hs3.
  pose proof (blocks_size_nonneg _ _ _ _ _ Hb3) as Hn3.
  assert (Hhf : head_not_free post).
  { pose proof (inv_noadj _ _ _ Hinv) as Hna.
    eapply no_adj_free_head; eassumption. }
  pose proof (inv_unlink _ _ _ _ _ Hinv Hlen) as Hinv1. fold x in Hinv1.
  assert (Hx : In (x, length, Free)
                 (place (first_block s) (pre ++ (length, Free) :: post)))
    by (apply place_mid; right; left; reflexivity).
  assert (Hm1 : load64 (removeFromFreeList (heap_start s) (mem s) x length) w
                = load64 (mem s) w).
  { apply (unlink_load _ _ _ Hinv); try assumption.
    apply (in_payload_safe s _ fl); assumption. }
  destruct Hw as (y & l & P & Hw1 & Hw2).
  assert (Hgeo : w + 8 <= x \/ x + length + 16 <= w).
  { destruct (place_disjoint _ _ _ _ _ (inv_blocks _ _ _ Hinv) _ _ _ _ _ _ P Hx)
      as [(_ & _ & E)|D]; [discriminate | lia]. }
  assert (Hside : In (y, l, Alloc) (place (first_block s) pre) \/
                  In (y, l, Alloc) (place (x + length + 8) post)).
  { apply place_mid in P. destruct P as [H|[H|H]]; [auto | discriminate | auto]. }
  unfold allocateWithinHeap. norm_ws.
  rewrite (getLeftAllocated_hdr (mem s) x length false lf) by (assumption || lia).
  set (m1 := removeFromFreeList (heap_start s) (mem s) x length) in *.
  destruct (Z.ltb_spec req length) as [Hlt|Hge]; cbn [fst snd].
  - rewrite (u64_small (req + 8)) by (unfold first_block, two64 in *; lia).
    rewrite (u64_small (length - req - 8)) by (unfold first_block, two64 in *; lia).
    rewrite (u64_small (req + 16)) by (unfold first_block, two64 in *; lia).
    destruct (inv_split _ _ _ _ req _ lf Hinv1) as [Hinv2 Hfr2]; try assumption.
    cbn [with_mem heap_start mem] in Hinv2, Hfr2.
    change (first_block (with_mem s m1)) with (first_block s) in Hinv2, Hfr2.
    fold x in Hinv2, Hfr2. rewrite with_mem_with_mem in Hinv2.
    replace (x + (req + 8)) with (x + req + 8) by lia.
    set (m4 := construct_new _ (x + length) _ false true) in *.
    replace (pre ++ (req, Alloc) :: (length - req - 8, Limbo) :: post)
      with ((pre ++ [(req, Alloc)]) ++ (length - req - 8, Limbo) :: post) in Hinv2
      by (rewrite <- app_assoc; reflexivity).
    assert (Hnl1' : no_limbo (pre ++ [(req, Alloc)])).
    { apply Forall_app. split; [assumption|]. constructor; [discriminate|constructor]. }
    assert (Hptr : first_block (with_mem s m4) + size (pre ++ [(req, Alloc)]) + 8
                   = x + (req + 16)).
    { change (first_block (with_mem s m4)) with (first_block s).
      rewrite size_app. cbn [size]. unfold x. lia. }
    destruct (free_limbo_full _ _ _ _ _ Hinv2 Hnl1' Hnl2)
      as (_ & _ & Hfr3 & _).
    rewrite Hptr in Hfr3. rewrite Hfr3.
    + cbn [with_mem mem]. rewrite Hfr2 by lia. exact Hm1.
    + exists y, l. split; [|lia].
      change (first_block (with_mem s m4)) with (first_block s).
      apply place_mid. rewrite place_app, size_app. cbn [place size].
      destruct Hside as [H|H].
      * left. apply in_or_app. left. exact H.
      * right. right.
        replace (first_block s + (size pre + (req + 8 + 0))
                 + (length - req - 8) + 8) with (x + length + 8)
          by (unfold x; lia).
        exact H.
  - assert (req = length) as -> by lia.
    rewrite (u64_small (length + 8)) by (unfold first_block, two64 in *; lia).
    destruct (inv_take _ _ _ _ _ lf Hinv1) as (_ & Hfr2 & _ & _); try assumption.
    cbn [with_mem heap_start mem] in Hfr2.
    change (first_block (with_mem s m1)) with (first_block s) in Hfr2.
    fold x in Hfr2.
    replace (x + (length + 8)) with (x + length + 8) by lia.
    cbn [with_mem mem]. rewrite Hfr2 by lia. exact Hm1.
Qed.

(** ** Growing the arena *)

Lemma inv_log (s : heap) (bs : list block) (fl : Z -> list Z) (lg : list Z) :
  inv s bs fl ->
  inv (mkHeap (mem s) (mem_start_brk s) (mem_brk s) (mem_max_addr s) lg
              (initialized s) (heap_start s)) bs fl.
Proof. intros Hinv. constructor; try apply Hinv. Qed.

Lemma no_limbo_last_alloc (bs : list block) :
  no_limbo bs -> end_pa (Some true) bs = Some (last_alloc bs).
Proof. intros H. unfold last_alloc. apply no_limbo_end_pa. assumption. Qed.

Lemma inv_brk_mod (s : heap) (bs : list block) (fl : Z -> list Z) :
  inv s bs fl -> mem_brk s mod 16 = 0 /\ heap_start s + 208 <= mem_brk s.
Proof.
  intros Hinv. pose proof (inv_blocks _ _ _ Hinv) as Hb.
  pose proof (blocks_size _ _ _ _ _ Hb). pose proof (blocks_size_mod _ _ _ _ _ Hb).
  pose proof (blocks_size_nonneg _ _ _ _ _ Hb).
  pose proof (inv_al _ _ _ Hinv). unfold epilogue, first_block in *. lia.
Qed.

Lemma allocateExtra_ok (s : heap) (bs : list block) (fl : Z -> list Z)
    (req : Z) :
  inv s bs fl -> epi_strict s bs -> no_limbo bs ->
  8 <= req -> req mod 16 = 8 -> req + 8 < two64 ->
  mem_brk s + (req + 8) <= mem_max_addr s ->
  fst (allocateExtra s req) = epilogue s + 8 /\
  inv (snd (allocateExtra s req)) (bs ++ [(req, Alloc)]) fl /\
  epi_strict (snd (allocateExtra s req)) (bs ++ [(req, Alloc)]) /\
  mem_brk (snd (allocateExtra s req)) = mem_brk s + req + 8 /\
  (forall w, w + 8 <= epilogue s ->
     load64 (mem (snd (allocateExtra s req))) w = load64 (mem s) w).
Proof.
  intros Hinv Hes Hnl Hr1 Hr2 Hr3 Hcap.
  pose proof (inv_brk_mod _ _ _ Hinv) as [Hbm Hbl].
  pose proof (inv_pos _ _ _ Hinv) as Hhs.
  pose proof (inv_brk _ _ _ Hinv) as [Hbk1 Hbk2].
  pose proof (inv_blocks _ _ _ Hinv) as Hb.
  unfold allocateExtra, mem_sbrk, mem_heap_hi. norm_ws.
  rewrite (u64_small (req + 8)) by lia.
  destruct (Z.leb_spec (mem_brk s + (req + 8)) (mem_max_addr s)) as [_|]; [|lia].
  destruct (Z.eqb_spec (mem_brk s) sbrk_failed) as [E|_];
    [unfold sbrk_failed, two64 in E; lia|].
  unfold with_mem.
  cbn [mem mem_start_brk mem_brk mem_max_addr sbrk_log initialized
       heap_start fst snd].
  replace (mem_brk s - 1 - 7) with (epilogue s) by (unfold epilogue; lia).
  set (e := epilogue s) in *.
  set (m1 := mem_memcpy (mem s) (e + (req + 8)) e 8).
  unfold epi_strict in Hes. fold e in Hes.
  assert (Hl1 : load64 m1 e = hdr 0 true (last_alloc bs)).
  { unfold m1. mem_simpl'. assumption. }
  rewrite (getLeftAllocated_hdr m1 e 0 true (last_alloc bs)) by (assumption || lia).
  assert (Hreq : req mod 8 = 0) by lia.
  rewrite (construct_new_hdr m1 e req) by assumption.
  set (m2 := store64 m1 e (hdr req true (last_alloc bs))).
  assert (Hrg : 0 <= hdr req true (last_alloc bs) < two64)
    by (apply hdr_range; [assumption | unfold two64 in *; lia]).
  assert (Hl2 : load64 m2 (e + (req + 8)) = hdr 0 true (last_alloc bs)).
  { unfold m2, m1. mem_simpl'. assumption. }
  rewrite (setLeftAllocated_hdr m2 (e + (req + 8)) 0 true (last_alloc bs) true)
    by (assumption || lia).
  set (m3 := store64 m2 (e + (req + 8)) (hdr 0 true true)).
  assert (Hrg' : 0 <= hdr 0 true true < two64) by (unfold hdr, two64; lia).
  assert (Hfr : forall w, w + 8 <= e -> load64 m3 w = load64 (mem s) w).
  { intros w Hw. unfold m3, m2, m1. mem_simpl'. reflexivity. }
  assert (He : e = first_block s + size bs) by (eapply blocks_size; eassumption).
  pose proof (blocks_size_nonneg _ _ _ _ _ Hb) as Hn.
  split; [reflexivity|]. split; [|split; [|split; [lia | exact Hfr]]].
  - constructor; cbn [mem mem_start_brk mem_brk mem_max_addr sbrk_log
                      initialized heap_start]; try apply Hinv.
    + lia.
    + unfold first_block, epilogue at 1.
      cbn [mem mem_start_brk mem_brk mem_max_addr heap_start].
      fold (first_block s).
      replace (mem_brk s + (req + 8) - 8) with (e + req + 8) by (unfold e, epilogue; lia).
      apply blocks_app. split.
      * rewrite <- He. apply blocks_frame with (m := mem s); [|assumption].
        intros w _ Hw. apply Hfr. assumption.
      * rewrite <- He. cbn [blocks]. splits; try assumption; try discriminate; try lia.
        exists true, (last_alloc bs). splits; try reflexivity.
        -- unfold m3, m2. mem_simpl'. reflexivity.
        -- rewrite no_limbo_last_alloc by assumption. reflexivity.
    + unfold epilogue at 1. cbn [mem_brk].
      exists 0, true. splits; try lia.
      replace (mem_brk s + (req + 8) - 8) with (e + (req + 8)) by (unfold e, epilogue; lia).
      unfold m3. mem_simpl'. reflexivity.
    + apply no_adj_join; [apply Hinv | exact I | discriminate].
    + intros c Hc. destruct (inv_links _ _ _ Hinv c Hc) as (Hh & Hl & Hnd).
      split; [|split; [|assumption]].
      * rewrite Hfr; [assumption | unfold first_block in *; lia].
      * apply links_frame with (m := mem s); [|assumption].
        intros y Hy. destruct (inv_node _ _ _ Hinv c y Hc Hy) as (_ & l & P & Hl' & _).
        pose proof (inv_placed _ _ _ Hinv _ _ _ P). fold e in H.
        split; apply Hfr; lia.
    + intros c x Hc Hx. unfold first_block. cbn [heap_start]. fold (first_block s).
      destruct (inv_listed _ _ _ Hinv c x Hc Hx) as (l & P & Hl' & E).
      exists l. splits; try assumption. rewrite place_app. apply in_or_app. auto.
    + intros x l. unfold first_block. cbn [heap_start]. fold (first_block s).
      rewrite place_app. intros Hx Hl. apply in_app_or in Hx as [Hx|Hx].
      * apply (inv_complete _ _ _ Hinv _ _ Hx Hl).
      * cbn [place In] in Hx. destruct Hx as [Hx|[]]. discriminate.
  - unfold epi_strict, epilogue. cbn [mem mem_brk].
    replace (mem_brk s + (req + 8) - 8) with (e + (req + 8)) by (unfold e, epilogue; lia).
    unfold last_alloc. rewrite end_pa_last. cbn [next_pa].
    unfold m3. mem_simpl'. reflexivity.
Qed.

(** ** The class search of [malloc] *)

Lemma scan_empty (fuel : nat) (m : memory) (cls req bl ba : Z) :
  scan (S fuel) m cls req 0 bl ba = Some (EndOfList bl ba).
Proof. reflexivity. Qed.

Lemma scan_exact_class (fuel : nat) (m : memory) (cls req x bl ba : Z) :
  cls < 16 -> x <> 0 ->
  scan (S fuel) m cls req x bl ba = Some (Take x (getLength m x)).
Proof.
  intros Hc Hx. cbn [scan].
  destruct (Z.eqb_spec x 0) as [|_]; [contradiction|].
  destruct (Z.ltb_spec cls 16) as [_|]; [reflexivity | lia].
Qed.

(** What the walk over a range class leaves in its accumulator: the
    earlier best fit [bl]/[ba] when nothing in [L] beats it, otherwise the
    first smallest fitting block of [L]. *)
Definition best_acc (m : memory) (req : Z) (L : list Z)
    (bl ba bl' ba' : Z) : Prop :=
  (bl' = bl /\ ba' = ba /\
   forall y, In y L -> req < getLength m y -> bl <> 0 /\ bl <= getLength m y)
  \/
  (In ba' L /\ bl' = getLength m ba' /\ req < bl' /\ (bl = 0 \/ bl' < bl) /\
   forall y, In y L -> req < getLength m y -> bl' <= getLength m y).

Lemma scan_range (m : memory) (cls req : Z) :
  16 <= cls -> 0 <= req ->
  forall L prev fuel bl ba,
    links m prev L 0 -> (forall x, In x L -> x <> 0) ->
    (length L < fuel)%nat ->
    (exists L1 x L2, L = L1 ++ x :: L2 /\ getLength m x = req /\
       (forall y, In y L1 -> getLength m y <> req) /\
       scan fuel m cls req (hd 0 L) bl ba = Some (Take x req))
    \/
    ((forall y, In y L -> getLength m y <> req) /\
     exists bl' ba',
       scan fuel m cls req (hd 0 L) bl ba = Some (EndOfList bl' ba') /\
       best_acc m req L bl ba bl' ba').
Proof.
  intros Hc Hreq. induction L as [|x r IH]; intros prev fuel bl ba Hl Hnz Hf.
  - right. split; [intros y []|]. exists bl, ba.
    destruct fuel as [|f]; [simpl in Hf; lia|]. split; [reflexivity|].
    left. splits; try reflexivity. intros y [].
  - destruct fuel as [|f]; [simpl in Hf; lia|].
    cbn [links] in Hl. destruct Hl as (_ & Hn & Hl).
    assert (Hx : x <> 0) by (apply Hnz; left; reflexivity).
    cbn [hd scan]. norm_ws.
    destruct (Z.eqb_spec x 0) as [|_]; [contradiction|].
    destruct (Z.ltb_spec cls 16) as [|_]; [lia|].
    destruct (Z.eqb_spec req (getLength m x)) as [E|E].
    + left. exists [], x, r. splits; try reflexivity; try congruence.
      intros y [].
    + rewrite Hn.
      set (acc := if req <? getLength m x
                  then if bl =? 0 then (getLength m x, x)
                       else if getLength m x <? bl then (getLength m x, x)
                       else (bl, ba)
                  else (bl, ba)).
      destruct acc as [bl1 ba1] eqn:Eacc.
      assert (Hf' : (length r < f)%nat) by (simpl in Hf; lia).
      assert (Hnz' : forall y, In y r -> y <> 0) by (intros y Hy; apply Hnz; right; assumption).
      destruct (IH x f bl1 ba1 Hl Hnz' Hf')
        as [(L1 & y & L2 & E1 & E2 & E3 & E4) | (Hnone & bl' & ba' & E1 & E2)].
      * left. exists (x :: L1), y, L2. subst r. splits; try assumption; try reflexivity.
        intros z [<-|Hz]; [congruence | auto].
      * right. split; [intros z [<-|Hz]; [congruence | auto]|].
        exists bl', ba'. split; [assumption|].
        (* combine the step at x with the rest *)
        unfold acc in Eacc. unfold best_acc in *.
        destruct (Z.ltb_spec req (getLength m x)) as [Hfit|Hnfit].
        -- destruct (Z.eqb_spec bl 0) as [Hb0|Hb0].
           ++ inversion Eacc; subst bl1 ba1. right.
              destruct E2 as [(-> & -> & H3) | (H1 & H2 & H3 & H4 & H5)].
              ** splits; try lia; try (left; reflexivity); try reflexivity.
                 intros z [<-|Hz] Hz'; [lia|]. apply (H3 z Hz Hz').
              ** splits; try assumption; try lia; try (right; assumption).
                 intros z [<-|Hz] Hz'; [lia|]. apply (H5 z Hz Hz').
           ++ destruct (Z.ltb_spec (getLength m x) bl) as [Hlt|Hge].
              ** inversion Eacc; subst bl1 ba1. right.
                 destruct E2 as [(-> & -> & H3) | (H1 & H2 & H3 & H4 & H5)].
                 --- splits; try lia; try (left; reflexivity); try reflexivity.
                     intros z [<-|Hz] Hz'; [lia|]. apply (H3 z Hz Hz').
                 --- splits; try assumption; try lia; try (right; assumption).
                     intros z [<-|Hz] Hz'; [lia|]. apply (H5 z Hz Hz').
              ** inversion Eacc; subst bl1 ba1.
                 destruct E2 as [(-> & -> & H3) | (H1 & H2 & H3 & H4 & H5)].
                 --- left. splits; try reflexivity.
                     intros z [<-|Hz] Hz'; [lia|]. apply (H3 z Hz Hz').
                 --- right. splits; try assumption; try lia; try (right; assumption).
                     intros z [<-|Hz] Hz'; [lia|]. apply (H5 z Hz Hz').
        -- inversion Eacc; subst bl1 ba1.
           destruct E2 as [(-> & -> & H3) | (H1 & H2 & H3 & H4 & H5)].
           ++ left. splits; try reflexivity.
              intros z [<-|Hz] Hz'; [lia|]. apply (H3 z Hz Hz').
           ++ right. splits; try assumption; try (right; assumption).
              intros z [<-|Hz] Hz'; [lia|]. apply (H5 z Hz Hz').
Qed.

Lemma place_split (bs : list block) (x len : Z) (st : status) : forall a,
  In (x, len, st) (place a bs) ->
  exists pre post, bs = pre ++ (len, st) :: post /\ x = a + size pre.
Proof.
  induction bs as [|[l0 s0] r IH]; intros a H; simpl in H; [contradiction|].
  destruct H as [E|H].
  - inversion E; subst. exists [], r. split; [reflexivity | simpl; lia].
  - destruct (IH _ H) as (pre & post & -> & ->).
    exists ((l0, s0) :: pre), post. split; [reflexivity | simpl; lia].
Qed.

Lemma class_lt16 (len : Z) :
  8 <= len -> len + 8 < two64 -> calculateClass_new len < 16 ->
  len + 8 <= 256.
Proof.
  intros H1 H2 H3.
  destruct (Z.le_gt_cases (len + 8) 256) as [Ha|Ha]; [assumption|].
  destruct (Z.le_gt_cases (len + 8) 32768) as [Hb|Hb].
  - rewrite class_mid in H3 by lia. pose proof (log2_up_mid (len + 8)). lia.
  - rewrite class_large in H3 by lia. lia.
Qed.

Lemma class_mono (a b : Z) :
  8 <= a -> a <= b -> b + 8 < two64 ->
  calculateClass_new a <= calculateClass_new b.
Proof.
  intros H1 H2 H3.
  destruct (Z.le_gt_cases (b + 8) 256) as [Hb|Hb].
  - rewrite !class_small by lia. lia.
  - destruct (Z.le_gt_cases (b + 8) 32768) as [Hb'|Hb'].
    + rewrite (class_mid b) by lia. pose proof (log2_up_mid (b + 8)).
      destruct (Z.le_gt_cases (a + 8) 256) as [Ha|Ha].
      * rewrite class_small by lia. lia.
      * rewrite class_mid by lia.
        pose proof (Z.log2_up_le_mono (a + 8) (b + 8)). lia.
    + rewrite (class_large b) by lia.
      pose proof (class_range a). lia.
Qed.

(** In an exact class every block is at least as long as a request whose
    own class is not above it. *)
Lemma exact_class_fits (req len : Z) :
  8 <= req -> req mod 16 = 8 -> 8 <= len -> len mod 16 = 8 ->
  len + 8 < two64 -> req + 8 < two64 ->
  calculateClass_new len < 16 ->
  calculateClass_new req <= calculateClass_new len ->
  req <= len.
Proof.
  intros H1 H2 H3 H4 H5 H6 H7 H8.
  pose proof (class_lt16 len H3 H5 H7) as Hl.
  assert (Hr : calculateClass_new req < 16) by lia.
  pose proof (class_lt16 req H1 H6 Hr) as Hr'.
  rewrite !class_small in H8 by lia. lia.
Qed.

(** ** Postcondition of an allocation *)

(** [s'] differs from [s] in the arena memory only. *)
Definition same_arena (s s' : heap) : Prop :=
  mem_start_brk s' = mem_start_brk s /\ mem_brk s' = mem_brk s /\
  mem_max_addr s' = mem_max_addr s /\ sbrk_log s' = sbrk_log s /\
  initialized s' = initialized s /\ heap_start s' = heap_start s.

Lemma same_arena_refl (s : heap) : same_arena s s.
Proof. unfold same_arena. tauto. Qed.

Lemma same_arena_with_mem (s : heap) (m : memory) : same_arena s (with_mem s m).
Proof. unfold same_arena. cbn. tauto. Qed.

Lemma same_arena_trans (s1 s2 s3 : heap) :
  same_arena s1 s2 -> same_arena s2 s3 -> same_arena s1 s3.
Proof. unfold same_arena. intuition congruence. Qed.

Lemma same_arena_free (s : heap) (p : Z) : same_arena s (free s p).
Proof.
  unfold free. destruct (p =? NULL);
    [apply same_arena_refl | apply same_arena_with_mem].
Qed.

Lemma same_arena_awh (s : heap) (x req len cls : Z) :
  same_arena s (snd (allocateWithinHeap s x req len cls)).
Proof.
  unfold allocateWithinHeap. destruct (req <? len); cbn [snd].
  - eapply same_arena_trans; [apply same_arena_with_mem | apply same_arena_free].
  - apply same_arena_with_mem.
Qed.

(** A successful allocation of [req] payload bytes at [p]: the arena is
    well formed again, [p] is the payload of an allocated block that was
    not allocated before, and every block allocated before still is. *)
Record alloc_post (s : heap) (bs : list block) (req p : Z) (s' : heap)
    (bs' : list block) : Prop := {
  ap_ok : heap_ok s' bs';
  ap_epi : epi_strict s' bs';
  ap_hs : heap_start s' = heap_start s;
  ap_lo : mem_start_brk s' = mem_start_brk s;
  ap_brk : mem_brk s <= mem_brk s';
  ap_new : In (p - 8, req, Alloc) (place (first_block s) bs');
  ap_fresh : forall l, ~ In (p - 8, l, Alloc) (place (first_block s) bs);
  ap_keep : forall y l, In (y, l, Alloc) (place (first_block s) bs) ->
                        In (y, l, Alloc) (place (first_block s) bs');
  ap_frame : forall w, in_payload s bs w ->
                       load64 (mem s') w = load64 (mem s) w
}.

Lemma no_limbo_served (pre post : list block) (len req : Z) :
  no_limbo pre -> no_limbo post -> no_limbo (served pre len req post).
Proof.
  intros H1 H2. unfold served. destruct (req <? len);
    apply Forall_app; split; try assumption;
    repeat (constructor; try discriminate); assumption.
Qed.

(** Allocation from a listed block. *)
Lemma take_listed (s : heap) (bs : list block) (fl : Z -> list Z)
    (req cls c x : Z) :
  inv s bs fl -> no_limbo bs -> epi_strict s bs ->
  8 <= req -> req mod 16 = 8 ->
  0 <= c < 24 -> In x (fl c) -> req <= getLength (mem s) x ->
  let r := allocateWithinHeap s x req (getLength (mem s) x) cls in
  fst r <> NULL /\ exists bs', alloc_post s bs req (fst r) (snd r) bs'.
Proof.
  intros Hinv Hnl Hes Hr1 Hr2 Hc Hx Hfit.
  destruct (inv_listed _ _ _ Hinv c x Hc Hx) as (len & P & Hlen & Ecl).
  destruct (place_words _ _ _ _ _ (inv_blocks _ _ _ Hinv) _ _ _ P)
    as (cc & l & Hw & _ & _).
  pose proof (inv_placed _ _ _ Hinv _ _ _ P) as (B1 & B2 & B3 & B4 & B5 & B6).
  rewrite (getLength_hdr (mem s) x len cc l) in * by (assumption || lia).
  destruct (place_split _ _ _ _ _ P) as (pre & post & -> & ->).
  apply Forall_app in Hnl as [Hnl1 Hnl2].
  inversion Hnl2 as [|? ? _ Hnl3]; subst.
  destruct (allocateWithinHeap_ok s pre post len req cls fl Hinv Hnl1 Hnl3)
    as (E1 & [fl' Hinv'] & He & Hbrk); try assumption.
  cbv zeta. rewrite E1.
  pose proof (inv_pos _ _ _ Hinv) as Hhs.
  pose proof (same_arena_awh s (first_block s + size pre) req len cls)
    as (S1 & S2 & S3 & S4 & S5 & S6).
  split; [unfold NULL, first_block in *; lia|].
  exists (served pre len req post).
  constructor; try assumption; try lia;
    try replace (first_block s + size pre + 8 - 8) with (first_block s + size pre)
      by lia.
  - split; [apply no_limbo_served; assumption|]. exists fl'. assumption.
  - apply (He 0); [reflexivity | exact Hes].
  - unfold served. destruct (Z.ltb_spec req len) as [Hlt|Hge];
      apply place_mid; right; left; [reflexivity|].
    replace req with len by lia. reflexivity.
  - intros l0 Hin.
    destruct (place_disjoint _ _ _ _ _ (inv_blocks _ _ _ Hinv) _ _ _ _ _ _ Hin P)
      as [(_ & _ & E)|D]; [discriminate|].
    pose proof (inv_placed _ _ _ Hinv _ _ _ Hin). lia.
  - intros y l0 Hin. apply place_mid in Hin.
    unfold served. destruct (Z.ltb_spec req len) as [Hlt|Hge].
    + apply place_mid. cbn [place In].
      replace (first_block s + size pre + req + 8 + (len - req - 8) + 8)
        with (first_block s + size pre + len + 8) by lia.
      destruct Hin as [H|[H|H]]; [auto | discriminate | auto].
    + apply place_mid. destruct Hin as [H|[H|H]]; [auto | discriminate | auto].
  - intros w Hpw.
    apply (allocateWithinHeap_frame s pre post len req cls fl); assumption.
Qed.

(** The state after a refused growth request of [incr] bytes: only the
    ghost log of requests has grown. *)
Definition refused (s : heap) (incr : Z) : heap :=
  mkHeap (mem s) (mem_start_brk s) (mem_brk s) (mem_max_addr s)
         (incr :: sbrk_log s) (initialized s) (heap_start s).

Lemma allocateExtra_refused (s : heap) (req : Z) :
  mem_max_addr s < mem_brk s + u64 (req + 8) ->
  allocateExtra s req = (NULL, refused s (u64 (req + 8))).
Proof.
  intros H. unfold allocateExtra, mem_sbrk. norm_ws.
  destruct (Z.leb_spec (mem_brk s + u64 (req + 8)) (mem_max_addr s)); [lia|].
  rewrite Z.eqb_refl. reflexivity.
Qed.

Lemma allocateExtra_fields (s : heap) (req : Z) :
  heap_start (snd (allocateExtra s req)) = heap_start s /\
  mem_start_brk (snd (allocateExtra s req)) = mem_start_brk s /\
  mem_max_addr (snd (allocateExtra s req)) = mem_max_addr s /\
  initialized (snd (allocateExtra s req)) = initialized s.
Proof.
  unfold allocateExtra, mem_sbrk.
  destruct (mem_brk s + u64 (req + WORDSIZE) <=? mem_max_addr s); cbn [fst snd].
  - destruct (mem_brk s =? sbrk_failed); cbn; tauto.
  - destruct (sbrk_failed =? sbrk_failed); cbn; tauto.
Qed.

Lemma fuel_bound_exists (fl : Z -> list Z) :
  exists k : nat, forall c, 0 <= c < 24 -> (length (fl c) < k)%nat.
Proof.
  assert (H : forall n : nat, exists k : nat,
            forall c, 0 <= c < Z.of_nat n -> (length (fl c) < k)%nat).
  { induction n as [|n [k IH]].
    - exists O. intros c Hc. lia.
    - exists (S (k + length (fl (Z.of_nat n)))). intros c Hc.
      destruct (Z.eq_dec c (Z.of_nat n)) as [->|Hne]; [lia|].
      specialize (IH c). lia. }
  destruct (H 24%nat) as [k Hk]. exists k. intros c Hc. apply Hk. lia.
Qed.

Definition malloc_result (s : heap) (bs : list block) (req : Z)
    (r : Z * heap) : Prop :=
  (fst r = NULL /\ snd r = refused s (req + 8) /\
   mem_max_addr s < mem_brk s + (req + 8)) \/
  (fst r <> NULL /\ exists bs', alloc_post s bs req (fst r) (snd r) bs').

Lemma class_loop_ok (s : heap) (bs : list block) (fl : Z -> list Z)
    (req : Z) (fuel : nat) :
  inv s bs fl -> no_limbo bs -> epi_strict s bs ->
  8 <= req -> req mod 16 = 8 -> req + 8 < two64 ->
  (forall c, 0 <= c < 24 -> (length (fl c) < fuel)%nat) ->
  forall n cls jumped,
    0 <= cls -> calculateClass_new req <= cls -> 24 - cls <= Z.of_nat n ->
    exists r, class_loop n fuel s req cls jumped = Some r /\
              malloc_result s bs req r.
Proof.
  intros Hinv Hnl Hes Hr1 Hr2 Hr3 Hfuel.
  pose proof (inv_pos _ _ _ Hinv) as Hhs.
  induction n as [|n IH]; intros cls jumped Hc0 Hcr Hn.
  - (* no class left *)
    assert (Hge : 24 <= cls) by lia.
    cbn [class_loop]. destruct (Z.ltb_spec cls 24) as [|_]; [lia|].
    eexists. split; [reflexivity|].
    destruct (Z.le_gt_cases (mem_brk s + (req + 8)) (mem_max_addr s)) as [Hcap|Hcap].
    + right.
      destruct (allocateExtra_ok s bs fl req Hinv Hes Hnl Hr1 Hr2 Hr3 Hcap)
        as (E1 & Hinv' & Hes' & Hbrk & Hfr).
      pose proof (inv_bounds _ _ _ Hinv) as [Hb1 Hb2].
      split; [rewrite E1; unfold NULL, first_block in *; lia|].
      exists (bs ++ [(req, Alloc)]). rewrite E1.
      pose proof (blocks_size _ _ _ _ _ (inv_blocks _ _ _ Hinv)) as Hsz.
      constructor; try assumption;
        try replace (epilogue s + 8 - 8) with (epilogue s) by lia.
      * split; [|exists fl; assumption].
        apply Forall_app. split; [assumption|]. constructor; [discriminate|constructor].
      * apply (allocateExtra_fields s req).
      * apply (allocateExtra_fields s req).
      * lia.
      * rewrite Hsz. rewrite place_app. apply in_or_app. right. left. reflexivity.
      * intros l Hin. pose proof (inv_placed _ _ _ Hinv _ _ _ Hin). lia.
      * intros y l Hin. rewrite place_app. apply in_or_app. left. assumption.
      * intros w (y & l & P & Hw1 & Hw2).
        pose proof (inv_placed _ _ _ Hinv _ _ _ P). apply Hfr. lia.
    + left. rewrite allocateExtra_refused by (rewrite u64_small; lia).
      rewrite u64_small by lia. cbn [fst snd]. auto.
  - cbn [class_loop]. destruct (Z.ltb_spec cls 24) as [Hlt|Hge].
    2:{ (* same as above: the loop is over *)
      specialize (IH cls jumped Hc0 Hcr). cbn [class_loop] in IH.
      destruct n as [|n']; cbn [class_loop] in IH;
        destruct (Z.ltb_spec cls 24) as [|_]; try lia; apply IH; lia. }
    assert (Hcls : 0 <= cls < 24) by lia.
    destruct (inv_links _ _ _ Hinv cls Hcls) as (Hh & Hl & Hnd).
    replace (heap_start s + cls * WORDSIZE) with (heap_start s + 8 * cls)
      by (unfold WORDSIZE; lia).
    rewrite Hh.
    assert (Hnz : forall x, In x (fl cls) -> x <> 0).
    { intros x Hx. destruct (inv_node _ _ _ Hinv cls x Hcls Hx) as [N _].
      apply (node_pos (heap_start s)); assumption. }
    specialize (Hfuel cls Hcls).
    assert (Hnext : forall j',
              exists r, (let '(class', jumped') := next_class cls j' in
                         class_loop n fuel s req class' jumped') = Some r /\
                        malloc_result s bs req r).
    { intros j'. unfold next_class.
      destruct ((cls <? 16) && negb j').
      - rewrite u64_small by (unfold two64; lia). apply IH; lia.
      - rewrite u64_small by (unfold two64; lia). apply IH; lia. }
    destruct (Z.lt_ge_cases cls 16) as [Hex|Hrg].
    + (* exact class *)
      destruct (fl cls) as [|x L] eqn:EL.
      * destruct fuel as [|f]; [simpl in Hfuel; lia|].
        cbn [hd]. rewrite scan_empty. rewrite Z.eqb_refl. cbn [negb].
        apply Hnext.
      * destruct fuel as [|f]; [simpl in Hfuel; lia|].
        cbn [hd]. rewrite scan_exact_class by (try lia; apply Hnz; left; reflexivity).
        eexists. split; [reflexivity|]. right.
        assert (Hx : In x (fl cls)) by (rewrite EL; left; reflexivity).
        apply (take_listed s bs fl req cls cls x); try assumption.
        destruct (inv_listed _ _ _ Hinv cls x Hcls Hx) as (len & P & Hlen & Ecl).
        destruct (place_words _ _ _ _ _ (inv_blocks _ _ _ Hinv) _ _ _ P)
          as (cc & l & Hw & _ & _).
        pose proof (inv_placed _ _ _ Hinv _ _ _ P) as (B1 & B2 & B3 & B4 & B5 & B6).
        rewrite (getLength_hdr (mem s) x len cc l) by (assumption || lia).
        apply exact_class_fits; try assumption; lia.
    + (* range class *)
      destruct (scan_range (mem s) cls req Hrg ltac:(lia) (fl cls) 0 fuel 0 0
                  Hl Hnz Hfuel)
        as [(L1 & x & L2 & E1 & E2 & E3 & E4) | (Hnone & bl' & ba' & E1 & E2)].
      * rewrite E4. eexists. split; [reflexivity|]. right.
        assert (Hx : In x (fl cls)) by (rewrite E1; apply in_or_app; right; left; reflexivity).
        pose proof (take_listed s bs fl req cls cls x Hinv Hnl Hes Hr1 Hr2 Hcls Hx)
          as HT.
        rewrite E2 in HT. apply HT. lia.
      * rewrite E1. destruct E2 as [(-> & -> & _) | (H1 & H2 & H3 & _)].
        -- rewrite Z.eqb_refl. cbn [negb]. apply Hnext.
        -- destruct (Z.eqb_spec bl' 0) as [|_]; [lia|]. cbn [negb].
           eexists. split; [reflexivity|]. right. rewrite H2.
           apply (take_listed s bs fl req cls cls ba'); try assumption. lia.
Qed.

(** ** Request sizes *)

Lemma align_new_ok (size : Z) :
  1 <= size -> size + 24 <= two64 ->
  8 <= align_new size /\ align_new size mod 16 = 8 /\
  size <= align_new size < size + 16 /\ align_new size + 8 < two64.
Proof.
  intros H1 H2. unfold align_new, u64, ALIGNMENT, WORDSIZE, two64 in *. lia.
Qed.

Lemma align_new_tiny (size : Z) :
  two64 - 7 <= size < two64 -> align_new size = 8.
Proof. intros H. unfold align_new, u64, ALIGNMENT, WORDSIZE, two64 in *. lia. Qed.

Lemma align_new_wrap (size : Z) :
  two64 - 23 <= size <= two64 - 8 -> align_new size = two64 - 8.
Proof. intros H. unfold align_new, u64, ALIGNMENT, WORDSIZE, two64 in *. lia. Qed.

Lemma align_new_fixed (req : Z) :
  8 <= req -> req mod 16 = 8 -> req + 8 <= two64 -> align_new req = req.
Proof.
  intros H1 H2 H3. unfold align_new, u64, ALIGNMENT, WORDSIZE, two64 in *. lia.
Qed.

Lemma class_of_wrap : calculateClass_new (two64 - 8) = two64 - 1.
Proof. reflexivity. Qed.

(** Every request size falls in one of three ranges. *)
Lemma size_cases (size : Z) :
  0 < size < two64 ->
  (8 <= align_new size /\ align_new size mod 16 = 8 /\
   align_new size + 8 < two64) \/
  (two64 - 23 <= size <= two64 - 8 /\ align_new size = two64 - 8).
Proof.
  intros H.
  destruct (Z.le_gt_cases (size + 24) two64) as [Ha|Ha].
  - left. pose proof (align_new_ok size). lia.
  - destruct (Z.le_gt_cases size (two64 - 8)) as [Hb|Hb].
    + right. split; [lia|]. apply align_new_wrap. lia.
    + left. rewrite align_new_tiny by lia. unfold two64. lia.
Qed.

(** ** The wrapped request

    For sizes between 2^64-23 and 2^64-8 the padded size wraps to 2^64-8,
    the class index is out of range, and [allocateExtra] asks the provider
    for 0 bytes. *)
Lemma allocateExtra_wrap (s : heap) (bs : list block) (fl : Z -> list Z) :
  inv s bs fl ->
  fst (allocateExtra s (two64 - 8)) = mem_brk s /\
  inv (snd (allocateExtra s (two64 - 8))) bs fl /\
  mem_brk (snd (allocateExtra s (two64 - 8))) = mem_brk s /\
  (forall w, w + 8 <= epilogue s \/ epilogue s + 8 <= w ->
     load64 (mem (snd (allocateExtra s (two64 - 8)))) w = load64 (mem s) w).
Proof.
  intros Hinv.
  pose proof (inv_brk_mod _ _ _ Hinv) as [Hbm Hbl].
  pose proof (inv_pos _ _ _ Hinv) as Hhs.
  pose proof (inv_brk _ _ _ Hinv) as [Hbk1 Hbk2].
  pose proof (inv_blocks _ _ _ Hinv) as Hb.
  destruct (inv_epi _ _ _ Hinv) as (le & l & E1 & E2 & E3).
  unfold allocateExtra, mem_sbrk, mem_heap_hi. norm_ws.
  replace (u64 (two64 - 8 + 8)) with 0 by reflexivity.
  destruct (Z.leb_spec (mem_brk s + 0) (mem_max_addr s)) as [_|]; [|lia].
  destruct (Z.eqb_spec (mem_brk s) sbrk_failed) as [E|_];
    [unfold sbrk_failed, two64 in E; lia|].
  unfold with_mem.
  cbn [mem mem_start_brk mem_brk mem_max_addr sbrk_log initialized
       heap_start fst snd].
  replace (mem_brk s - 1 - 7) with (epilogue s) by (unfold epilogue; lia).
  replace (epilogue s + 0) with (epilogue s) by lia.
  set (e := epilogue s) in *.
  set (m1 := mem_memcpy (mem s) e e 8).
  assert (Hl1 : load64 m1 e = hdr le true l).
  { unfold m1. mem_simpl'. assumption. }
  rewrite (getLeftAllocated_hdr m1 e le true l) by assumption.
  rewrite (construct_new_hdr m1 e (two64 - 8)) by reflexivity.
  set (m2 := store64 m1 e (hdr (two64 - 8) true l)).
  assert (Hrg : 0 <= hdr (two64 - 8) true l < two64)
    by (apply hdr_range; [reflexivity | unfold two64; lia]).
  assert (Hl2 : load64 m2 e = hdr (two64 - 8) true l).
  { unfold m2. mem_simpl'. reflexivity. }
  rewrite (setLeftAllocated_hdr m2 e (two64 - 8) true l true)
    by (assumption || reflexivity).
  set (m3 := store64 m2 e (hdr (two64 - 8) true true)).
  assert (Hrg' : 0 <= hdr (two64 - 8) true true < two64)
    by (apply hdr_range; [reflexivity | unfold two64; lia]).
  assert (Hfr : forall w, w + 8 <= e \/ e + 8 <= w -> load64 m3 w = load64 (mem s) w).
  { intros w Hw. unfold m3, m2, m1. mem_simpl'. reflexivity. }
  split; [unfold e, epilogue; lia|]. split; [|split; [lia | exact Hfr]].
  constructor; cbn [mem mem_start_brk mem_brk mem_max_addr sbrk_log
                    initialized heap_start]; try apply Hinv.
  - lia.
  - unfold first_block, epilogue at 1.
    cbn [mem mem_start_brk mem_brk mem_max_addr heap_start].
    fold (first_block s).
    replace (mem_brk s + 0 - 8) with e by (unfold e, epilogue; lia).
    apply blocks_frame with (m := mem s); [|assumption].
    intros w _ Hw. apply Hfr. lia.
  - unfold epilogue at 1. cbn [mem_brk].
    replace (mem_brk s + 0 - 8) with e by (unfold e, epilogue; lia).
    exists (two64 - 8), true. splits; try reflexivity; try (unfold two64; lia).
    unfold m3. mem_simpl'. reflexivity.
  - intros c Hc. destruct (inv_links _ _ _ Hinv c Hc) as (Hh & Hl & Hnd).
    pose proof (inv_bounds _ _ _ Hinv) as [Hb1 Hb2].
    split; [|split; [|assumption]].
    + rewrite Hfr; [assumption | unfold first_block, e in *; lia].
    + apply links_frame with (m := mem s); [|assumption].
      intros y Hy. destruct (inv_node _ _ _ Hinv c y Hc Hy) as (_ & l' & P & Hl' & _).
      pose proof (inv_placed _ _ _ Hinv _ _ _ P). fold e in H.
      split; apply Hfr; lia.
Qed.

(** ** [malloc] *)

Definition malloc_outcome (s : heap) (bs : list block) (size : Z)
    (r : Z * heap) : Prop :=
  (size = 0 /\ r = (NULL, s)) \/
  (0 < size /\ align_new size + 8 < two64 /\
   malloc_result s bs (align_new size) r) \/
  (two64 - 23 <= size <= two64 - 8 /\ fst r = mem_brk s /\
   heap_ok (snd r) bs /\ mem_brk (snd r) = mem_brk s /\
   heap_start (snd r) = heap_start s /\
   (forall w, w + 8 <= epilogue s \/ epilogue s + 8 <= w ->
      load64 (mem (snd r)) w = load64 (mem s) w)).

Lemma malloc_ok (s : heap) (bs : list block) (size : Z) :
  heap_ok s bs -> epi_strict s bs -> 0 <= size < two64 ->
  exists k : nat, forall fuel, (k <= fuel)%nat ->
    exists r, malloc fuel s size = Some r /\ malloc_outcome s bs size r.
Proof.
  intros [Hnl [fl Hinv]] Hes Hsz.
  destruct (fuel_bound_exists fl) as [k Hk]. exists k. intros fuel Hfuel.
  unfold malloc. rewrite (inv_init _ _ _ Hinv). cbn [negb orb].
  destruct (Z.leb_spec size 0) as [H0|Hpos].
  - eexists. split; [reflexivity|]. left. split; [lia | reflexivity].
  - destruct (size_cases size) as [(A1 & A2 & A3) | (B1 & B2)]; [lia| |].
    + pose proof (class_range (align_new size) A1 A3) as Hc.
      destruct (class_loop_ok s bs fl (align_new size) fuel Hinv Hnl Hes A1 A2 A3)
        with (n := 24%nat) (cls := calculateClass_new (align_new size))
             (jumped := false) as (r & E & Hr); try lia.
      { intros c Hc'. specialize (Hk c Hc'). lia. }
      exists r. split; [assumption|]. right. left. splits; try assumption; lia.
    + rewrite B2, class_of_wrap. cbn [class_loop].
      destruct (Z.ltb_spec (two64 - 1) 24) as [Hlt|_];
        [unfold two64 in Hlt; lia|].
      eexists. split; [reflexivity|]. right. right.
      destruct (allocateExtra_wrap s bs fl Hinv) as (E1 & Hinv' & Hb & Hfr).
      splits; try assumption; try lia.
      * split; [assumption | exists fl; assumption].
      * apply (allocateExtra_fields s (two64 - 8)).
Qed.

(** ** Frame for the invariant *)

(** The words the invariant looks at. *)
Definition relevant (s : heap) (bs : list block) (w : Z) : Prop :=
  (exists c, 0 <= c < 24 /\ w = heap_start s + 8 * c) \/
  (exists x len st, In (x, len, st) (place (first_block s) bs) /\
     (w = x \/ (st = Free /\ (w = x + len \/
                              (8 < len /\ (w = x + 8 \/ w = x + 16)))))) \/
  w = epilogue s.

Lemma inv_frame (s : heap) (bs : list block) (fl : Z -> list Z)
    (m' : memory) :
  inv s bs fl ->
  (forall w, relevant s bs w -> load64 m' w = load64 (mem s) w) ->
  inv (with_mem s m') bs fl.
Proof.
  intros Hinv Hfr. constructor;
    cbn [with_mem initialized heap_start mem_start_brk mem_brk mem_max_addr mem];
    try apply Hinv.
  - change (first_block (with_mem s m')) with (first_block s).
    change (epilogue (with_mem s m')) with (epilogue s).
    apply blocks_frame_meta with (m := mem s); [|apply Hinv].
    intros x len st Hx. split; [|intros ->]; apply Hfr; right; left;
      exists x, len; eexists; (split; [eassumption|]); auto.
  - change (epilogue (with_mem s m')) with (epilogue s).
    destruct (inv_epi _ _ _ Hinv) as (le & l & E1 & E2 & E3).
    exists le, l. splits; try assumption; try lia.
    rewrite Hfr; [assumption | right; right; reflexivity].
  - intros c Hc. destruct (inv_links _ _ _ Hinv c Hc) as (Hh & Hl & Hnd).
    split; [|split; [|assumption]].
    + rewrite Hfr; [assumption | left; exists c; auto].
    + apply links_frame with (m := mem s); [|assumption].
      intros y Hy. destruct (inv_listed _ _ _ Hinv c y Hc Hy) as (l & P & Hl' & _).
      split; apply Hfr; right; left; exists y, l, Free; (split; [assumption|]);
        right; split; auto.
Qed.

(** Relevant words are aligned words between the class heads and the
    epilogue. *)
Lemma relevant_bounds (s : heap) (bs : list block) (fl : Z -> list Z) (w : Z) :
  inv s bs fl -> relevant s bs w ->
  heap_start s <= w /\ w <= epilogue s /\ (w - heap_start s) mod 8 = 0.
Proof.
  intros Hinv Hw. pose proof (inv_bounds _ _ _ Hinv) as [B1 B2].
  pose proof (inv_al _ _ _ Hinv) as Hal.
  destruct Hw as [(c & Hc & ->) | [(x & len & st & P & Hw) | ->]].
  - unfold first_block in *. lia.
  - pose proof (inv_placed _ _ _ Hinv _ _ _ P) as (P1 & P2 & P3 & P4 & P5 & P6).
    unfold first_block in *.
    destruct Hw as [->|(_ & [->|(Hl & [->| ->])])]; lia.
  - unfold first_block in *.
    pose proof (blocks_size_mod _ _ _ _ _ (inv_blocks _ _ _ Hinv)).
    pose proof (blocks_size _ _ _ _ _ (inv_blocks _ _ _ Hinv)).
    unfold first_block in *. lia.
Qed.

(** A relevant word and a placed block: the word is one of the block's
    own, or lies outside the block. *)
Lemma relevant_vs_block (s : heap) (bs : list block) (fl : Z -> list Z)
    (w x len : Z) (st : status) :
  inv s bs fl -> relevant s bs w ->
  In (x, len, st) (place (first_block s) bs) ->
  w + 8 <= x \/ x + len + 8 <= w \/ w = x \/
  (st = Free /\ (w = x + len \/ (8 < len /\ (w = x + 8 \/ w = x + 16)))).
Proof.
  intros Hinv Hw P. pose proof (inv_bounds _ _ _ Hinv) as [B1 B2].
  pose proof (inv_placed _ _ _ Hinv _ _ _ P) as (P1 & P2 & P3 & P4 & P5 & P6).
  destruct Hw as [(c & Hc & ->) | [(y & l & st' & P' & Hw) | ->]].
  - left. unfold first_block in *. lia.
  - destruct (place_disjoint _ _ _ _ _ (inv_blocks _ _ _ Hinv) _ _ _ _ _ _ P' P)
      as [(-> & -> & ->)|D].
    + right. right. tauto.
    + pose proof (inv_placed _ _ _ Hinv _ _ _ P') as (Q1 & Q2 & Q3 & Q4 & Q5 & Q6).
      destruct Hw as [->|(_ & [->|(Hl & [->| ->])])]; lia.
  - right. left. lia.
Qed.

(** Storing a word that the invariant does not look at, or storing back
    the word that is already there. *)
Lemma inv_store (s : heap) (bs : list block) (fl : Z -> list Z) (t v : Z) :
  inv s bs fl -> (t - heap_start s) mod 8 = 0 -> 0 <= v < two64 ->
  (relevant s bs t -> v = load64 (mem s) t) ->
  inv (with_mem s (store64 (mem s) t v)) bs fl /\
  forall w, relevant s bs w ->
    load64 (store64 (mem s) t v) w = load64 (mem s) w.
Proof.
  intros Hinv Ht Hv Hsame.
  assert (Hfr : forall w, relevant s bs w ->
                  load64 (store64 (mem s) t v) w = load64 (mem s) w).
  { intros w Hw. pose proof (relevant_bounds _ _ _ _ Hinv Hw) as (W1 & W2 & W3).
    destruct (Z.eq_dec w t) as [->|Hne].
    - rewrite load64_store64_eq' by (reflexivity || assumption).
      apply Hsame. assumption.
    - apply load64_store64_ne. lia. }
  split; [|exact Hfr]. apply inv_frame; assumption.
Qed.

(** The word [setLeftAllocated _ _ false] writes. *)
Definition sla_false (w : Z) : Z := hdr (w / 8 * 8) (w mod 2 =? 1) false.

Lemma setLeftAllocated_false (m : memory) (t : Z) :
  setLeftAllocated m t false = store64 m t (sla_false (load64 m t)).
Proof.
  unfold setLeftAllocated, deconstruct_new, sla_false. norm_ws.
  apply construct_new_hdr. lia.
Qed.

Lemma sla_false_range (w : Z) : 0 <= w < two64 -> 0 <= sla_false w < two64.
Proof.
  intros H. unfold sla_false, hdr, two64 in *.
  destruct (Z.eqb_spec (w mod 2) 1); lia.
Qed.

Lemma sla_false_pointer (w : Z) : w mod 8 = 0 -> sla_false w = w.
Proof.
  intros H. unfold sla_false, hdr.
  destruct (Z.eqb_spec (w mod 2) 1); lia.
Qed.

Lemma sla_false_hdr (len : Z) (c : bool) :
  len mod 8 = 0 -> sla_false (hdr len c false) = hdr len c false.
Proof.
  intros H. unfold sla_false. rewrite hdr_length, hdr_cur by assumption.
  reflexivity.
Qed.

(** ** [realloc]: shrinking in place *)

Definition shrunk (pre : list block) (len req : Z) (post : list block)
    : list block :=
  merge_free (pre ++ [(req, Alloc)]) (len - req - 8) post.

Lemma node_mod8 (hs y : Z) : hs mod 16 = 0 -> node hs y -> y mod 8 = 0.
Proof. unfold node. lia. Qed.

Lemma construct_new_frame (m : memory) (p len : Z) (c l : bool) (w : Z) :
  w + 8 <= p \/ p + 8 <= w ->
  load64 (construct_new m p len c l) w = load64 m w.
Proof.
  intros H. unfold construct_new. cbv zeta. apply load64_store64_ne. exact H.
Qed.

Lemma realloc_shrink (s : heap) (pre post : list block) (len req : Z)
    (fl : Z -> list Z) (fuel : nat) (n : Z) :
  inv s (pre ++ (len, Alloc) :: post) fl -> no_limbo pre -> no_limbo post ->
  8 <= req -> req mod 16 = 8 -> req < len ->
  align_new n = req -> n <> 0 ->
  let p := first_block s + size pre + 8 in
  exists s',
    realloc fuel s p n = Some (p, s') /\
    same_arena s s' /\
    (exists fl', inv s' (shrunk pre len req post) fl') /\
    (forall le, le mod 8 = 0 ->
       epi_word s le (pre ++ (len, Alloc) :: post) ->
       epi_word s' le (shrunk pre len req post)) /\
    (forall w,
       in_payload s (pre ++ (req, Alloc) :: (len - req - 8, Limbo) :: post) w ->
       load64 (mem s') w = load64 (mem s) w) /\
    (forall y l,
       In (y, l, Alloc)
          (place (first_block s)
             (pre ++ (req, Alloc) :: (len - req - 8, Limbo) :: post)) ->
       In (y, l, Alloc) (place (first_block s) (shrunk pre len req post))).
Proof.
  intros Hinv Hnl1 Hnl2 Hr1 Hr2 Hr3 Hal Hn0 p.
  set (x := first_block s + size pre) in *.
  pose proof (inv_blocks _ _ _ Hinv) as Hb.
  apply blocks_app in Hb as [Hb1 Hb2]. fold x in Hb1, Hb2. cbn [blocks] in Hb2.
  destruct Hb2 as (Hl1 & Hl2 & (c & lf & Hh & Hc & Hlo) & _ & Hb3).
  cbn [cur_ok] in Hc. subst c.
  pose proof (inv_bounds _ _ _ Hinv) as [Hbd1 Hbd2].
  pose proof (inv_pos _ _ _ Hinv) as Hhs.
  pose proof (inv_al _ _ _ Hinv) as Hhal.
  pose proof (blocks_size _ _ _ _ _ Hb1) as Hs1.
  pose proof (blocks_size_nonneg _ _ _ _ _ Hb1) as Hn1.
  pose proof (blocks_size _ _ _ _ _ Hb3) as Hs3.
  pose proof (blocks_size_nonneg _ _ _ _ _ Hb3) as Hn3.
  pose proof (blocks_size_mod _ _ _ _ _ Hb1) as Hm1.
  assert (Hx0 : first_block s <= x) by (unfold x; lia).
  set (rem := len - req - 8).
  unfold realloc. norm_ws.
  destruct (Z.eqb_spec p NULL) as [E|_]; [unfold p, NULL, first_block in *; lia|].
  destruct (Z.eqb_spec n 0) as [|_]; [contradiction|].
  replace (p - 8) with x by (unfold p; lia).
  rewrite (deconstruct_new_hdr (mem s) x len true lf) by (assumption || lia).
  rewrite Hal.
  destruct (Z.ltb_spec req len) as [_|]; [|lia].
  rewrite (u64_small (len - req - 8)) by (unfold first_block, two64 in *; lia).
  rewrite (u64_small (req + 8)) by (unfold first_block, two64 in *; lia).
  fold rem.
  replace (p + req) with (x + req + 8) by (unfold p; lia).
  replace (p + len - 8) with (x + len) by (unfold p; lia).
  replace (p + (req + 8)) with (x + (req + 16)) by (unfold p; lia).
  replace (p + len) with (x + len + 8) by (unfold p; lia).
  (* split the block *)
  pose proof (inv_to_limbo _ _ _ _ _ Hinv) as HinvL.
  destruct (inv_split _ _ _ _ req _ lf HinvL) as [Hinv2 Hfr2]; try assumption.
  fold x rem in Hinv2, Hfr2.
  set (m4 := construct_new _ (x + len) rem false true) in *.
  replace (pre ++ (req, Alloc) :: (rem, Limbo) :: post)
    with ((pre ++ [(req, Alloc)]) ++ (rem, Limbo) :: post) in Hinv2
    by (rewrite <- app_assoc; reflexivity).
  assert (Hnl1' : no_limbo (pre ++ [(req, Alloc)])).
  { apply Forall_app. split; [assumption|]. constructor; [discriminate|constructor]. }
  assert (Hptr : first_block (with_mem s m4) + size (pre ++ [(req, Alloc)]) + 8
                 = x + (req + 16)).
  { change (first_block (with_mem s m4)) with (first_block s).
    rewrite size_app. cbn [size]. unfold x. lia. }
  (* release the remainder *)
  destruct (free_limbo _ _ _ _ _ Hinv2 Hnl1' Hnl2) as [[fl3 Hinv3] _].
  rewrite Hptr in Hinv3.
  set (s1 := free (with_mem s m4) (x + (req + 16))) in *.
  change (merge_free (pre ++ [(req, Alloc)]) rem post)
    with (shrunk pre len req post) in Hinv3.
  assert (Hsa : same_arena s s1).
  { eapply same_arena_trans; [apply same_arena_with_mem | apply same_arena_free]. }
  pose proof Hsa as (S1 & S2 & S3 & S4 & S5 & S6).
  assert (Hfb : first_block s1 = first_block s) by (unfold first_block; congruence).
  assert (Hep : epilogue s1 = epilogue s) by (unfold epilogue; congruence).
  (* the epilogue word after the release *)
  assert (Hepi1 : forall le, le mod 8 = 0 ->
            epi_word s le (pre ++ (len, Alloc) :: post) ->
            epi_word s1 le (shrunk pre len req post)).
  { intros le Hle Hew. unfold s1, shrunk. rewrite <- Hptr.
    eapply free_epi; try eassumption; try exact Limbo.
    exists (last_alloc (pre ++ (len, Alloc) :: post)). split.
    - cbn [with_mem mem]. change (epilogue (with_mem s m4)) with (epilogue s).
      rewrite Hfr2 by lia. exact Hew.
    - intros Hne. rewrite last_alloc_mid. destruct post; [contradiction|reflexivity]. }
  (* the last store rewrites a word that is dead or already right *)
  rewrite setLeftAllocated_false.
  set (t := x + len + 8).
  assert (Hsame : relevant s1 (shrunk pre len req post) t ->
                  sla_false (load64 (mem s1) t) = load64 (mem s1) t).
  { intros Hrel.
    destruct (right_case post Hnl2) as [[Hhf Htr] | (rl & r & Epost & Htr)].
    - (* the right neighbour was not merged: [t] is its header *)
      unfold shrunk in Hinv3. rewrite merge_free_after_alloc in Hinv3 by assumption.
      pose proof (inv_blocks _ _ _ Hinv3) as Hb'. rewrite Hfb, Hep in Hb'.
      apply blocks_app in Hb' as [_ Hb']. cbn [blocks next_pa] in Hb'.
      destruct Hb' as (_ & _ & _ & _ & _ & _ & _ & _ & Hb').
      assert (Hb'' : blocks (mem s1) t (Some false) post (epilogue s)).
      { replace t with (first_block s + size pre + req + 8 + (len - req - 8) + 8)
          by (unfold t, x; lia).
        exact Hb'. }
      clear Hb'. rename Hb'' into Hb'.
      destruct post as [|[rl st] r].
      + cbn [blocks] in Hb'.
        destruct (inv_epi _ _ _ Hinv) as (le & l & E1 & E2 & E3).
        assert (Hew : load64 (mem s1) (epilogue s1) = hdr le true false).
        { destruct (free_limbo _ _ _ _ _ Hinv2 Hnl1' Hnl2) as [_ He].
          rewrite Hptr in He. fold s1 in He. rewrite Hep.
          change (epilogue (with_mem s m4)) with (epilogue s) in He.
          apply (He le l E1). cbn [with_mem mem]. rewrite Hfr2 by lia. exact E3. }
        rewrite Hep, <- Hb' in Hew. rewrite Hew. apply sla_false_hdr. assumption.
      + cbn [blocks] in Hb'.
        destruct Hb' as (A1 & A2 & (c1 & l1 & A3 & A4 & A5) & _).
        cbn [left_ok] in A5. subst l1. rewrite A3. apply sla_false_hdr. lia.
    - (* the right neighbour was merged: [t] lies inside the free block *)
      subst post.
      assert (Hbs : shrunk pre len req ((rl, Free) :: r)
                    = (pre ++ [(req, Alloc)]) ++ (rem + (rl + 8), Free) :: r).
      { unfold shrunk, merge_free, take_free_end. rewrite rev_app_distr.
        cbn [rev app take_free_front]. fold rem.
        replace (0 + rem + (rl + 8)) with (rem + (rl + 8)) by lia. reflexivity. }
      rewrite Hbs in Hrel, Hinv3.
      assert (P : In (x + req + 8, rem + (rl + 8), Free)
                    (place (first_block s1)
                       ((pre ++ [(req, Alloc)]) ++ (rem + (rl + 8), Free) :: r))).
      { apply place_mid. right. left. rewrite Hfb, size_app. cbn [size].
        f_equal. f_equal. unfold x. lia. }
      cbn [blocks] in Hb3. destruct Hb3 as (R1 & R2 & _).
      destruct (relevant_vs_block _ _ _ _ _ _ _ Hinv3 Hrel P)
        as [H|[H|[H|(_ & [H|(HT & [H|H])])]]]; try (unfold t, rem in *; lia).
      (* [t] is the next-link of the merged block *)
      assert (HT' : 8 < rem + (rl + 8)) by lia.
      pose proof (inv_complete _ _ _ Hinv3 _ _ P HT') as Hin.
      pose proof (inv_class _ _ _ Hinv3 _ _ _ P) as Hcl.
      destruct (inv_neighbours _ _ _ Hinv3 _ _ Hcl Hin)
        as (L1 & L2 & EL & _ & Hnx & _ & Hnx').
      rewrite H, Hnx. apply sla_false_pointer.
      destruct (Z.eq_dec (hd 0 L2) 0) as [->|Hne]; [reflexivity|].
      specialize (Hnx' Hne).
      assert (Hi : In (hd 0 L2) (fl3 (calculateClass_new (rem + (rl + 8)))))
        by (rewrite EL; apply in_or_app; right; right; assumption).
      destruct (inv_node _ _ _ Hinv3 _ _ Hcl Hi) as [N _].
      apply (node_mod8 (heap_start s1)); [rewrite S6|]; assumption. }
  destruct (inv_store s1 (shrunk pre len req post) fl3 t
              (sla_false (load64 (mem s1) t)) Hinv3) as [Hinv4 Hfr4].
  { rewrite S6. unfold t, x, first_block. lia. }
  { apply sla_false_range, load64_range. }
  { exact Hsame. }
  destruct (free_limbo_full _ _ _ _ _ Hinv2 Hnl1' Hnl2)
    as (_ & _ & Hfr3 & Hk3 & _).
  rewrite Hptr in Hfr3. fold s1 in Hfr3.
  change (first_block (with_mem s m4)) with (first_block s) in Hk3.
  change (merge_free (pre ++ [(req, Alloc)]) rem post)
    with (shrunk pre len req post) in Hk3.
  assert (Hlist : (pre ++ [(req, Alloc)]) ++ (rem, Limbo) :: post
                = pre ++ (req, Alloc) :: (len - req - 8, Limbo) :: post)
    by (rewrite <- app_assoc; reflexivity).
  rewrite Hlist in Hfr3, Hk3, Hinv2.
  eexists. split; [reflexivity|]. split; [|split; [|split; [|split]]].
  - eapply same_arena_trans; [exact Hsa | apply same_arena_with_mem].
  - exists fl3. exact Hinv4.
  - intros le Hle Hew. specialize (Hepi1 le Hle Hew). unfold epi_word in *.
    cbn [with_mem mem]. change (epilogue (with_mem s1 _)) with (epilogue s1).
    rewrite Hfr4; [assumption | right; right; reflexivity].
  - intros w Hw. cbn [with_mem mem].
    assert (Hgeo : w + 8 <= x \/ (x + 8 <= w /\ w + 8 <= x + req + 8)
                   \/ x + len + 16 <= w).
    { destruct Hw as (y & l & P & Hw1 & Hw2).
      assert (P1 : In (x, req, Alloc)
                     (place (first_block s)
                        (pre ++ (req, Alloc) :: (len - req - 8, Limbo) :: post)))
        by (apply place_mid; right; left; reflexivity).
      assert (P2 : In (x + req + 8, len - req - 8, Limbo)
                     (place (first_block s)
                        (pre ++ (req, Alloc) :: (len - req - 8, Limbo) :: post))).
      { apply place_mid. right. right. left. reflexivity. }
      pose proof (inv_blocks _ _ _ Hinv2) as Hbb.
      change (first_block (with_mem s m4)) with (first_block s) in Hbb.
      destruct (place_disjoint _ _ _ _ _ Hbb _ _ _ _ _ _ P P1)
        as [(E1 & E2 & _)|D1]; [subst; lia|].
      destruct (place_disjoint _ _ _ _ _ Hbb _ _ _ _ _ _ P P2)
        as [(_ & _ & E3)|D2]; [discriminate|].
      unfold x in *. lia. }
    rewrite load64_store64_ne by (unfold t; lia).
    rewrite Hfr3 by (change (first_block (with_mem s m4)) with (first_block s);
                     exact Hw).
    cbn [with_mem mem]. unfold m4.
    rewrite !construct_new_frame by (unfold rem; lia). reflexivity.
  - exact Hk3.
Qed.

(** ** The arena between two public calls *)

Definition arena_ok (s : heap) (bs : list block) : Prop :=
  heap_ok s bs /\ epi_strict s bs.

Lemma free_strict (s : heap) (pre post : list block) (len : Z) :
  arena_ok s (pre ++ (len, Alloc) :: post) ->
  arena_ok (free s (first_block s + size pre + 8)) (merge_free pre len post).
Proof.
  intros [Hok Hes]. split; [apply free_ok; assumption|].
  destruct Hok as [Hnl [fl Hinv]].
  apply Forall_app in Hnl as [Hnl1 Hnl2]. inversion Hnl2 as [|? ? _ Hnl3]; subst.
  apply inv_to_limbo in Hinv.
  apply (free_epi s pre post len 0 fl Limbo Hinv Hnl1 Hnl3 eq_refl).
  exists (last_alloc (pre ++ (len, Alloc) :: post)). split; [exact Hes|].
  intros Hne. rewrite last_alloc_mid. destruct post; [contradiction|reflexivity].
Qed.

(** Copying into the payload of an allocated block, or above the arena,
    keeps the invariant. *)
Lemma inv_memcpy_payload (s : heap) (bs : list block) (fl : Z -> list Z)
    (d src n x len : Z) :
  inv s bs fl ->
  In (x, len, Alloc) (place (first_block s) bs) ->
  x + 8 <= d -> d + n <= x + len + 8 ->
  inv (with_mem s (mem_memcpy (mem s) d src n)) bs fl /\
  load64 (mem_memcpy (mem s) d src n) (epilogue s) = load64 (mem s) (epilogue s).
Proof.
  intros Hinv P H1 H2.
  assert (Hfr : forall w, relevant s bs w ->
            load64 (mem_memcpy (mem s) d src n) w = load64 (mem s) w).
  { intros w Hw.
    destruct (relevant_vs_block _ _ _ _ _ _ _ Hinv Hw P) as [H|[H|[H|(H & _)]]];
      try discriminate; apply load64_memcpy_ne; lia. }
  split; [apply inv_frame; assumption|].
  apply Hfr. right. right. reflexivity.
Qed.

Lemma inv_memcpy_above (s : heap) (bs : list block) (fl : Z -> list Z)
    (d src n : Z) :
  inv s bs fl -> mem_brk s <= d ->
  inv (with_mem s (mem_memcpy (mem s) d src n)) bs fl.
Proof.
  intros Hinv H. apply inv_frame; [assumption|].
  intros w Hw. pose proof (relevant_bounds _ _ _ _ Hinv Hw).
  apply load64_memcpy_ne. unfold epilogue in *. lia.
Qed.

(** ** [realloc] *)

Lemma epi_strict_refused (s : heap) (bs : list block) (incr : Z) :
  epi_strict s bs -> epi_strict (refused s incr) bs.
Proof. intros H. exact H. Qed.

Lemma heap_ok_refused (s : heap) (bs : list block) (incr : Z) :
  heap_ok s bs -> heap_ok (refused s incr) bs.
Proof.
  intros [Hnl [fl Hinv]]. split; [assumption|]. exists fl.
  apply inv_log. assumption.
Qed.

(** The header of a live allocation. *)
Lemma live_header (s : heap) (bs : list block) (fl : Z -> list Z) (x len : Z) :
  inv s bs fl -> In (x, len, Alloc) (place (first_block s) bs) ->
  exists l, deconstruct_new (mem s) x = (len, true, l).
Proof.
  intros Hinv P.
  destruct (place_words _ _ _ _ _ (inv_blocks _ _ _ Hinv) _ _ _ P)
    as (c & l & Hw & Hc & _).
  cbn [cur_ok] in Hc. subst c.
  pose proof (inv_placed _ _ _ Hinv _ _ _ P).
  exists l. apply deconstruct_new_hdr; [lia | assumption].
Qed.

(** The growing path of [realloc]: allocate, copy, release. *)
Lemma realloc_grow (s : heap) (pre post : list block) (len n : Z) :
  arena_ok s (pre ++ (len, Alloc) :: post) ->
  0 < n < two64 -> len < align_new n ->
  exists k : nat, forall fuel, (k <= fuel)%nat ->
    exists r, realloc fuel s (first_block s + size pre + 8) n = Some r /\
      heap_start (snd r) = heap_start s /\
      exists bs', heap_ok (snd r) bs' /\
        (~ (two64 - 23 <= n <= two64 - 8) -> epi_strict (snd r) bs').
Proof.
  intros [Hok Hes] Hn Hgrow.
  pose proof Hok as [Hnl [fl Hinv]].
  set (bs := pre ++ (len, Alloc) :: post) in *.
  set (x := first_block s + size pre).
  assert (P : In (x, len, Alloc) (place (first_block s) bs)).
  { apply place_mid. right. left. reflexivity. }
  pose proof (inv_placed _ _ _ Hinv _ _ _ P) as (P1 & P2 & P3 & P4 & P5 & P6).
  pose proof (inv_pos _ _ _ Hinv) as Hhs.
  destruct (live_header _ _ _ _ _ Hinv P) as [lf Hd].
  assert (Hreq : 0 <= align_new n < two64).
  { unfold align_new, u64, two64. lia. }
  assert (Hfix : align_new (align_new n) = align_new n).
  { destruct (size_cases n Hn) as [(A1 & A2 & A3)|(B1 & B2)].
    - apply align_new_fixed; lia.
    - rewrite B2. reflexivity. }
  destruct (malloc_ok s bs (align_new n) Hok Hes Hreq) as [k Hk].
  exists k. intros fuel Hfuel.
  destruct (Hk fuel Hfuel) as ([p' s1] & Em & Hout).
  unfold realloc. norm_ws.
  destruct (Z.eqb_spec (x + 8) NULL) as [E|_];
    [unfold NULL, first_block in *; lia|].
  destruct (Z.eqb_spec n 0) as [|_]; [lia|].
  replace (x + 8 - 8) with x by lia. rewrite Hd.
  destruct (Z.ltb_spec (align_new n) len) as [|_]; [lia|].
  destruct (Z.ltb_spec len (align_new n)) as [_|]; [|lia].
  rewrite Em.
  destruct Hout as [(H0 & _) | [(_ & Hsm & Hres) | (Hw & Hp & Hok1 & Hbrk & Hhs1 & Hfr)]];
    [lia | |].
  - (* a regular request *)
    rewrite Hfix in *.
    destruct Hres as [(E1 & E2 & Hcap) | (Hnn & bs1 & Hap)]; cbn [fst snd] in *.
    + (* refused: the old block stays *)
      subst p' s1. rewrite Z.eqb_refl.
      eexists. split; [reflexivity|]. cbn [snd]. split; [reflexivity|].
      exists bs. split; [apply heap_ok_refused; assumption|].
      intros _. exact Hes.
    + destruct (Z.eqb_spec p' NULL) as [|_]; [contradiction|].
      eexists. split; [reflexivity|]. cbn [snd].
      destruct Hap as [[Hnl1 [fl1 Hinv1]] Hes1 Hhs' Hlo' Hbrk' Hnew _ Hkeep].
      assert (Hfb : first_block s1 = first_block s)
        by (unfold first_block; rewrite Hhs'; reflexivity).
      rewrite <- Hfb in Hnew.
      destruct (inv_memcpy_payload s1 bs1 fl1 p' (x + 8) len (p' - 8)
                  (align_new n) Hinv1 Hnew) as [Hinv2 He2]; try lia.
      specialize (Hkeep _ _ P). rewrite <- Hfb in Hkeep.
      destruct (place_split _ _ _ _ _ Hkeep) as (pre1 & post1 & Ebs & Ex).
      set (s2 := with_mem s1 (mem_memcpy (mem s1) p' (x + 8) len)) in *.
      assert (Hok2 : arena_ok s2 (pre1 ++ (len, Alloc) :: post1)).
      { rewrite <- Ebs. split.
        - split; [assumption | exists fl1; assumption].
        - unfold epi_strict. change (epilogue s2) with (epilogue s1).
          change (mem s2) with (mem_memcpy (mem s1) p' (x + 8) len).
          rewrite He2. exact Hes1. }
      apply free_strict in Hok2.
      change (first_block s2) with (first_block s1) in Hok2.
      rewrite <- Ex in Hok2.
      split.
      * destruct (same_arena_free s2 (x + 8)) as (_ & _ & _ & _ & _ & ->).
        exact Hhs'.
      * exists (merge_free pre1 len post1). split; [apply Hok2|].
        intros _. apply Hok2.
  - (* the wrapped request *)
    cbn [fst snd] in *. subst p'.
    pose proof (inv_bounds _ _ _ Hinv) as [Hbk1 Hbk2].
    destruct (Z.eqb_spec (mem_brk s) NULL) as [E|_];
      [unfold NULL, first_block, epilogue in *; lia|].
    eexists. split; [reflexivity|]. cbn [snd].
    destruct Hok1 as [_ [fl1 Hinv1]].
    assert (Hfb : first_block s1 = first_block s)
      by (unfold first_block; rewrite Hhs1; reflexivity).
    pose proof (inv_memcpy_above s1 bs fl1 (mem_brk s) (x + 8) len Hinv1) as Hinv2.
    set (s2 := with_mem s1 (mem_memcpy (mem s1) (mem_brk s) (x + 8) len)) in *.
    assert (Hok2 : heap_ok s2 bs).
    { split; [assumption|]. exists fl1. apply Hinv2. lia. }
    apply free_ok in Hok2.
    change (first_block s2) with (first_block s1) in Hok2. rewrite Hfb in Hok2.
    split.
    * destruct (same_arena_free s2 (x + 8)) as (_ & _ & _ & _ & _ & ->).
      exact Hhs1.
    * exists (merge_free pre len post). split; [exact Hok2|].
      intros Hnw. contradict Hnw.
      destruct (size_cases n Hn) as [(A1 & A2 & A3)|(B1 & B2)]; [|assumption].
      unfold two64 in *. lia.
Qed.

(** Shrink, grow or keep: [realloc] on a live block. *)
Lemma realloc_ok (s : heap) (pre post : list block) (len n : Z) :
  arena_ok s (pre ++ (len, Alloc) :: post) -> 0 <= n < two64 ->
  exists k : nat, forall fuel, (k <= fuel)%nat ->
    exists r, realloc fuel s (first_block s + size pre + 8) n = Some r /\
      heap_start (snd r) = heap_start s /\
      exists bs', heap_ok (snd r) bs' /\
        (~ (two64 - 23 <= n <= two64 - 8) -> epi_strict (snd r) bs').
Proof.
  intros Hok Hn.
  pose proof Hok as [[Hnl [fl Hinv]] Hes].
  set (x := first_block s + size pre).
  assert (P : In (x, len, Alloc)
                (place (first_block s) (pre ++ (len, Alloc) :: post))).
  { apply place_mid. right. left. reflexivity. }
  pose proof (inv_placed _ _ _ Hinv _ _ _ P) as (P1 & P2 & P3 & P4 & P5 & P6).
  pose proof (inv_pos _ _ _ Hinv) as Hhs.
  destruct (Z.eq_dec n 0) as [->|Hn0].
  { (* size 0 releases the block *)
    exists O. intros fuel _. unfold realloc.
    destruct (Z.eqb_spec (x + 8) NULL) as [E|_];
      [unfold NULL, first_block in *; lia|].
    cbn [Z.eqb]. eexists. split; [reflexivity|]. cbn [snd].
    apply free_strict in Hok. split.
    - apply (same_arena_free s (x + 8)).
    - exists (merge_free pre len post). split; [apply Hok|]. intros _. apply Hok. }
  destruct (Z.lt_trichotomy (align_new n) len) as [Hlt|[Heq|Hgt]].
  - (* shrink in place *)
    exists O. intros fuel _.
    apply Forall_app in Hnl as [Hnl1 Hnl2].
    inversion Hnl2 as [|? ? _ Hnl3]; subst.
    assert (Hreq : 8 <= align_new n /\ align_new n mod 16 = 8).
    { destruct (size_cases n) as [(A1 & A2 & A3)|(B1 & B2)]; [lia|tauto|].
      unfold two64 in *. lia. }
    destruct (realloc_shrink s pre post len (align_new n) fl fuel n Hinv Hnl1 Hnl3)
      as (s' & E & Hsa & [fl' Hinv'] & Hep & _ & _); try tauto.
    exists (x + 8, s'). split; [exact E|]. cbn [snd].
    split; [apply Hsa|].
    exists (shrunk pre len (align_new n) post). split.
    + split; [|exists fl'; assumption].
      unfold shrunk. apply no_limbo_merge_free; [|assumption].
      apply Forall_app. split; [assumption|].
      constructor; [discriminate | constructor].
    + intros _. apply (Hep 0); [reflexivity | exact Hes].
  - (* same padded size *)
    exists O. intros fuel _.
    destruct (live_header _ _ _ _ _ Hinv P) as [lf Hd].
    unfold realloc. norm_ws.
    destruct (Z.eqb_spec (x + 8) NULL) as [E|_];
      [unfold NULL, first_block in *; lia|].
    destruct (Z.eqb_spec n 0) as [|_]; [contradiction|].
    replace (x + 8 - 8) with x by lia. rewrite Hd, Heq.
    rewrite Z.ltb_irrefl.
    eexists. split; [reflexivity|]. cbn [snd]. split; [reflexivity|].
    exists (pre ++ (len, Alloc) :: post). split; [apply Hok|].
    intros _. exact Hes.
  - apply (realloc_grow s pre post len n); [assumption | lia | assumption].
Qed.

(** ** [mm_init] *)

Lemma load64_memset_zero (m : memory) (a n w : Z) :
  a <= w -> w + 8 <= a + n -> load64 (mem_memset m a 0 n) w = 0.
Proof.
  intros H1 H2. apply load_le_zero. intros y Hy.
  unfold byte_at, mem_memset. simpl in Hy.
  destruct (Z.leb_spec a y); destruct (Z.ltb_spec y (a + n)); simpl;
    try reflexivity; lia.
Qed.

(** On a fresh arena [mm_init] succeeds and leaves an empty, well-formed
    heap: 24 empty class lists, the prologue word and the epilogue. *)
Lemma mm_init_ok (s0 : heap) :
  mem_brk s0 = mem_start_brk s0 ->
  0 < mem_start_brk s0 -> mem_start_brk s0 mod 16 = 0 ->
  mem_start_brk s0 + 208 <= mem_max_addr s0 -> mem_max_addr s0 <= two64 ->
  fst (mm_init s0) = true /\ arena_ok (snd (mm_init s0)) [].
Proof.
  intros Hb Hpos Hal Hcap Hmax.
  unfold mm_init, mem_sbrk, mem_heap_lo. norm_ws.
  change (26 * 8) with 208. change (24 * 8) with 192. change (25 * 8) with 200.
  destruct (Z.leb_spec (mem_brk s0 + 208) (mem_max_addr s0)) as [_|]; [|lia].
  destruct (Z.eqb_spec (mem_brk s0) NULL) as [E|_]; [unfold NULL in E; lia|].
  cbn [fst snd mem mem_start_brk mem_brk mem_max_addr sbrk_log].
  set (hs := mem_start_brk s0) in *.
  rewrite !(construct_new_hdr _ _ 0 true true) by reflexivity.
  set (m := store64 _ (hs + 200) _).
  assert (He : load64 m (hs + 200) = hdr 0 true true).
  { unfold m. rewrite load64_store64_eq. reflexivity. }
  assert (Hheads : forall c, 0 <= c < 24 -> load64 m (hs + 8 * c) = 0).
  { intros c Hc. unfold m.
    rewrite !load64_store64_ne by lia.
    apply load64_memset_zero; lia. }
  split; [reflexivity|]. split.
  - split; [constructor|]. exists (fun _ => []).
    constructor;
      cbn [mem mem_start_brk mem_brk mem_max_addr sbrk_log initialized
           heap_start]; try reflexivity; try lia.
    + unfold first_block, epilogue. cbn. lia.
    + exists 0, true. unfold epilogue. cbn [mem_brk mem].
      replace (mem_brk s0 + 208 - 8) with (hs + 200) by lia.
      splits; [reflexivity | lia | reflexivity | exact He].
    + intros c Hc. cbn [hd links]. splits; auto using NoDup_nil.
    + intros c y _ [].
    + intros y l [].
  - unfold epi_strict, epilogue. cbn [mem_brk mem].
    replace (mem_brk s0 + 208 - 8) with (hs + 200) by lia. exact He.
Qed.

(** * The size-class director *)

(** C2, as the code has it: the class is computed from the padded size
    plus the header word (the source's [aligned_to_16]).  For every padded
    size [req] (8 modulo 16) for which that sum does not wrap, the class
    index lies in [0, 23]; sums up to 256 get the exact class
    [sum / 16 - 1] in 0..15, one size per class; sums above 256 up to
    32768 get [ceil (log2 sum) + 7] in 16..22; every larger sum gets the
    catch-all class 23. *)
Theorem class_index_spec (req : Z) :
  8 <= req -> req mod 16 = 8 -> req + 8 < two64 ->
  let sz := req + 8 in
  let c := calculateClass_new req in
  0 <= c <= 23 /\
  (sz <= 256 -> c = sz / 16 - 1 /\ 0 <= c <= 15 /\ sz = 16 * (c + 1)) /\
  (256 < sz <= 32768 ->
     c = Z.log2_up sz + 7 /\ 16 <= c <= 22 /\
     2 ^ (c - 8) < sz <= 2 ^ (c - 7)) /\
  (32768 < sz -> c = 23).
Proof.
  intros H1 H2 H3 sz c. subst sz c.
  pose proof (class_range req H1 H3) as Hc.
  split; [lia|]. split; [|split].
  - intros Hs. rewrite class_small by lia. lia.
  - intros Hs. rewrite class_mid by lia.
    pose proof (log2_up_mid (req + 8) Hs) as Hl.
    pose proof (Z.log2_up_spec (req + 8) ltac:(lia)) as Hsp.
    replace (Z.log2_up (req + 8) + 7 - 8) with (Z.pred (Z.log2_up (req + 8)))
      by lia.
    replace (Z.log2_up (req + 8) + 7 - 7) with (Z.log2_up (req + 8)) by lia.
    split; [reflexivity|]. split; [lia | exact Hsp].
  - intros Hs. apply class_large. lia.
Qed.

Lemma class_index_spec_witness :
  let c := calculateClass_new 1000 in
  0 <= c <= 23 /\
  (1008 <= 256 -> c = 1008 / 16 - 1 /\ 0 <= c <= 15 /\ 1008 = 16 * (c + 1)) /\
  (256 < 1008 <= 32768 ->
     c = Z.log2_up 1008 + 7 /\ 16 <= c <= 22 /\
     2 ^ (c - 8) < 1008 <= 2 ^ (c - 7)) /\
  (32768 < 1008 -> c = 23).
Proof.
  apply (class_index_spec 1000); [lia | reflexivity | reflexivity].
Defined.

(** C2 as stated fails at the largest padded size: the sum with the
    header word wraps to 0 and the class index is 2^64 - 1. *)
Lemma class_index_wraps :
  (two64 - 8) mod 16 = 8 /\ align_new (two64 - 8) = two64 - 8 /\
  calculateClass_new (two64 - 8) = two64 - 1 /\
  ~ (0 <= calculateClass_new (two64 - 8) <= 23).
Proof.
  split; [reflexivity|]. split; [reflexivity|]. split; [reflexivity|].
  rewrite class_of_wrap. unfold two64. lia.
Qed.

(** * The class search *)

(** The successive values of [class] at the head of the outer loop of
    [malloc] for as long as every probe misses. *)
Fixpoint probed (n : nat) (class : Z) (jumped : bool) : list Z :=
  if class <? 24 then
    match n with
    | O => []
    | S n' =>
        class :: (let '(class', jumped') := next_class class jumped in
                  probed n' class' jumped')
    end
  else [].

(** [k] consecutive class indices from [a] on. *)
Fixpoint upto (k : nat) (a : Z) : list Z :=
  match k with
  | O => []
  | S k' => a :: upto k' (a + 1)
  end.

(** A probe of [class] misses: the walk over its list reaches the end
    with no best fit recorded. *)
Definition misses (fuel : nat) (s : heap) (requiredBytes class : Z) : bool :=
  match scan fuel (mem s) class requiredBytes
          (load64 (mem s) (heap_start s + class * WORDSIZE)) 0 0 with
  | Some (EndOfList bestLength _) => bestLength =? 0
  | _ => false
  end.

Lemma class_loop_miss (n fuel : nat) (s : heap) (req cls : Z) (j : bool) :
  cls < 24 -> misses fuel s req cls = true ->
  class_loop (S n) fuel s req cls j
  = class_loop n fuel s req (fst (next_class cls j)) (snd (next_class cls j)).
Proof.
  intros Hc Hm. cbn [class_loop]. unfold misses in Hm.
  destruct (Z.ltb_spec cls 24) as [_|]; [|lia].
  destruct (scan fuel (mem s) cls req _ 0 0) as [[x l|bl ba]|];
    try discriminate.
  rewrite Hm. cbn [negb]. destruct (next_class cls j). reflexivity.
Qed.

(** When every probed class misses, the search ends in [allocateExtra]. *)
Lemma class_loop_exhausted (fuel : nat) (s : heap) (req : Z) :
  forall n cls j,
    0 <= cls -> 24 - cls <= Z.of_nat n ->
    forallb (misses fuel s req) (probed n cls j) = true ->
    class_loop n fuel s req cls j = Some (allocateExtra s req).
Proof.
  induction n as [|n IH]; intros cls j H0 Hn Hall.
  - cbn [class_loop]. destruct (Z.ltb_spec cls 24); [lia | reflexivity].
  - destruct (Z.lt_ge_cases cls 24) as [Hlt|Hge].
    + cbn [probed] in Hall. destruct (Z.ltb_spec cls 24) as [_|]; [|lia].
      cbn [forallb] in Hall. apply andb_prop in Hall as [Hm Hrest].
      rewrite class_loop_miss by assumption.
      destruct (next_class cls j) as [c' j'] eqn:En. cbn [fst snd].
      assert (Ec : c' = cls + 1 \/ c' = cls + 2).
      { unfold next_class in En.
        destruct ((cls <? 16) && negb j); inversion En; subst;
          rewrite u64_small by (unfold two64; lia); lia. }
      apply IH; [lia | lia | assumption].
    + cbn [class_loop]. destruct (Z.ltb_spec cls 24); [lia | reflexivity].
Qed.

(** The class and the flag at the head of the loop after [k] misses. *)
Fixpoint after_misses (k : nat) (class : Z) (jumped : bool) : Z * bool :=
  match k with
  | O => (class, jumped)
  | S k' =>
      let '(class', jumped') := next_class class jumped in
      after_misses k' class' jumped'
  end.

Lemma class_loop_after (fuel : nat) (s : heap) (req : Z) :
  forall k n c j,
    (k <= length (probed n c j))%nat ->
    forallb (misses fuel s req) (firstn k (probed n c j)) = true ->
    class_loop n fuel s req c j
    = class_loop (n - k) fuel s req (fst (after_misses k c j))
                 (snd (after_misses k c j)).
Proof.
  induction k as [|k IH]; intros n c j Hk Hall.
  - rewrite Nat.sub_0_r. reflexivity.
  - destruct n as [|n].
    + cbn [probed] in Hk. destruct (c <? 24); simpl in Hk; lia.
    + cbn [probed] in Hk, Hall.
      destruct (Z.ltb_spec c 24) as [Hc|Hc]; [|simpl in Hk; lia].
      cbn [firstn forallb] in Hall. apply andb_prop in Hall as [Hm Hrest].
      rewrite class_loop_miss by assumption.
      cbn [after_misses Nat.sub].
      destruct (next_class c j) as [c' j'] eqn:En. cbn [fst snd].
      apply IH; [simpl in Hk; lia | exact Hrest].
Qed.

Lemma after_misses_closed (c0 : Z) (k : nat) :
  0 <= c0 < 24 -> (k <= length (probed 24 c0 false))%nat ->
  after_misses k c0 false
  = (if (k =? 0)%nat then c0
     else if c0 <? 16 then c0 + Z.of_nat k + 1 else c0 + Z.of_nat k,
     negb (k =? 0)%nat && (c0 <? 16)).
Proof.
  intros H.
  assert (Hc : exists i : nat, (i < 24)%nat /\ c0 = Z.of_nat i)
    by (exists (Z.to_nat c0); lia).
  destruct Hc as (i & Hi & ->). clear H. revert k.
  do 24 (destruct i as [|i];
         [ intros k Hk;
           do 25 (destruct k as [|k];
                  [first [ vm_compute; reflexivity
                         | exfalso; cbv in Hk; lia ] |]);
           exfalso; cbv in Hk; lia
         | ]).
  lia.
Qed.

(** C4: the class search of one [malloc] call.  [malloc] on an
    initialised heap with a positive size is the class loop started at the
    class of the padded size with the skip not yet used.  A probe that
    finds a block ends the loop there; a probe that misses moves the loop
    to the next class.  From class [c0], after [k] misses the loop stands
    at [c0 + k + 1] with the skip used when [c0 < 16], and at [c0 + k]
    with the skip unused when [16 <= c0]: the first miss below class 16
    advances by two, every other miss by one.  The classes probed while
    every probe misses are therefore [c0], then [c0 + 2] when [c0 < 16],
    then every following index up to 23; once class 23 has missed the
    loop ends and the arena is grown. *)
Theorem class_search_steps (c0 : Z) :
  0 <= c0 < 24 ->
  probed 24 c0 false
  = (if c0 <? 16 then c0 :: upto (Z.to_nat (22 - c0)) (c0 + 2)
     else upto (Z.to_nat (24 - c0)) c0) /\
  last (probed 24 c0 false) 0 = 23 /\
  (forall c, 0 <= c < 16 -> next_class c false = (c + 2, true)) /\
  (forall c, 16 <= c < 24 -> next_class c false = (c + 1, false)) /\
  (forall c, 0 <= c < 24 -> next_class c true = (c + 1, true)) /\
  (forall fuel s req,
     forallb (misses fuel s req) (probed 24 c0 false) = true ->
     class_loop 24 fuel s req c0 false = Some (allocateExtra s req)) /\
  (forall fuel s size,
     initialized s = true -> 0 < size ->
     malloc fuel s size
     = class_loop 24 fuel s (align_new size)
                  (calculateClass_new (align_new size)) false) /\
  (forall fuel s req n c j,
     c < 24 -> misses fuel s req c = true ->
     class_loop (S n) fuel s req c j
     = class_loop n fuel s req (fst (next_class c j))
                  (snd (next_class c j))) /\
  (forall fuel s req n c j x l,
     c < 24 ->
     scan fuel (mem s) c req (load64 (mem s) (heap_start s + c * WORDSIZE))
          0 0 = Some (Take x l) ->
     class_loop (S n) fuel s req c j
     = Some (allocateWithinHeap s x req l c)) /\
  (forall fuel s req n c j bl ba,
     c < 24 -> bl <> 0 ->
     scan fuel (mem s) c req (load64 (mem s) (heap_start s + c * WORDSIZE))
          0 0 = Some (EndOfList bl ba) ->
     class_loop (S n) fuel s req c j
     = Some (allocateWithinHeap s ba req bl c)) /\
  (forall fuel s req n c j,
     24 <= c -> class_loop n fuel s req c j = Some (allocateExtra s req)) /\
  forall fuel s req (k : nat),
    (k <= length (probed 24 c0 false))%nat ->
    forallb (misses fuel s req) (firstn k (probed 24 c0 false)) = true ->
    class_loop 24 fuel s req c0 false
    = class_loop (24 - k) fuel s req
        (if (k =? 0)%nat then c0
         else if c0 <? 16 then c0 + Z.of_nat k + 1 else c0 + Z.of_nat k)
        (negb (k =? 0)%nat && (c0 <? 16)).
Proof.
  intros H.
  assert (Hk : exists k : nat, (k < 24)%nat /\ c0 = Z.of_nat k)
    by (exists (Z.to_nat c0); lia).
  destruct Hk as (k & Hk & E).
  split; [|split; [|split; [|split; [|split; [|split; [|split; [|split;
    [|split; [|split; [|split]]]]]]]]]].
  - subst c0. do 24 (destruct k as [|k]; [vm_compute; reflexivity|]). lia.
  - subst c0. do 24 (destruct k as [|k]; [vm_compute; reflexivity|]). lia.
  - intros c Hc. unfold next_class.
    destruct (Z.ltb_spec c 16) as [_|]; [|lia]. cbn [negb andb].
    rewrite u64_small by (unfold two64; lia). reflexivity.
  - intros c Hc. unfold next_class.
    destruct (Z.ltb_spec c 16) as [|_]; [lia|]. cbn [negb andb].
    rewrite u64_small by (unfold two64; lia). reflexivity.
  - intros c Hc. unfold next_class. rewrite andb_false_r.
    rewrite u64_small by (unfold two64; lia). reflexivity.
  - intros fuel s req Hall. apply class_loop_exhausted; [lia | lia | assumption].
  - intros fuel s size Hi Hs. unfold malloc. rewrite Hi. cbn [negb orb].
    destruct (Z.leb_spec size 0) as [|_]; [lia | reflexivity].
  - intros fuel s req n c j Hc Hm. apply class_loop_miss; assumption.
  - intros fuel s req n c j x l Hc Hs. cbn [class_loop].
    destruct (Z.ltb_spec c 24) as [_|]; [|lia]. rewrite Hs. reflexivity.
  - intros fuel s req n c j bl ba Hc Hbl Hs. cbn [class_loop].
    destruct (Z.ltb_spec c 24) as [_|]; [|lia]. rewrite Hs.
    destruct (Z.eqb_spec bl 0) as [|_]; [contradiction | reflexivity].
  - intros fuel s req n c j Hc.
    destruct n; cbn [class_loop];
      (destruct (Z.ltb_spec c 24) as [|_]; [lia | reflexivity]).
  - intros fuel s req i Hi Hall.
    rewrite (class_loop_after fuel s req i 24 c0 false Hi Hall).
    rewrite (after_misses_closed c0 i H Hi). reflexivity.
Qed.

Lemma class_nonneg (req : Z) : 0 <= calculateClass_new req.
Proof.
  unfold calculateClass_new.
  destruct (_ <=? 256); [unfold u64, two64; lia|].
  destruct (_ <=? 32768); [unfold u64, two64; lia | lia].
Qed.

(** A freshly initialised heap whose provider has no room left. *)
Definition heap_full : heap :=
  snd (mm_init (mkHeap (fun _ => 0) 4096 4096 (4096 + 208) [] false 0)).

(** C6: when every probed class misses and the provider refuses the
    growth request, [malloc] returns null; memory (class heads, block
    metadata, epilogue) and the allocator's globals are unchanged, and the
    provider has seen exactly one request. *)
Theorem growth_refused (fuel : nat) (s : heap) (size : Z) :
  initialized s = true -> 0 < size ->
  forallb (misses fuel s (align_new size))
          (probed 24 (calculateClass_new (align_new size)) false) = true ->
  mem_max_addr s < mem_brk s + u64 (align_new size + 8) ->
  exists s',
    malloc fuel s size = Some (NULL, s') /\
    mem s' = mem s /\ mem_brk s' = mem_brk s /\
    mem_start_brk s' = mem_start_brk s /\ mem_max_addr s' = mem_max_addr s /\
    heap_start s' = heap_start s /\ initialized s' = initialized s /\
    sbrk_log s' = u64 (align_new size + 8) :: sbrk_log s.
Proof.
  intros Hi Hsz Hall Hcap.
  exists (refused s (u64 (align_new size + 8))).
  split; [|cbn; tauto].
  unfold malloc. rewrite Hi. cbn [negb orb].
  destruct (Z.leb_spec size 0) as [|_]; [lia|].
  rewrite class_loop_exhausted; try assumption.
  - rewrite allocateExtra_refused by assumption. reflexivity.
  - apply class_nonneg.
  - pose proof (class_nonneg (align_new size)). lia.
Qed.

Lemma growth_refused_witness :
  exists s',
    malloc 1 heap_full 16 = Some (NULL, s') /\
    mem s' = mem heap_full /\ mem_brk s' = mem_brk heap_full /\
    mem_start_brk s' = mem_start_brk heap_full /\
    mem_max_addr s' = mem_max_addr heap_full /\
    heap_start s' = heap_start heap_full /\
    initialized s' = initialized heap_full /\
    sbrk_log s' = u64 (align_new 16 + 8) :: sbrk_log heap_full.
Proof.
  apply (growth_refused 1 heap_full 16);
    [reflexivity | lia | vm_compute; reflexivity | vm_compute; reflexivity].
Defined.

(** The length word of a listed block is the length of a placed free
    block. *)
Lemma listed_length (s : heap) (bs : list block) (fl : Z -> list Z)
    (c y : Z) :
  inv s bs fl -> 0 <= c < 24 -> In y (fl c) ->
  In (y, getLength (mem s) y, Free) (place (first_block s) bs).
Proof.
  intros Hinv Hc Hy.
  destruct (inv_listed _ _ _ Hinv c y Hc Hy) as (len & P & Hlen & _).
  destruct (place_words _ _ _ _ _ (inv_blocks _ _ _ Hinv) _ _ _ P)
    as (cc & l & Hw & _ & _).
  pose proof (inv_placed _ _ _ Hinv _ _ _ P).
  rewrite (getLength_hdr (mem s) y len cc l) by (assumption || lia).
  exact P.
Qed.

(** C3: a probe of a class whose head pointer is not null.  In an exact
    class (index below 16) the head block is taken whatever its length.
    In a range class the list [fl cls] is walked from its head: the first
    block of exactly the required length is taken as soon as it is met;
    with no such block, the one taken has the smallest length among those
    longer than required; with no fitting block the search moves on. *)
Theorem class_list_choice (s : heap) (bs : list block) (fl : Z -> list Z)
    (req cls : Z) (j : bool) (n : nat) :
  inv s bs fl -> 0 <= req -> 0 <= cls < 24 ->
  load64 (mem s) (heap_start s + cls * WORDSIZE) <> 0 ->
  let head := load64 (mem s) (heap_start s + cls * WORDSIZE) in
  let len y := getLength (mem s) y in
  (fl cls <> [] /\ hd 0 (fl cls) = head /\
   forall y, In y (fl cls) -> In (y, len y, Free) (place (first_block s) bs))
  /\
  exists k : nat, forall fuel, (k <= fuel)%nat ->
    let go := class_loop (S n) fuel s req cls j in
    (cls < 16 -> go = Some (allocateWithinHeap s head req (len head) cls)) /\
    (16 <= cls ->
       ((exists y, In y (fl cls) /\ len y = req) ->
        exists L1 x L2, fl cls = L1 ++ x :: L2 /\ len x = req /\
          (forall y, In y L1 -> len y <> req) /\
          go = Some (allocateWithinHeap s x req req cls)) /\
       ((forall y, In y (fl cls) -> len y <> req) ->
        (exists y, In y (fl cls) /\ req < len y) ->
        exists x, In x (fl cls) /\ req < len x /\
          (forall y, In y (fl cls) -> req < len y -> len x <= len y) /\
          go = Some (allocateWithinHeap s x req (len x) cls)) /\
       ((forall y, In y (fl cls) -> len y < req) ->
        go = class_loop n fuel s req (cls + 1) j)).
Proof.
  intros Hinv Hreq Hcls Hhead head len.
  destruct (inv_links _ _ _ Hinv cls Hcls) as (Hh & Hl & Hnd).
  assert (Eh : head = hd 0 (fl cls)).
  { unfold head. rewrite <- Hh. f_equal. unfold WORDSIZE. lia. }
  assert (Hnz : forall x, In x (fl cls) -> x <> 0).
  { intros x Hx. destruct (inv_node _ _ _ Hinv cls x Hcls Hx) as [N _].
    apply (node_pos (heap_start s)); [apply (inv_pos _ _ _ Hinv) | assumption]. }
  split.
  { split; [|split; [symmetry; exact Eh|]].
    - intros E. apply Hhead. fold head. rewrite Eh, E. reflexivity.
    - intros y Hy. apply (listed_length s bs fl cls); assumption. }
  exists (S (length (fl cls))). intros fuel Hfuel go.
  destruct fuel as [|f]; [lia|].
  split.
  - intros Hex. unfold go. cbn [class_loop].
    destruct (Z.ltb_spec cls 24) as [_|]; [|lia].
    fold head. rewrite scan_exact_class by assumption. reflexivity.
  - intros Hrg.
    assert (Hgo : go = match scan (S f) (mem s) cls req head 0 0 with
                       | None => None
                       | Some (Take x l) =>
                           Some (allocateWithinHeap s x req l cls)
                       | Some (EndOfList bl ba) =>
                           if negb (bl =? 0)
                           then Some (allocateWithinHeap s ba req bl cls)
                           else class_loop n (S f) s req (cls + 1) j
                       end).
    { unfold go. cbn [class_loop].
      destruct (Z.ltb_spec cls 24) as [_|]; [|lia]. fold head.
      destruct (scan (S f) (mem s) cls req head 0 0) as [[x l|bl ba]|];
        try reflexivity.
      destruct (negb (bl =? 0)); [reflexivity|].
      unfold next_class. destruct (Z.ltb_spec cls 16) as [|_]; [lia|].
      cbn [andb]. rewrite u64_small by (unfold two64; lia). reflexivity. }
    rewrite Eh in Hgo.
    destruct (scan_range (mem s) cls req Hrg Hreq (fl cls) 0 (S f) 0 0
                Hl Hnz ltac:(lia))
      as [(L1 & x & L2 & E1 & E2 & E3 & E4) | (Hnone & bl' & ba' & E1 & E2)].
    + rewrite E4 in Hgo. split; [|split].
      * intros _. exists L1, x, L2. auto.
      * intros Hno. exfalso. apply (Hno x); [|exact E2].
        rewrite E1. apply in_or_app. right. left. reflexivity.
      * intros Hall. exfalso.
        assert (Hx : In x (fl cls))
          by (rewrite E1; apply in_or_app; right; left; reflexivity).
        specialize (Hall x Hx). unfold len in Hall. lia.
    + rewrite E1 in Hgo.
      split; [|split].
      * intros (y & Hy & Ey). exfalso. exact (Hnone y Hy Ey).
      * intros _ (y & Hy & Ly).
        destruct E2 as [(-> & -> & Hb) | (H1 & H2 & H3 & _ & H5)].
        -- destruct (Hb y Hy Ly) as [Hb0 _]. contradiction.
        -- exists ba'. subst bl'.
           destruct (Z.eqb_spec (getLength (mem s) ba') 0) as [E0|_]; [lia|].
           cbn [negb] in Hgo. auto.
      * intros Hall.
        destruct E2 as [(-> & -> & _) | (H1 & H2 & H3 & _)].
        -- exact Hgo.
        -- specialize (Hall ba' H1). unfold len in Hall. lia.
Qed.

(** * Worked heaps *)

Definition result_ptr (r : option (Z * heap)) : Z :=
  match r with Some (p, _) => p | None => NULL end.

Definition result_state (d : heap) (r : option (Z * heap)) : heap :=
  match r with Some (_, s) => s | None => d end.

(** [malloc] on a heap with nothing to reuse grows the arena. *)
Lemma malloc_grows (fuel : nat) (s : heap) (bs : list block) (size : Z) :
  arena_ok s bs -> 0 < size -> size + 24 <= two64 ->
  forallb (misses fuel s (align_new size))
          (probed 24 (calculateClass_new (align_new size)) false) = true ->
  mem_brk s + (align_new size + 8) <= mem_max_addr s ->
  result_ptr (malloc fuel s size) = epilogue s + 8 /\
  arena_ok (result_state s (malloc fuel s size))
           (bs ++ [(align_new size, Alloc)]) /\
  first_block (result_state s (malloc fuel s size)) = first_block s.
Proof.
  intros [[Hnl [fl Hinv]] Hes] Hsz Hmax Hall Hcap.
  destruct (align_new_ok size) as (A1 & A2 & A3 & A4); [lia | lia |].
  unfold malloc. rewrite (inv_init _ _ _ Hinv). cbn [negb orb].
  destruct (Z.leb_spec size 0) as [|_]; [lia|].
  rewrite class_loop_exhausted; try assumption.
  2:{ apply class_nonneg. }
  2:{ pose proof (class_nonneg (align_new size)). lia. }
  destruct (allocateExtra_ok s bs fl (align_new size) Hinv Hes Hnl A1 A2 A4 Hcap)
    as (E1 & Hinv' & Hes' & Hbrk & Hfr).
  destruct (allocateExtra s (align_new size)) as [p s'] eqn:E.
  cbn [result_ptr result_state fst snd] in *.
  split; [exact E1|]. split.
  - split; [|exact Hes']. split; [|exists fl; exact Hinv'].
    apply Forall_app. split; [assumption|].
    constructor; [discriminate | constructor].
  - unfold first_block. f_equal.
    pose proof (allocateExtra_fields s (align_new size)) as F.
    rewrite E in F. apply F.
Qed.

(** Four small allocations, then the first and the third released. *)
Definition heapA : heap := result_state heap1 (malloc 1 heap1 16).
Definition heapB : heap := result_state heapA (malloc 1 heapA 16).
Definition heapC : heap := result_state heapB (malloc 1 heapB 16).
Definition heapD : heap := result_state heapC (malloc 1 heapC 16).
Definition heapE : heap := free heapD 4304.
Definition heapF : heap := free heapE 4368.

Lemma heap1_ok : arena_ok heap1 [].
Proof.
  apply (mm_init_ok heap0); first [reflexivity | vm_compute; discriminate].
Qed.

Lemma heapA_ok : arena_ok heapA [(24, Alloc)].
Proof.
  apply (malloc_grows 1 heap1 [] 16 heap1_ok);
    [lia | unfold two64; lia | vm_compute; reflexivity
     | vm_compute; discriminate].
Qed.

Lemma heapB_ok : arena_ok heapB [(24, Alloc); (24, Alloc)].
Proof.
  apply (malloc_grows 1 heapA [(24, Alloc)] 16 heapA_ok);
    [lia | unfold two64; lia | vm_compute; reflexivity
     | vm_compute; discriminate].
Qed.

Lemma heapC_ok : arena_ok heapC [(24, Alloc); (24, Alloc); (24, Alloc)].
Proof.
  apply (malloc_grows 1 heapB [(24, Alloc); (24, Alloc)] 16 heapB_ok);
    [lia | unfold two64; lia | vm_compute; reflexivity
     | vm_compute; discriminate].
Qed.

Lemma heapD_ok :
  arena_ok heapD [(24, Alloc); (24, Alloc); (24, Alloc); (24, Alloc)].
Proof.
  apply (malloc_grows 1 heapC [(24, Alloc); (24, Alloc); (24, Alloc)] 16
           heapC_ok);
    [lia | unfold two64; lia | vm_compute; reflexivity
     | vm_compute; discriminate].
Qed.

Lemma heapE_ok :
  arena_ok heapE [(24, Free); (24, Alloc); (24, Alloc); (24, Alloc)].
Proof.
  pose proof (free_strict heapD [] [(24, Alloc); (24, Alloc); (24, Alloc)] 24
                heapD_ok) as H.
  replace (first_block heapD + size [] + 8) with 4304 in H
    by (vm_compute; reflexivity).
  exact H.
Qed.

Lemma heapF_ok :
  arena_ok heapF [(24, Free); (24, Alloc); (24, Free); (24, Alloc)].
Proof.
  pose proof (free_strict heapE [(24, Free); (24, Alloc)] [(24, Alloc)] 24
                heapE_ok) as H.
  replace (first_block heapE + size [(24, Free); (24, Alloc)] + 8) with 4368
    in H by (vm_compute; reflexivity).
  exact H.
Qed.

(** * Release *)

(** C1: releasing a live block of a well-formed arena leaves a
    well-formed arena in which no two neighbours are both free.  The
    released block, a free left neighbour and a free right neighbour
    (whichever exist) end as one free block, found at the start of the
    leftmost of them and spanning them all, headers included. *)
Theorem free_coalesces (s : heap) (pre post : list block) (len : Z) :
  heap_ok s (pre ++ (len, Alloc) :: post) ->
  let s' := free s (first_block s + size pre + 8) in
  let bs' := merge_free pre len post in
  heap_ok s' bs' /\ no_adj bs' /\
  bs' = fst (take_free_end pre)
        ++ (snd (take_free_end pre) + len + fst (take_free_front post), Free)
        :: snd (take_free_front post) /\
  (forall r ll rl r', pre = r ++ [(ll, Free)] -> post = (rl, Free) :: r' ->
     bs' = r ++ (ll + 8 + len + (rl + 8), Free) :: r') /\
  (forall x l, In (x, l, Free) (place (first_block s') bs') ->
     exists lf, load64 (mem s') x = hdr l false lf /\
                load64 (mem s') (x + l) = hdr l false lf).
Proof.
  intros Hok s' bs'.
  pose proof (free_ok _ _ _ _ Hok) as Hok'. fold s' bs' in Hok'.
  split; [exact Hok'|].
  destruct Hok' as [_ [fl' Hinv']].
  split; [apply (inv_noadj _ _ _ Hinv')|]. split; [|split].
  - unfold bs', merge_free.
    destruct (take_free_end pre), (take_free_front post). reflexivity.
  - intros r ll rl r' -> ->. unfold bs', merge_free, take_free_end.
    rewrite rev_app_distr. cbn [rev app take_free_front].
    rewrite rev_involutive. reflexivity.
  - intros x l Hin.
    destruct (place_words _ _ _ _ _ (inv_blocks _ _ _ Hinv') _ _ _ Hin)
      as (c & lf & Hw & Hc & Hf).
    cbn [cur_ok] in Hc. subst c. exists lf. split; [exact Hw|].
    apply Hf. reflexivity.
Qed.

Lemma free_coalesces_witness :
  heap_ok (free heapF (first_block heapF + size [(24, Free)] + 8))
          [(88, Free); (24, Alloc)] /\
  no_adj [(88, Free); (24, Alloc)].
Proof.
  pose proof (free_coalesces heapF [(24, Free)] [(24, Free); (24, Alloc)] 24
                (proj1 heapF_ok)) as H.
  cbv zeta in H. split; [exact (proj1 H) | exact (proj1 (proj2 H))].
Defined.


Lemma class_search_steps_witness :
  probed 24 3 false = [3; 5; 6; 7; 8; 9; 10; 11; 12; 13; 14; 15; 16; 17; 18;
                       19; 20; 21; 22; 23] /\
  probed 24 17 false = [17; 18; 19; 20; 21; 22; 23] /\
  class_loop 24 1 heapF 104 6 false = class_loop 21 1 heapF 104 10 true /\
  class_loop 24 1 heapF 600 17 false = class_loop 22 1 heapF 600 19 false.
Proof.
  split; [|split; [|split]].
  - exact (proj1 (class_search_steps 3 ltac:(lia))).
  - exact (proj1 (class_search_steps 17 ltac:(lia))).
  - destruct (class_search_steps 6 ltac:(lia))
      as (_ & _ & _ & _ & _ & _ & _ & _ & _ & _ & _ & H).
    apply (H 1%nat heapF 104 3%nat).
    + vm_compute. lia.
    + vm_compute. reflexivity.
  - destruct (class_search_steps 17 ltac:(lia))
      as (_ & _ & _ & _ & _ & _ & _ & _ & _ & _ & _ & H).
    apply (H 1%nat heapF 600 2%nat).
    + vm_compute. lia.
    + vm_compute. reflexivity.
Defined.

(** The same arena after one more pair of calls, the second with a size
    whose padding wraps, then a request that grows the arena and its
    release. *)
Definition heapJ : heap := free heapA (result_ptr (malloc 1 heap1 16)).
Definition heapK : heap := result_state heapJ (malloc 1 heapJ (two64 - 8)).
Definition heapL : heap := result_state heapK (malloc 1 heapK 100).
Definition heapM : heap := free heapL (result_ptr (malloc 1 heapK 100)).

(** C1 (counterexample): [mm_init], [a = malloc 16], [free a],
    [malloc (2^64 - 8)], [b = malloc 100], [free b].  The request of
    [2^64 - 8] bytes pads to [2^64 - 8], takes no class and grows the
    arena by [0] bytes: it rewrites the epilogue in place with its left
    flag set, although the block to its left is free.  The block of [b]
    inherits that flag, so its release does not look to the left.  When
    [free b] returns, the block at 4296 (24 bytes) and the block that
    starts right after it, at 4296 + 24 + 8 (104 bytes), are both free,
    each with a matching footer and each at the head of its class list. *)
Lemma free_leaves_free_neighbours :
  initialized heap1 = true /\
  result_ptr (malloc 1 heap1 16) = 4304 /\
  result_ptr (malloc 1 heapJ (two64 - 8)) = 4336 /\
  deconstruct_new (mem heapK) (epilogue heapK)
  = (two64 - 8, true, true) /\
  result_ptr (malloc 1 heapK 100) = 4336 /\
  initialized heapL = true /\
  first_block heapM = 4296 /\ epilogue heapM = 4440 /\
  deconstruct_new (mem heapM) 4296 = (24, false, true) /\
  load64 (mem heapM) (4296 + 24) = load64 (mem heapM) 4296 /\
  deconstruct_new (mem heapM) (4296 + 24 + 8) = (104, false, true) /\
  load64 (mem heapM) (4296 + 24 + 8 + 104)
  = load64 (mem heapM) (4296 + 24 + 8) /\
  load64 (mem heapM) (heap_start heapM + 1 * WORDSIZE) = 4296 /\
  load64 (mem heapM) (heap_start heapM + 6 * WORDSIZE) = 4296 + 24 + 8.
Proof. vm_compute. repeat split; reflexivity. Qed.

(** A large block released next to a live one: a range-class list of
    one block. *)
Definition heapG : heap := result_state heap1 (malloc 1 heap1 1000).
Definition heapH : heap := result_state heapG (malloc 1 heapG 16).
Definition heapI : heap := free heapH 4304.

Lemma heapG_ok : arena_ok heapG [(1000, Alloc)].
Proof.
  apply (malloc_grows 1 heap1 [] 1000 heap1_ok);
    [lia | unfold two64; lia | vm_compute; reflexivity
     | vm_compute; discriminate].
Qed.

Lemma heapH_ok : arena_ok heapH [(1000, Alloc); (24, Alloc)].
Proof.
  apply (malloc_grows 1 heapG [(1000, Alloc)] 16 heapG_ok);
    [lia | unfold two64; lia | vm_compute; reflexivity
     | vm_compute; discriminate].
Qed.

Lemma heapI_ok : arena_ok heapI [(1000, Free); (24, Alloc)].
Proof.
  pose proof (free_strict heapH [] [(24, Alloc)] 1000 heapH_ok) as H.
  replace (first_block heapH + size [] + 8) with 4304 in H
    by (vm_compute; reflexivity).
  exact H.
Qed.

Lemma class_list_choice_witness :
  (exists fl,
    inv heapF [(24, Free); (24, Alloc); (24, Free); (24, Alloc)] fl /\
    hd 0 (fl 1) = 4360 /\
    exists k : nat, forall fuel, (k <= fuel)%nat ->
      class_loop 1 fuel heapF 24 1 false
      = Some (allocateWithinHeap heapF 4360 24 (getLength (mem heapF) 4360) 1))
  /\
  (exists (k : nat) (x : Z), forall fuel, (k <= fuel)%nat ->
    504 < getLength (mem heapI) x /\
    class_loop 1 fuel heapI 504 17 false
    = Some (allocateWithinHeap heapI x 504 (getLength (mem heapI) x) 17)).
Proof.
  split.
  - destruct heapF_ok as [[_ [fl Hinv]] _]. exists fl.
    split; [exact Hinv|].
    destruct (class_list_choice heapF _ fl 24 1 false 0 Hinv)
      as [(_ & Hhd & _) [k Hk]];
      [lia | lia | vm_compute; discriminate |].
    split; [rewrite Hhd; vm_compute; reflexivity|].
    exists k. intros fuel Hfuel.
    destruct (Hk fuel Hfuel) as [Hex _].
    rewrite Hex by lia. vm_compute (load64 _ _). reflexivity.
  - destruct heapI_ok as [[_ [fl Hinv]] _].
    destruct (class_list_choice heapI _ fl 504 17 false 0 Hinv)
      as [(Hne & Hhd & Hpl) [k Hk]];
      [lia | lia | vm_compute; discriminate |].
    assert (Hlen : forall y, In y (fl 17) -> getLength (mem heapI) y = 1000).
    { intros y Hy. specialize (Hpl y Hy).
      change (first_block heapI) with 4296 in Hpl.
      remember (getLength (mem heapI) y) as g eqn:Eg. clear Eg.
      cbn [place In] in Hpl.
      destruct Hpl as [E|[E|[]]]; [|discriminate E].
      injection E as _ E. symmetry. exact E. }
    assert (Hfit : exists y, In y (fl 17) /\ 504 < getLength (mem heapI) y).
    { destruct (fl 17) as [|y r] eqn:E; [contradiction|].
      exists y. split; [left; reflexivity|].
      rewrite (Hlen y); [lia | left; reflexivity]. }
    assert (Hno : forall y, In y (fl 17) -> getLength (mem heapI) y <> 504).
    { intros y Hy. rewrite (Hlen y Hy). lia. }
    destruct (Hk k (Nat.le_refl k)) as [_ Hrg].
    destruct (Hrg ltac:(lia)) as (_ & Hbest & _).
    destruct (Hbest Hno Hfit) as (x & Hx & _).
    exists k, x. intros fuel Hfuel.
    destruct (Hk fuel Hfuel) as [_ Hrg'].
    destruct (Hrg' ltac:(lia)) as (_ & Hbest' & _).
    destruct (Hbest' Hno Hfit) as (x' & Hx' & Hl' & _ & Hgo).
    assert (Ex : forall y, In y (fl 17) -> y = 4296).
    { intros y Hy. specialize (Hpl y Hy).
      change (first_block heapI) with 4296 in Hpl.
      remember (getLength (mem heapI) y) as g eqn:Eg. clear Eg.
      cbn [place In] in Hpl.
      destruct Hpl as [E|[E|[]]]; [|discriminate E].
      injection E as E _. symmetry. exact E. }
    rewrite (Ex x Hx). rewrite (Ex x' Hx') in Hl', Hgo. split; assumption.
Defined.

(** * Calls before initialisation *)

(** An arena that was never initialised and holds two stale words: a
    word that reads as an allocated block of length 0 and its
    successor. *)
Definition heap_raw : heap :=
  mkHeap (store64 (store64 (fun _ => 0) 4104 3) 4112 1)
         4096 (4096 + 256) (4096 + 65536) [] false 0.


(** * Zeroed allocation *)


Lemma malloc_grows_eq (fuel : nat) (s : heap) (size : Z) :
  initialized s = true -> 0 < size ->
  forallb (misses fuel s (align_new size))
          (probed 24 (calculateClass_new (align_new size)) false) = true ->
  malloc fuel s size = Some (allocateExtra s (align_new size)).
Proof.
  intros Hi Hsz Hall. unfold malloc. rewrite Hi. cbn [negb orb].
  destruct (Z.leb_spec size 0) as [|_]; [lia|].
  apply class_loop_exhausted; [apply class_nonneg | | assumption].
  pose proof (class_nonneg (align_new size)). lia.
Qed.


(** * Further properties of the code *)

(** ** The block codec *)

Lemma construct_new_byte (m : memory) (p len : Z) (c l : bool) (a : Z) :
  a < p \/ p + 8 <= a -> construct_new m p len c l a = m a.
Proof.
  intros H. unfold construct_new. cbv zeta. unfold store64.
  apply store_le_out. simpl. lia.
Qed.

(** A header written by [construct_new] is read back unchanged by
    [deconstruct_new], [getLength] and [getLeftAllocated], for every
    length that is a multiple of 8 below 2^64; no byte outside the eight
    bytes of the word is written. *)
Theorem header_round_trip (m : memory) (p len : Z) (c l : bool) :
  len mod 8 = 0 -> 0 <= len < two64 ->
  let m' := construct_new m p len c l in
  deconstruct_new m' p = (len, c, l) /\
  getLength m' p = len /\ getLeftAllocated m' p = l /\
  forall a, a < p \/ p + 8 <= a -> m' a = m a.
Proof.
  intros H8 Hr m'.
  assert (E : load64 m' p = hdr len c l).
  { unfold m'. rewrite construct_new_hdr by assumption.
    apply load64_store64_eq'; [reflexivity | apply hdr_range; assumption]. }
  split; [apply deconstruct_new_hdr; assumption|].
  split; [apply (getLength_hdr m' p len c l); assumption|].
  split; [apply (getLeftAllocated_hdr m' p len c l); assumption|].
  intros a Ha. apply construct_new_byte. exact Ha.
Qed.

Lemma header_round_trip_witness :
  deconstruct_new (construct_new (fun _ => 0) 4096 48 true false) 4096
  = (48, true, false) /\
  getLength (construct_new (fun _ => 0) 4096 48 true false) 4096 = 48 /\
  getLeftAllocated (construct_new (fun _ => 0) 4096 48 true false) 4096
  = false /\
  forall a, a < 4096 \/ 4096 + 8 <= a ->
    construct_new (fun _ => 0) 4096 48 true false a = 0.
Proof.
  apply (header_round_trip (fun _ => 0) 4096 48 true false);
    [reflexivity | unfold two64; lia].
Defined.

(** [setLeftAllocated] keeps the length and the current-allocated flag of
    the word it rewrites and sets the left-allocated flag as asked,
    whatever the word held; bytes outside the word are not written. *)
Theorem set_left_flag (m : memory) (p : Z) (b : bool) :
  deconstruct_new (setLeftAllocated m p b) p
  = (fst (fst (deconstruct_new m p)), snd (fst (deconstruct_new m p)), b) /\
  getLength (setLeftAllocated m p b) p = getLength m p /\
  getLeftAllocated (setLeftAllocated m p b) p = b /\
  forall a, a < p \/ p + 8 <= a -> setLeftAllocated m p b a = m a.
Proof.
  unfold setLeftAllocated.
  assert (Hd : deconstruct_new m p
               = (getLength m p, load64 m p mod 2 =? 1, getLeftAllocated m p))
    by reflexivity.
  rewrite Hd. cbn [fst snd].
  pose proof (load64_range m p) as Hr.
  assert (H8 : getLength m p mod 8 = 0)
    by (unfold getLength, WORDSIZE; lia).
  assert (Hl : 0 <= getLength m p < two64)
    by (unfold getLength, WORDSIZE, two64 in *; lia).
  destruct (header_round_trip m p (getLength m p) (load64 m p mod 2 =? 1) b H8 Hl)
    as (A & B & C & D).
  split; [exact A|]. split; [exact B|]. split; [exact C | exact D].
Qed.

(** ** Padding of request sizes *)

(** For every request of 1 to 2^64 - 24 bytes the padded size is the
    least value at or above the request that is 8 modulo 16, so that
    payload plus header word is a multiple of 16; padding a padded size
    changes nothing. *)
Theorem align_new_rounds (size : Z) :
  1 <= size -> size + 24 <= two64 ->
  size <= align_new size < size + 16 /\
  align_new size mod 16 = 8 /\ (align_new size + 8) mod 16 = 0 /\
  8 <= align_new size /\
  align_new (align_new size) = align_new size.
Proof.
  intros H1 H2. destruct (align_new_ok size H1 H2) as (A & B & C & D).
  split; [exact C|]. split; [exact B|]. split; [lia|]. split; [exact A|].
  apply align_new_fixed; lia.
Qed.

Lemma align_new_rounds_witness :
  100 <= align_new 100 < 100 + 16 /\
  align_new 100 mod 16 = 8 /\ (align_new 100 + 8) mod 16 = 0 /\
  8 <= align_new 100 /\
  align_new (align_new 100) = align_new 100.
Proof. apply (align_new_rounds 100); [lia | unfold two64; lia]. Defined.

(** [align] of the source: round up to a multiple of 16. *)
Definition align (x : Z) : Z :=
  u64 (ALIGNMENT * (u64 (x + ALIGNMENT - 1) / ALIGNMENT)).

(** [aligned] of the source. *)
Definition aligned (p : Z) : bool := align p =? p.

(** [in_heap] of the source. *)
Definition in_heap (s : heap) (p : Z) : bool :=
  (p <=? mem_heap_hi s) && (p >=? mem_heap_lo s).

(** [aligned] answers true exactly on the multiples of 16, over the whole
    range of 64-bit addresses: above 2^64 - 16, where [align] wraps to 0,
    there is no multiple of 16.  Below that bound [align] rounds up to
    the next multiple of 16, and [align_new] is [align] shifted by the
    header word. *)
Theorem aligned_exact (p : Z) :
  0 <= p < two64 ->
  (aligned p = true <-> p mod 16 = 0) /\
  (p + 16 <= two64 -> p <= align p < p + 16 /\ align p mod 16 = 0) /\
  (two64 < p + 16 -> align p = 0) /\
  (p + 24 <= two64 -> align_new p = align (p + 8) - 8).
Proof.
  intros Hp. unfold aligned, align, align_new, u64, ALIGNMENT, WORDSIZE, two64 in *.
  split; [|split; [|split]].
  - split; intros H.
    + apply Z.eqb_eq in H. lia.
    + apply Z.eqb_eq. lia.
  - intros H. lia.
  - intros H. lia.
  - intros H. lia.
Qed.

Lemma aligned_exact_witness :
  (aligned 4304 = true <-> 4304 mod 16 = 0) /\
  (4304 + 16 <= two64 -> 4304 <= align 4304 < 4304 + 16 /\
                         align 4304 mod 16 = 0) /\
  (two64 < 4304 + 16 -> align 4304 = 0) /\
  (4304 + 24 <= two64 -> align_new 4304 = align (4304 + 8) - 8).
Proof. apply (aligned_exact 4304). unfold two64. lia. Defined.

(** ** Initialisation *)

(** On a provider that has handed out nothing yet, starts at a positive
    multiple of 16 and has room for 208 bytes, [mm_init] returns true: the
    arena is the 24 class heads (all null), the prologue word and the
    epilogue word (both length 0, allocated, left allocated), and it is a
    well-formed heap with no block. *)
Theorem mm_init_fresh (s0 : heap) :
  mem_brk s0 = mem_start_brk s0 ->
  0 < mem_start_brk s0 -> mem_start_brk s0 mod 16 = 0 ->
  mem_start_brk s0 + 208 <= mem_max_addr s0 -> mem_max_addr s0 <= two64 ->
  exists s,
    mm_init s0 = (true, s) /\
    initialized s = true /\ heap_start s = mem_start_brk s0 /\
    mem_heap_lo s = mem_start_brk s0 /\
    mem_heap_hi s = mem_start_brk s0 + 207 /\
    (forall c, 0 <= c < 24 -> load64 (mem s) (heap_start s + 8 * c) = 0) /\
    load64 (mem s) (heap_start s + 192) = 3 /\
    load64 (mem s) (heap_start s + 200) = 3 /\
    heap_ok s [] /\ epi_strict s [].
Proof.
  intros Hb Hpos Hal Hcap Hmax.
  destruct (mm_init_ok s0 Hb Hpos Hal Hcap Hmax) as [Ht [Hok Hes]].
  destruct (mm_init s0) as [r s] eqn:E. cbn [fst snd] in *. subst r.
  exists s. split; [reflexivity|].
  unfold mm_init, mem_sbrk, mem_heap_lo in E. norm_ws.
  change (26 * 8) with 208 in E. change (24 * 8) with 192 in E.
  change (25 * 8) with 200 in E.
  destruct (Z.leb_spec (mem_brk s0 + 208) (mem_max_addr s0)) as [_|]; [|lia].
  destruct (Z.eqb_spec (mem_brk s0) NULL) as [E0|_];
    [unfold NULL in E0; lia|].
  cbn [fst snd mem mem_start_brk mem_brk mem_max_addr sbrk_log] in E.
  injection E as <-.
  cbn [initialized heap_start mem mem_heap_lo mem_heap_hi mem_start_brk mem_brk].
  unfold mem_heap_lo, mem_heap_hi.
  cbn [initialized heap_start mem mem_start_brk mem_brk].
  rewrite !(construct_new_hdr _ _ 0 true true) by reflexivity.
  splits; try reflexivity; try lia; try assumption.
  - intros c Hc. rewrite !load64_store64_ne by lia.
    apply load64_memset_zero; lia.
  - rewrite load64_store64_ne by lia. rewrite load64_store64_eq. reflexivity.
  - rewrite load64_store64_eq. reflexivity.
Qed.

Lemma mm_init_fresh_witness :
  exists s,
    mm_init heap0 = (true, s) /\
    initialized s = true /\ heap_start s = mem_start_brk heap0 /\
    mem_heap_lo s = mem_start_brk heap0 /\
    mem_heap_hi s = mem_start_brk heap0 + 207 /\
    (forall c, 0 <= c < 24 -> load64 (mem s) (heap_start s + 8 * c) = 0) /\
    load64 (mem s) (heap_start s + 192) = 3 /\
    load64 (mem s) (heap_start s + 200) = 3 /\
    heap_ok s [] /\ epi_strict s [].
Proof.
  apply (mm_init_fresh heap0);
    first [reflexivity | vm_compute; discriminate].
Defined.

(** ** The heap checker *)

(** The walk of [mm_checkheap] from [curr_addr] to the epilogue; [None]
    when [fuel] steps were not enough. *)
Fixpoint checkheap_loop (fuel : nat) (s : heap) (curr_addr : Z)
    : option bool :=
  match fuel with
  | O => None
  | S fuel' =>
      if curr_addr <? mem_heap_hi s - 7 then
        if negb (aligned (curr_addr + WORDSIZE)) then Some false
        else if negb (in_heap s curr_addr) then Some false
        else
          let '(length, _, _) := deconstruct_new (mem s) curr_addr in
          checkheap_loop fuel' s (curr_addr + u64 (length + WORDSIZE))
      else Some true
  end.

Definition mm_checkheap (fuel : nat) (s : heap) (lineno : Z) : option bool :=
  checkheap_loop fuel s (heap_start s + 25 * WORDSIZE).

Lemma checkheap_walk (s : heap) :
  0 <= heap_start s -> heap_start s mod 16 = 0 ->
  mem_start_brk s <= heap_start s -> epilogue s + 8 <= two64 ->
  forall bs a pa fuel,
    blocks (mem s) a pa bs (epilogue s) ->
    first_block s <= a -> (a - first_block s) mod 16 = 0 ->
    (length bs < fuel)%nat ->
    checkheap_loop fuel s a = Some true.
Proof.
  intros Hhs Hal Hlo Hep.
  induction bs as [|[len st] r IH]; intros a pa fuel Hb Ha Hm Hf.
  - cbn [blocks] in Hb. subst a.
    destruct fuel as [|f]; [simpl in Hf; lia|]. cbn [checkheap_loop].
    unfold mem_heap_hi, epilogue in *.
    destruct (Z.ltb_spec (mem_brk s - 8) (mem_brk s - 1 - 7)); [lia|reflexivity].
  - pose proof (blocks_size _ _ _ _ _ Hb) as Hsz.
    pose proof (blocks_size_nonneg _ _ _ _ _ Hb) as Hnn.
    cbn [blocks] in Hb. destruct Hb as (H1 & H2 & (c & l & Hw & _ & _) & _ & Hr).
    pose proof (blocks_size_nonneg _ _ _ _ _ Hr) as Hnr.
    cbn [size] in Hsz, Hnn.
    destruct fuel as [|f]; [simpl in Hf; lia|]. cbn [checkheap_loop].
    unfold mem_heap_hi, epilogue, first_block in *.
    destruct (Z.ltb_spec a (mem_brk s - 1 - 7)) as [_|]; [|lia].
    assert (Eal : aligned (a + WORDSIZE) = true).
    { unfold aligned, align, u64, ALIGNMENT, WORDSIZE, two64 in *.
      apply Z.eqb_eq. lia. }
    rewrite Eal. cbn [negb].
    assert (Ein : in_heap s a = true).
    { unfold in_heap, mem_heap_hi, mem_heap_lo.
      apply andb_true_intro. split; [apply Z.leb_le | apply Z.geb_le]; lia. }
    rewrite Ein. cbn [negb].
    rewrite (deconstruct_new_hdr (mem s) a len c l) by (assumption || lia).
    rewrite u64_small by (unfold WORDSIZE, two64 in *; lia).
    replace (a + (len + WORDSIZE)) with (a + len + 8) by (unfold WORDSIZE; lia).
    apply (IH _ (next_pa st)); try assumption; try lia.
    simpl in Hf. lia.
Qed.

(** [mm_checkheap] accepts every well-formed heap: walking the headers
    from the first block it finds every payload 16-byte aligned and every
    header inside the arena, and stops at the epilogue after as many
    steps as there are blocks. *)
Theorem checkheap_accepts (s : heap) (bs : list block) (lineno : Z)
    (fuel : nat) :
  heap_ok s bs -> (length bs < fuel)%nat ->
  mm_checkheap fuel s lineno = Some true.
Proof.
  intros [_ [fl Hinv]] Hf. unfold mm_checkheap.
  pose proof (inv_bounds _ _ _ Hinv) as [B1 B2].
  apply (checkheap_walk s) with (bs := bs) (pa := Some true);
    try assumption.
  - apply (inv_pos _ _ _ Hinv).
  - apply (inv_al _ _ _ Hinv).
  - rewrite (inv_lo _ _ _ Hinv). lia.
  - apply (inv_blocks _ _ _ Hinv).
  - unfold first_block, WORDSIZE. lia.
  - unfold first_block, WORDSIZE.
    replace (heap_start s + 25 * 8 - (heap_start s + 200)) with 0 by lia.
    reflexivity.
Qed.

Lemma checkheap_accepts_witness : mm_checkheap 5 heapF 0 = Some true.
Proof.
  apply (checkheap_accepts heapF _ 0 5 (proj1 heapF_ok)). simpl. lia.
Defined.

(** ** Payload bytes *)

Lemma load_le_bytes (m m' : memory) (n : nat) : forall a,
  load_le m' a n = load_le m a n ->
  forall x, a <= x < a + Z.of_nat n -> byte_at m' x = byte_at m x.
Proof.
  induction n as [|k IH]; intros a H x Hx; [simpl in Hx; lia|].
  cbn [load_le] in H.
  assert (B1 : 0 <= byte_at m' a < 256) by (unfold byte_at; lia).
  assert (B2 : 0 <= byte_at m a < 256) by (unfold byte_at; lia).
  assert (E1 : byte_at m' a = byte_at m a) by lia.
  assert (E2 : load_le m' (a + 1) k = load_le m (a + 1) k) by lia.
  destruct (Z.eq_dec x a) as [->|Hne]; [exact E1|].
  apply (IH (a + 1) E2). lia.
Qed.

(** Equal payload words are equal payload bytes. *)
Lemma payload_bytes (m m' : memory) (y l : Z) :
  l mod 8 = 0 ->
  (forall w, y + 8 <= w -> w + 8 <= y + l + 8 -> (w - y) mod 8 = 0 ->
             load64 m' w = load64 m w) ->
  forall a, y + 8 <= a < y + l + 8 -> byte_at m' a = byte_at m a.
Proof.
  intros Hl H a Ha.
  apply (load_le_bytes m m' 8 (y + 8 + 8 * ((a - y - 8) / 8))).
  - apply H; lia.
  - change (Z.of_nat 8) with 8. lia.
Qed.

(** Releasing a live block, with what it leaves alone. *)
Lemma free_full (s : heap) (pre post : list block) (len : Z) :
  arena_ok s (pre ++ (len, Alloc) :: post) ->
  let s' := free s (first_block s + size pre + 8) in
  arena_ok s' (merge_free pre len post) /\
  same_arena s s' /\
  (forall w, in_payload s (pre ++ (len, Limbo) :: post) w ->
     load64 (mem s') w = load64 (mem s) w) /\
  (forall y l,
     In (y, l, Alloc) (place (first_block s) (pre ++ (len, Limbo) :: post)) ->
     In (y, l, Alloc) (place (first_block s) (merge_free pre len post))).
Proof.
  intros Hok s'. split; [apply free_strict; exact Hok|].
  split; [apply same_arena_free|].
  destruct Hok as [[Hnl [fl Hinv]] _].
  apply Forall_app in Hnl as [Hnl1 Hnl2]. inversion Hnl2 as [|? ? _ Hnl3]; subst.
  apply inv_to_limbo in Hinv.
  destruct (free_limbo_full s pre post len fl Hinv Hnl1 Hnl3)
    as (_ & _ & A & B & _).
  split; assumption.
Qed.

(** Another allocated block is on one side of a given one. *)
Lemma alloc_other (pre post : list block) (len : Z) (st : status)
    (a y l : Z) :
  In (y, l, Alloc) (place a (pre ++ (len, Alloc) :: post)) ->
  y <> a + size pre ->
  In (y, l, Alloc) (place a (pre ++ (len, st) :: post)).
Proof.
  intros Hin Hne. apply place_mid in Hin. apply place_mid.
  destruct Hin as [H|[H|H]]; [left; exact H | | right; right; exact H].
  inversion H. lia.
Qed.

(** ** Resizing keeps the content *)

(** [realloc] of a live block to [n] bytes, for [n] from 1 to 2^64 - 24:
    what it returns, what the arena looks like afterwards, which blocks
    stay allocated and which bytes the result holds. *)
Lemma realloc_full (s : heap) (pre post : list block)
    (len n : Z) :
  arena_ok s (pre ++ (len, Alloc) :: post) -> 0 < n -> n + 24 <= two64 ->
  let p := first_block s + size pre + 8 in
  exists k : nat, forall fuel, (k <= fuel)%nat ->
    exists q s', realloc fuel s p n = Some (q, s') /\
      heap_start s' = heap_start s /\
      (q = NULL ->
         len < n /\ mem s' = mem s /\
         arena_ok s' (pre ++ (len, Alloc) :: post)) /\
      (q <> NULL ->
         (q = p <-> align_new n <= len) /\
         (exists bs', arena_ok s' bs' /\
            In (q - 8, align_new n, Alloc) (place (first_block s') bs') /\
            forall y l,
              In (y, l, Alloc)
                 (place (first_block s) (pre ++ (len, Alloc) :: post)) ->
              y <> p - 8 ->
              In (y, l, Alloc) (place (first_block s') bs')) /\
         forall i, 0 <= i < Z.min n len ->
           byte_at (mem s') (q + i) = byte_at (mem s) (p + i)).
Proof.
  intros Hok Hn Hmax p.
  pose proof Hok as [[Hnl [fl Hinv]] Hes].
  set (bs := pre ++ (len, Alloc) :: post) in *.
  set (x := first_block s + size pre).
  assert (P : In (x, len, Alloc) (place (first_block s) bs)).
  { apply place_mid. right. left. reflexivity. }
  pose proof (inv_placed _ _ _ Hinv _ _ _ P) as (P1 & P2 & P3 & P4 & P5 & P6).
  pose proof (inv_pos _ _ _ Hinv) as Hhs.
  destruct (align_new_ok n) as (A1 & A2 & A3 & A4); [lia | lia |].
  assert (Hpn : p <> NULL) by (unfold p, NULL, first_block in *; lia).
  destruct (live_header _ _ _ _ _ Hinv P) as [lf Hd].
  destruct (Z.lt_trichotomy (align_new n) len) as [Hlt|[Heq|Hgt]].
  - (* shrink in place *)
    exists O. intros fuel _.
    pose proof Hnl as Hnl'.
    apply Forall_app in Hnl' as [Hnl1 Hnl2].
    inversion Hnl2 as [|? ? _ Hnl3]; subst.
    destruct (realloc_shrink s pre post len (align_new n) fl fuel n Hinv Hnl1 Hnl3)
      as (s' & E & Hsa & [fl' Hinv'] & Hep & HF & HK);
      try assumption; try reflexivity; try lia.
    destruct Hsa as (S1 & S2 & S3 & S4 & S5 & S6).
    exists p, s'. split; [exact E|]. split; [exact S6|].
    split; [intros; contradiction|]. intros _.
    assert (Hfb : first_block s' = first_block s)
      by (unfold first_block; congruence).
    assert (Px : In (x, align_new n, Alloc)
                   (place (first_block s)
                      (pre ++ (align_new n, Alloc)
                           :: (len - align_new n - 8, Limbo) :: post)))
      by (apply place_mid; right; left; reflexivity).
    split; [split; [lia | reflexivity]|]. split.
    + exists (shrunk pre len (align_new n) post). split; [split|].
      * split; [|exists fl'; assumption].
        unfold shrunk. apply no_limbo_merge_free; [|assumption].
        apply Forall_app. split; [assumption|].
        constructor; [discriminate | constructor].
      * apply (Hep 0); [reflexivity | exact Hes].
      * split.
        -- rewrite Hfb. replace (p - 8) with x by (unfold p, x; lia).
           apply HK. exact Px.
        -- intros y l Hy Hne. rewrite Hfb. apply HK.
           unfold bs in Hy. apply place_mid in Hy. apply place_mid.
           destruct Hy as [Hy|[Hy|Hy]].
           ++ left. exact Hy.
           ++ exfalso. inversion Hy. unfold p, x in *. lia.
           ++ right. right. cbn [place]. right.
              replace (first_block s + size pre + align_new n + 8
                       + (len - align_new n - 8) + 8)
                with (first_block s + size pre + len + 8) by lia.
              exact Hy.
    + intros i Hi.
      apply (payload_bytes (mem s) (mem s') x (align_new n)); [lia | | unfold p, x; lia].
      intros w W1 W2 _. apply HF. exists x, (align_new n).
      split; [exact Px | lia].
  - (* the padded size is the block's size *)
    exists O. intros fuel _. exists p, s.
    split.
    { unfold realloc. norm_ws.
      destruct (Z.eqb_spec p NULL) as [|_]; [contradiction|].
      destruct (Z.eqb_spec n 0) as [|_]; [lia|].
      replace (p - 8) with x by (unfold p, x; lia). rewrite Hd, Heq.
      rewrite Z.ltb_irrefl. reflexivity. }
    split; [reflexivity|].
    split; [intros; contradiction|]. intros _.
    split; [split; [lia | reflexivity]|]. split.
    + exists bs. split; [exact Hok|]. split.
      * replace (p - 8) with x by (unfold p, x; lia). rewrite Heq. exact P.
      * intros y l Hy _. exact Hy.
    + intros i Hi. reflexivity.
  - (* grow: allocate, copy, release *)
    assert (Hreq : 0 <= align_new n < two64) by lia.
    assert (Hfix : align_new (align_new n) = align_new n)
      by (apply align_new_fixed; lia).
    assert (Hlen_n : len < n) by lia.
    destruct (malloc_ok s bs (align_new n) (proj1 Hok) Hes Hreq) as [k Hk].
    exists k. intros fuel Hfuel.
    destruct (Hk fuel Hfuel) as ([p' s1] & Em & Hout).
    assert (Er : realloc fuel s p n
                 = if p' =? NULL then Some (NULL, s1)
                   else Some (p', free (with_mem s1
                                          (mem_memcpy (mem s1) p' p len)) p)).
    { unfold realloc. norm_ws.
      destruct (Z.eqb_spec p NULL) as [|_]; [contradiction|].
      destruct (Z.eqb_spec n 0) as [|_]; [lia|].
      replace (p - 8) with x by (unfold p, x; lia). rewrite Hd.
      destruct (Z.ltb_spec (align_new n) len) as [|_]; [lia|].
      destruct (Z.ltb_spec len (align_new n)) as [_|]; [|lia].
      rewrite Em. reflexivity. }
    rewrite Er.
    destruct Hout as [(H0 & _) | [(_ & _ & Hres) | (Hw & _)]];
      [lia | | unfold two64 in *; lia].
    rewrite Hfix in Hres.
    destruct Hres as [(E1 & E2 & Hcap) | (Hnn & bs1 & Hap)]; cbn [fst snd] in *.
    + (* refused *)
      subst p' s1. rewrite Z.eqb_refl.
      exists NULL, (refused s (align_new n + 8)).
      split; [reflexivity|]. split; [reflexivity|].
      split; [|intros H; contradiction].
      intros _. split; [exact Hlen_n|]. split; [reflexivity|].
      split; [apply heap_ok_refused; apply Hok | exact Hes].
    + destruct (Z.eqb_spec p' NULL) as [|_]; [contradiction|].
      eexists p', _. split; [reflexivity|].
      destruct Hap as [[Hnl1 [fl1 Hinv1]] Hes1 Hhs' Hlo' Hbrk' Hnew Hfresh
                         Hkeep Hframe].
      split.
      { destruct (same_arena_free
                    (with_mem s1 (mem_memcpy (mem s1) p' p len)) p)
          as (_ & _ & _ & _ & _ & S6).
        rewrite S6. exact Hhs'. }
      split; [intros; contradiction|]. intros _.
      assert (Hfb : first_block s1 = first_block s)
        by (unfold first_block; rewrite Hhs'; reflexivity).
      assert (Hpx : p' - 8 <> x) by (intros E; rewrite E in Hfresh; exact (Hfresh _ P)).
      rewrite <- Hfb in Hnew.
      destruct (inv_memcpy_payload s1 bs1 fl1 p' p len (p' - 8)
                  (align_new n) Hinv1 Hnew) as [Hinv2 He2]; try lia.
      pose proof (Hkeep _ _ P) as Pk. rewrite <- Hfb in Pk.
      destruct (place_split _ _ _ _ _ Pk) as (pre1 & post1 & Ebs & Ex).
      set (m2 := mem_memcpy (mem s1) p' p len) in *.
      set (s2 := with_mem s1 m2) in *.
      assert (Hok2 : arena_ok s2 (pre1 ++ (len, Alloc) :: post1)).
      { rewrite <- Ebs. split.
        - split; [assumption | exists fl1; assumption].
        - unfold epi_strict. change (epilogue s2) with (epilogue s1).
          change (mem s2) with m2. rewrite He2. exact Hes1. }
      destruct (free_full s2 pre1 post1 len Hok2) as (Hok3 & Hsa3 & Hfr3 & Hk3).
      change (first_block s2) with (first_block s1) in Hok3, Hfr3, Hk3.
      rewrite <- Ex in Hok3, Hfr3.
      replace (x + 8) with p in Hok3, Hfr3 by (unfold p, x; lia).
      assert (Hnew2 : In (p' - 8, align_new n, Alloc)
                        (place (first_block s1) (pre1 ++ (len, Limbo) :: post1))).
      { pose proof Hnew as Hnew'. rewrite Ebs in Hnew'.
        apply alloc_other; [exact Hnew' | rewrite <- Ex; exact Hpx]. }
      split; [split; [intros E; exfalso; apply Hpx; unfold p, x in *; lia | lia]|].
      split.
      * exists (merge_free pre1 len post1). split; [exact Hok3|].
        destruct (same_arena_free s2 p) as (_ & _ & _ & _ & _ & S6).
        assert (Hfb3 : first_block (free s2 p) = first_block s1)
          by (unfold first_block; rewrite S6; reflexivity).
        rewrite Hfb3. split; [apply Hk3; exact Hnew2|].
        intros y l Hy Hne. apply Hk3.
        pose proof (Hkeep _ _ Hy) as Hy1. rewrite <- Hfb in Hy1.
        rewrite Ebs in Hy1.
        apply alloc_other; [exact Hy1 | rewrite <- Ex; unfold p in Hne; lia].
      * intros i Hi.
        assert (B1 : byte_at (mem (free s2 p)) (p' + i) = byte_at m2 (p' + i)).
        { apply (payload_bytes m2 (mem (free s2 p)) (p' - 8) (align_new n));
            [lia | | lia].
          intros w W1 W2 _. apply Hfr3. exists (p' - 8), (align_new n).
          split; [exact Hnew2 | lia]. }
        rewrite B1. unfold m2, byte_at, mem_memcpy.
        destruct (Z.leb_spec p' (p' + i)); [|lia].
        destruct (Z.ltb_spec (p' + i) (p' + len)); [|lia]. cbn [andb].
        replace (p + (p' + i - p')) with (p + i) by lia.
        apply (payload_bytes (mem s) (mem s1) x len); [lia | | unfold p, x; lia].
        intros w W1 W2 _. apply Hframe. exists x, len. split; [exact P | lia].
Qed.

(** C8: [realloc] of a live block to [n] bytes, for [n] from 1 to
    2^64 - 24, on a well-formed arena.  The call returns (given fuel for
    the list walks).  A null result means the block had to grow and the
    provider refused: memory is untouched and the block is still
    allocated.  Otherwise the result is
    the old pointer exactly when the padded size fits the block, the
    arena is well formed with an allocated block of the padded size at
    the result, and the first [min n len] bytes there are those the old
    payload held. *)
Theorem realloc_keeps_content (s : heap) (pre post : list block)
    (len n : Z) :
  arena_ok s (pre ++ (len, Alloc) :: post) -> 0 < n -> n + 24 <= two64 ->
  let p := first_block s + size pre + 8 in
  exists k : nat, forall fuel, (k <= fuel)%nat ->
    exists q s', realloc fuel s p n = Some (q, s') /\
      (q = NULL ->
         len < n /\ mem s' = mem s /\
         arena_ok s' (pre ++ (len, Alloc) :: post)) /\
      (q <> NULL ->
         (q = p <-> align_new n <= len) /\
         (exists bs', arena_ok s' bs' /\
            In (q - 8, align_new n, Alloc) (place (first_block s') bs')) /\
         forall i, 0 <= i < Z.min n len ->
           byte_at (mem s') (q + i) = byte_at (mem s) (p + i)).
Proof.
  intros Hok Hn Hmax p.
  destruct (realloc_full s pre post len n Hok Hn Hmax) as [k Hk].
  exists k. intros fuel Hfuel.
  destruct (Hk fuel Hfuel) as (q & s' & E & _ & H0 & H1).
  exists q, s'. split; [exact E|]. split; [exact H0|].
  intros Hq. destruct (H1 Hq) as (A & (bs' & B1 & B2 & _) & C).
  split; [exact A|]. split; [|exact C].
  exists bs'. split; assumption.
Qed.

Lemma realloc_keeps_content_witness :
  let p := first_block heapD + size [(24, Alloc)] + 8 in
  exists k : nat, forall fuel, (k <= fuel)%nat ->
    exists q s', realloc fuel heapD p 100 = Some (q, s') /\
      (q = NULL ->
         24 < 100 /\ mem s' = mem heapD /\
         arena_ok s' ([(24, Alloc)] ++ (24, Alloc) :: [(24, Alloc); (24, Alloc)])) /\
      (q <> NULL ->
         (q = p <-> align_new 100 <= 24) /\
         (exists bs', arena_ok s' bs' /\
            In (q - 8, align_new 100, Alloc) (place (first_block s') bs')) /\
         forall i, 0 <= i < Z.min 100 24 ->
           byte_at (mem s') (q + i) = byte_at (mem heapD) (p + i)).
Proof.
  apply (realloc_keeps_content heapD [(24, Alloc)] [(24, Alloc); (24, Alloc)]
           24 100 heapD_ok); [lia | unfold two64; lia].
Defined.

(** ** Allocation *)

(** [malloc] of 1 to 2^64 - 24 bytes on a well-formed heap returns (given
    fuel for the list walks).  A null result means that no listed block
    was taken and the provider refused to grow: only the provider's log
    changed.  Otherwise the pointer is a multiple of 16, the [size] bytes
    it points to lie inside the arena, the arena is well formed with a new
    allocated block of the padded size at the pointer, every block that
    was allocated still is, lies apart from the new one, and has its
    payload bytes unchanged. *)
Theorem malloc_serves (s : heap) (bs : list block) (size : Z) :
  arena_ok s bs -> 0 < size -> size + 24 <= two64 ->
  exists k : nat, forall fuel, (k <= fuel)%nat ->
    exists p s', malloc fuel s size = Some (p, s') /\
      (p = NULL ->
         s' = refused s (align_new size + 8) /\
         mem_max_addr s < mem_brk s + (align_new size + 8)) /\
      (p <> NULL ->
         p mod 16 = 0 /\ mem_heap_lo s' <= p /\ p + size - 1 <= mem_heap_hi s' /\
         exists bs', arena_ok s' bs' /\ first_block s' = first_block s /\
           In (p - 8, align_new size, Alloc) (place (first_block s') bs') /\
           forall y l, In (y, l, Alloc) (place (first_block s) bs) ->
             In (y, l, Alloc) (place (first_block s') bs') /\
             (y + l + 8 <= p - 8 \/ p + align_new size <= y) /\
             forall a, y + 8 <= a < y + l + 8 ->
               byte_at (mem s') a = byte_at (mem s) a).
Proof.
  intros [Hok Hes] Hsz Hmax.
  destruct (align_new_ok size) as (A1 & A2 & A3 & A4); [lia | lia |].
  destruct (malloc_ok s bs size Hok Hes) as [k Hk]; [unfold two64 in *; lia|].
  exists k. intros fuel Hfuel.
  destruct (Hk fuel Hfuel) as ([p s'] & Em & Hout).
  exists p, s'. split; [exact Em|].
  destruct Hout as [(H0 & _) | [(_ & _ & Hres) | (Hw & _)]];
    [lia | | unfold two64 in *; lia].
  destruct Hres as [(E1 & E2 & Hcap) | (Hnn & bs1 & Hap)]; cbn [fst snd] in *.
  - split; [intros _; split; assumption | intros H; contradiction].
  - split; [intros H; contradiction|]. intros _.
    destruct Hap as [Hok1 Hes1 Hhs' Hlo' Hbrk' Hnew Hfresh Hkeep Hframe].
    pose proof Hok1 as [Hnl1 [fl1 Hinv1]].
    destruct Hok as [Hnl [fl Hinv]].
    assert (Hfb : first_block s' = first_block s)
      by (unfold first_block; rewrite Hhs'; reflexivity).
    rewrite <- Hfb in Hnew.
    pose proof (inv_placed _ _ _ Hinv1 _ _ _ Hnew) as (N1 & N2 & N3 & N4 & N5 & N6).
    pose proof (inv_al _ _ _ Hinv1) as Hal1.
    pose proof (inv_lo _ _ _ Hinv1) as Hlo1.
    pose proof (inv_pos _ _ _ Hinv1) as Hpos1.
    unfold mem_heap_lo, mem_heap_hi, first_block, epilogue in *.
    split; [lia|]. split; [lia|]. split; [lia|].
    exists bs1. split; [split; assumption|]. split; [lia|].
    split; [exact Hnew|].
    intros y l Hin. pose proof (Hkeep _ _ Hin) as Hin1.
    replace (heap_start s + 200) with (heap_start s' + 200) in Hin1 by lia.
    split; [exact Hin1|]. split.
    + destruct (place_disjoint _ _ _ _ _ (inv_blocks _ _ _ Hinv1) _ _ _ _ _ _
                  Hin1 Hnew) as [(E & _ & _)|D].
      * exfalso. apply (Hfresh l). rewrite <- E. exact Hin.
      * lia.
    + pose proof (inv_placed _ _ _ Hinv _ _ _ Hin) as Hp.
      apply payload_bytes; [lia|].
      intros w W1 W2 _. apply Hframe. exists y, l. split; [exact Hin | lia].
Qed.

Lemma malloc_serves_witness :
  exists k : nat, forall fuel, (k <= fuel)%nat ->
    exists p s', malloc fuel heapF 16 = Some (p, s') /\
      (p = NULL ->
         s' = refused heapF (align_new 16 + 8) /\
         mem_max_addr heapF < mem_brk heapF + (align_new 16 + 8)) /\
      (p <> NULL ->
         p mod 16 = 0 /\ mem_heap_lo s' <= p /\ p + 16 - 1 <= mem_heap_hi s' /\
         exists bs', arena_ok s' bs' /\ first_block s' = first_block heapF /\
           In (p - 8, align_new 16, Alloc) (place (first_block s') bs') /\
           forall y l,
             In (y, l, Alloc)
                (place (first_block heapF)
                   [(24, Free); (24, Alloc); (24, Free); (24, Alloc)]) ->
             In (y, l, Alloc) (place (first_block s') bs') /\
             (y + l + 8 <= p - 8 \/ p + align_new 16 <= y) /\
             forall a, y + 8 <= a < y + l + 8 ->
               byte_at (mem s') a = byte_at (mem heapF) a).
Proof.
  apply (malloc_serves heapF _ 16 heapF_ok); [lia | unfold two64; lia].
Defined.

Lemma allocateExtra_log (s : heap) (req : Z) :
  sbrk_log (snd (allocateExtra s req)) = u64 (req + 8) :: sbrk_log s.
Proof.
  unfold allocateExtra, mem_sbrk. norm_ws.
  destruct (mem_brk s + u64 (req + 8) <=? mem_max_addr s); cbn [fst snd].
  - destruct (mem_brk s =? sbrk_failed); reflexivity.
  - destruct (sbrk_failed =? sbrk_failed); reflexivity.
Qed.

(** For the request sizes 2^64 - 23 to 2^64 - 8 the padded size is
    2^64 - 8, the class index is out of range, no list is walked and the
    provider is asked for 0 bytes: [malloc] returns the address one past
    the arena, a non-null multiple of 16 that points to no byte of the
    arena, and the arena has not grown. *)
Theorem malloc_wrapped (s : heap) (bs : list block) (size : Z) (fuel : nat) :
  heap_ok s bs -> two64 - 23 <= size <= two64 - 8 ->
  exists s',
    malloc fuel s size = Some (mem_brk s, s') /\
    mem_brk s <> NULL /\ mem_brk s mod 16 = 0 /\
    mem_brk s' = mem_brk s /\ mem_heap_hi s' < mem_brk s /\
    sbrk_log s' = 0 :: sbrk_log s /\
    heap_ok s' bs.
Proof.
  intros [Hnl [fl Hinv]] Hsz.
  destruct (allocateExtra_wrap s bs fl Hinv) as (E1 & Hinv' & Hb & Hfr).
  pose proof (inv_brk_mod _ _ _ Hinv) as [Hbm Hbl].
  pose proof (inv_bounds _ _ _ Hinv) as [B1 B2].
  pose proof (inv_pos _ _ _ Hinv) as Hhs.
  pose proof (inv_al _ _ _ Hinv) as Hal.
  exists (snd (allocateExtra s (two64 - 8))).
  split.
  - unfold malloc. rewrite (inv_init _ _ _ Hinv). cbn [negb orb].
    destruct (Z.leb_spec size 0) as [|_]; [unfold two64 in *; lia|].
    rewrite align_new_wrap by assumption. rewrite class_of_wrap.
    cbn [class_loop].
    destruct (Z.ltb_spec (two64 - 1) 24) as [Hlt|_];
      [unfold two64 in Hlt; lia|].
    rewrite <- E1. destruct (allocateExtra s (two64 - 8)). reflexivity.
  - rewrite allocateExtra_log. unfold mem_heap_hi. rewrite Hb.
    unfold first_block, epilogue, NULL in *.
    splits; try lia.
    + reflexivity.
    + split; [assumption | exists fl; assumption].
Qed.

Lemma malloc_wrapped_witness :
  exists s',
    malloc 0 heap1 (two64 - 8) = Some (mem_brk heap1, s') /\
    mem_brk heap1 <> NULL /\ mem_brk heap1 mod 16 = 0 /\
    mem_brk s' = mem_brk heap1 /\ mem_heap_hi s' < mem_brk heap1 /\
    sbrk_log s' = 0 :: sbrk_log heap1 /\
    heap_ok s' [].
Proof.
  apply (malloc_wrapped heap1 [] (two64 - 8) 0 (proj1 heap1_ok)).
  unfold two64. lia.
Defined.

(** ** Release and the other blocks *)

(** [free] of a live block leaves every other allocated block allocated,
    at the same place and of the same length, and does not write to its
    payload. *)
Theorem free_spares_live (s : heap) (pre post : list block) (len y l : Z) :
  arena_ok s (pre ++ (len, Alloc) :: post) ->
  In (y, l, Alloc) (place (first_block s) (pre ++ (len, Alloc) :: post)) ->
  y <> first_block s + size pre ->
  let s' := free s (first_block s + size pre + 8) in
  first_block s' = first_block s /\
  arena_ok s' (merge_free pre len post) /\
  In (y, l, Alloc) (place (first_block s') (merge_free pre len post)) /\
  forall a, y + 8 <= a < y + l + 8 -> byte_at (mem s') a = byte_at (mem s) a.
Proof.
  intros Hok Hin Hne s'.
  destruct (free_full s pre post len Hok) as (Hok' & Hsa & Hfr & Hk).
  fold s' in Hok', Hsa, Hfr.
  assert (Hfb : first_block s' = first_block s).
  { destruct Hsa as (_ & _ & _ & _ & _ & S6). unfold first_block. congruence. }
  assert (Hin' : In (y, l, Alloc)
                   (place (first_block s) (pre ++ (len, Limbo) :: post)))
    by (apply alloc_other; assumption).
  split; [exact Hfb|]. split; [exact Hok'|]. split.
  - rewrite Hfb. apply Hk. exact Hin'.
  - destruct Hok as [[_ [fl Hinv]] _].
    pose proof (inv_placed _ _ _ Hinv _ _ _ Hin) as Hp.
    apply payload_bytes; [lia|].
    intros w W1 W2 _. apply Hfr. exists y, l. split; [exact Hin' | lia].
Qed.

Lemma free_spares_live_witness :
  let s' := free heapD (first_block heapD + size [(24, Alloc)] + 8) in
  first_block s' = first_block heapD /\
  arena_ok s' (merge_free [(24, Alloc)] 24 [(24, Alloc); (24, Alloc)]) /\
  In (4296, 24, Alloc)
     (place (first_block s')
        (merge_free [(24, Alloc)] 24 [(24, Alloc); (24, Alloc)])) /\
  forall a, 4296 + 8 <= a < 4296 + 24 + 8 ->
    byte_at (mem s') a = byte_at (mem heapD) a.
Proof.
  apply (free_spares_live heapD [(24, Alloc)] [(24, Alloc); (24, Alloc)] 24
           4296 24 heapD_ok).
  - left. vm_compute. reflexivity.
  - vm_compute. discriminate.
Defined.

(** ** Reuse of a released block *)

Lemma allocateWithinHeap_fst (s : heap) (x req len cls : Z) :
  fst (allocateWithinHeap s x req len cls) = x + 8.
Proof.
  unfold allocateWithinHeap. cbv zeta. destruct (req <? len); reflexivity.
Qed.

(** A block of more than 8 bytes released between two allocated
    neighbours goes to the head of its class list unmerged, and the next
    [malloc] whose padded size is the block's length returns the pointer
    just released, in an exact class and in a range class alike, without
    asking the provider. *)
Theorem free_then_malloc_reuses (s : heap) (pre post : list block)
    (len n : Z) (fuel : nat) :
  arena_ok s (pre ++ (len, Alloc) :: post) ->
  take_free_end pre = (pre, 0) -> take_free_front post = (0, post) ->
  8 < len -> 0 < n -> align_new n = len ->
  let p := first_block s + size pre + 8 in
  exists s',
    malloc (S fuel) (free s p) n = Some (p, s') /\
    sbrk_log s' = sbrk_log s /\ mem_brk s' = mem_brk s.
Proof.
  intros Hok Hl Hr Hlen Hn Hal p.
  destruct (free_full s pre post len Hok) as ([[Hnl1 [fl1 Hinv1]] _] & Hsa & _).
  pose proof Hok as [[Hnl [fl Hinv]] _].
  apply Forall_app in Hnl as [Hnla Hnlb].
  pose proof (Forall_inv_tail Hnlb) as Hnlc.
  apply inv_to_limbo in Hinv.
  destruct (free_limbo_full s pre post len fl Hinv Hnla Hnlc)
    as (_ & _ & _ & _ & Hhead).
  rewrite Hl, Hr in Hhead. cbn [fst snd] in Hhead.
  replace (0 + len + 0) with len in Hhead by lia.
  specialize (Hhead Hlen). fold p in Hhead, Hinv1, Hsa.
  set (s1 := free s p) in *.
  assert (Emf : merge_free pre len post = pre ++ (len, Free) :: post).
  { unfold merge_free. rewrite Hl, Hr.
    replace (0 + len + 0) with len by lia. reflexivity. }
  rewrite Emf in Hinv1.
  destruct Hsa as (S1 & S2 & S3 & S4 & S5 & S6).
  assert (Hfb : first_block s1 = first_block s)
    by (unfold first_block; congruence).
  set (x := first_block s + size pre) in *.
  assert (P : In (x, len, Free)
                (place (first_block s1) (pre ++ (len, Free) :: post))).
  { apply place_mid. right. left. rewrite Hfb. reflexivity. }
  destruct (place_words _ _ _ _ _ (inv_blocks _ _ _ Hinv1) _ _ _ P)
    as (c & l & Hw & _ & _).
  pose proof (inv_placed _ _ _ Hinv1 _ _ _ P) as (P1 & P2 & P3 & P4 & P5 & P6).
  pose proof (inv_class _ _ _ Hinv1 _ _ _ P) as Hc.
  pose proof (inv_pos _ _ _ Hinv1) as Hhs.
  assert (Hgl : getLength (mem s1) x = len)
    by (apply (getLength_hdr (mem s1) x len c l); [lia | exact Hw]).
  assert (Hx0 : x <> 0) by (unfold first_block in *; lia).
  unfold malloc. rewrite (inv_init _ _ _ Hinv1). cbn [negb orb].
  destruct (Z.leb_spec n 0) as [|_]; [lia|].
  rewrite Hal. cbn [class_loop].
  destruct (Z.ltb_spec (calculateClass_new len) 24) as [_|]; [|lia].
  replace (heap_start s1 + calculateClass_new len * WORDSIZE)
    with (heap_start s + 8 * calculateClass_new len)
    by (rewrite S6; unfold WORDSIZE; lia).
  rewrite Hhead. cbn [scan].
  destruct (Z.eqb_spec x 0) as [|_]; [contradiction|].
  rewrite Hgl, Z.eqb_refl.
  assert (Et : (if calculateClass_new len <? 16
                then Some (Take x len) else Some (Take x len))
               = Some (Take x len))
    by (destruct (calculateClass_new len <? 16); reflexivity).
  rewrite Et.
  pose proof (allocateWithinHeap_fst s1 x len len (calculateClass_new len)) as Ef.
  pose proof (same_arena_awh s1 x len len (calculateClass_new len))
    as (_ & T2 & _ & T4 & _).
  destruct (allocateWithinHeap s1 x len len (calculateClass_new len))
    as [q s'] eqn:E.
  cbn [fst snd] in *. exists s'.
  split; [f_equal; f_equal; unfold p; lia|]. split; congruence.
Qed.

Lemma free_then_malloc_reuses_witness :
  let p := first_block heapD + size [(24, Alloc)] + 8 in
  exists s',
    malloc 1 (free heapD p) 16 = Some (p, s') /\
    sbrk_log s' = sbrk_log heapD /\ mem_brk s' = mem_brk heapD.
Proof.
  apply (free_then_malloc_reuses heapD [(24, Alloc)]
           [(24, Alloc); (24, Alloc)] 24 16 0 heapD_ok);
    try reflexivity; lia.
Defined.

(** ** The free-list index *)

(** [insertIntoFreeList] puts a block at the head of a class list: the
    class head points to it, its backward link is null, its forward link
    is the former head, whose backward link now points to it, and the rest
    of the list is as before. *)
Theorem insert_at_head (hs : Z) (m : memory) (c : Z) (L : list Z) (x : Z) :
  0 <= c < 24 -> 0 <= hs ->
  (forall y, In y L -> node hs y) -> node hs x -> ~ In x L -> NoDup L ->
  load64 m (hs + 8 * c) = hd 0 L -> links m 0 L 0 ->
  let m' := insertIntoFreeList m (hs + 8 * c) x in
  load64 m' (hs + 8 * c) = x /\
  load64 m' (x + 8) = 0 /\ load64 m' (x + 16) = hd 0 L /\
  links m' 0 (x :: L) 0.
Proof.
  intros Hc Hhs Hn Hx Hni Hnd Hh Hl m'.
  destruct (insert_links hs m c L x Hc Hhs Hn Hx Hni Hnd Hh Hl) as [A B].
  fold m' in A, B. split; [exact A|].
  cbn [links hd] in B. destruct B as (B1 & B2 & B3).
  split; [exact B1|]. split; [exact B2|].
  cbn [links hd]. auto.
Qed.

Lemma insert_at_head_witness :
  let m := insertIntoFreeList
             (insertIntoFreeList (fun _ => 0) (4096 + 8 * 1) 4296)
             (4096 + 8 * 1) 4328 in
  let m' := insertIntoFreeList m (4096 + 8 * 1) 4360 in
  load64 m' (4096 + 8 * 1) = 4360 /\
  load64 m' (4360 + 8) = 0 /\ load64 m' (4360 + 16) = hd 0 [4328; 4296] /\
  links m' 0 [4360; 4328; 4296] 0.
Proof.
  apply (insert_at_head 4096 _ 1 [4328; 4296] 4360).
  - lia.
  - lia.
  - intros y [<-|[<-|[]]]; unfold node, two64; lia.
  - unfold node, two64. lia.
  - simpl. intuition lia.
  - repeat constructor; simpl; intuition lia.
  - vm_compute. reflexivity.
  - vm_compute. auto.
Defined.

(** [removeFromFreeList] takes a listed block out of its class list
    wherever it stands (first, last, in the middle, alone): the class head
    and the links then describe the list without it. *)
Theorem unlink_removes (hs : Z) (m : memory) (len c : Z) (L1 L2 : list Z)
    (y : Z) :
  c = calculateClass_new len -> 0 <= c < 24 -> 0 <= hs ->
  (forall x, In x (L1 ++ y :: L2) -> node hs x) ->
  NoDup (L1 ++ y :: L2) ->
  load64 m (hs + 8 * c) = hd 0 (L1 ++ y :: L2) ->
  links m 0 (L1 ++ y :: L2) 0 ->
  load64 (removeFromFreeList hs m y len) (hs + 8 * c) = hd 0 (L1 ++ L2) /\
  links (removeFromFreeList hs m y len) 0 (L1 ++ L2) 0.
Proof. apply remove_links. Qed.

(** Unlinking the block that was just inserted restores the list. *)
Theorem insert_remove_round_trip (hs : Z) (m : memory) (len c : Z)
    (L : list Z) (x : Z) :
  c = calculateClass_new len -> 0 <= c < 24 -> 0 <= hs ->
  (forall y, In y L -> node hs y) -> node hs x -> ~ In x L -> NoDup L ->
  load64 m (hs + 8 * c) = hd 0 L -> links m 0 L 0 ->
  let m' := insertIntoFreeList m (hs + 8 * c) x in
  let m'' := removeFromFreeList hs m' x len in
  load64 m'' (hs + 8 * c) = hd 0 L /\ links m'' 0 L 0.
Proof.
  intros Ec Hc Hhs Hn Hx Hni Hnd Hh Hl m' m''.
  destruct (insert_links hs m c L x Hc Hhs Hn Hx Hni Hnd Hh Hl) as [A B].
  fold m' in A, B.
  apply (remove_links hs m' len c [] L x); try assumption.
  - intros y [<-|Hy]; [exact Hx | apply Hn; exact Hy].
  - constructor; assumption.
Qed.

Lemma insert_remove_round_trip_witness :
  let m := insertIntoFreeList
             (insertIntoFreeList (fun _ => 0) (4096 + 8 * 1) 4296)
             (4096 + 8 * 1) 4328 in
  let m' := insertIntoFreeList m (4096 + 8 * 1) 4360 in
  let m'' := removeFromFreeList 4096 m' 4360 24 in
  load64 m'' (4096 + 8 * 1) = hd 0 [4328; 4296] /\
  links m'' 0 [4328; 4296] 0.
Proof.
  apply (insert_remove_round_trip 4096 _ 24 1 [4328; 4296] 4360).
  - reflexivity.
  - lia.
  - lia.
  - intros y [<-|[<-|[]]]; unfold node, two64; lia.
  - unfold node, two64. lia.
  - simpl. intuition lia.
  - repeat constructor; simpl; intuition lia.
  - vm_compute. reflexivity.
  - vm_compute. auto.
Defined.

Lemma unlink_removes_witness :
  let m := insertIntoFreeList
             (insertIntoFreeList (fun _ => 0) (4096 + 8 * 1) 4296)
             (4096 + 8 * 1) 4328 in
  load64 (removeFromFreeList 4096 m 4296 24) (4096 + 8 * 1)
  = hd 0 ([4328] ++ []) /\
  links (removeFromFreeList 4096 m 4296 24) 0 ([4328] ++ []) 0.
Proof.
  apply (unlink_removes 4096 _ 24 1 [4328] [] 4296);
    try lia; try reflexivity.
  - intros x [<-|[<-|[]]]; unfold node, two64; lia.
  - repeat constructor; simpl; intuition lia.
  - vm_compute. auto.
Defined.

(** ** Order of the size classes *)

(** The class index grows with the padded size, and a block of an exact
    class at or above the class of a request is never shorter than the
    request: this is why the head of an exact class can be taken without
    looking at its length. *)
Theorem class_order (req len : Z) :
  8 <= req -> req mod 16 = 8 -> 8 <= len -> len mod 16 = 8 ->
  len + 8 < two64 -> req + 8 < two64 ->
  (req <= len -> calculateClass_new req <= calculateClass_new len) /\
  (calculateClass_new len < 16 ->
   calculateClass_new req <= calculateClass_new len -> req <= len) /\
  (calculateClass_new len < 16 ->
   calculateClass_new req = calculateClass_new len -> req = len).
Proof.
  intros H1 H2 H3 H4 H5 H6. split; [|split].
  - intros Hle. apply class_mono; assumption.
  - intros Hc Hle. apply exact_class_fits; assumption.
  - intros Hc He.
    assert (A : req <= len) by (apply exact_class_fits; try assumption; lia).
    assert (B : len <= req) by (apply exact_class_fits; try assumption; lia).
    lia.
Qed.

Lemma class_order_witness :
  (24 <= 40 -> calculateClass_new 24 <= calculateClass_new 40) /\
  (calculateClass_new 40 < 16 ->
   calculateClass_new 24 <= calculateClass_new 40 -> 24 <= 40) /\
  (calculateClass_new 40 < 16 ->
   calculateClass_new 24 = calculateClass_new 40 -> 24 = 40).
Proof.
  apply (class_order 24 40); try reflexivity; unfold two64; lia.
Defined.

(** ** The two ways to serve a request *)

(** [allocateExtra] with room at the provider: the new block starts where
    the epilogue was, the returned pointer is the old end of the arena,
    the arena grows by the padded size plus one header word, the block
    sequence gains an allocated block at its end, and no word below the
    old epilogue is written.  Without room it returns null and only the
    provider's log changes. *)
Theorem grow_appends_block (s : heap) (bs : list block) (req : Z) :
  arena_ok s bs -> 8 <= req -> req mod 16 = 8 -> req + 8 < two64 ->
  (mem_brk s + (req + 8) <= mem_max_addr s ->
   fst (allocateExtra s req) = mem_brk s /\
   mem_brk (snd (allocateExtra s req)) = mem_brk s + req + 8 /\
   arena_ok (snd (allocateExtra s req)) (bs ++ [(req, Alloc)]) /\
   forall w, w + 8 <= epilogue s ->
     load64 (mem (snd (allocateExtra s req))) w = load64 (mem s) w) /\
  (mem_max_addr s < mem_brk s + (req + 8) ->
   allocateExtra s req = (NULL, refused s (req + 8))).
Proof.
  intros [[Hnl [fl Hinv]] Hes] H1 H2 H3. split.
  - intros Hcap.
    destruct (allocateExtra_ok s bs fl req Hinv Hes Hnl H1 H2 H3 Hcap)
      as (E1 & Hinv' & Hes' & Hbrk & Hfr).
    split; [rewrite E1; unfold epilogue; lia|]. split; [exact Hbrk|].
    split; [|exact Hfr]. split; [|exact Hes'].
    split; [|exists fl; exact Hinv'].
    apply Forall_app. split; [assumption|].
    constructor; [discriminate | constructor].
  - intros Hcap. rewrite allocateExtra_refused by (rewrite u64_small; lia).
    rewrite u64_small by lia. reflexivity.
Qed.

Lemma grow_appends_block_witness :
  (mem_brk heapA + (40 + 8) <= mem_max_addr heapA ->
   fst (allocateExtra heapA 40) = mem_brk heapA /\
   mem_brk (snd (allocateExtra heapA 40)) = mem_brk heapA + 40 + 8 /\
   arena_ok (snd (allocateExtra heapA 40)) ([(24, Alloc)] ++ [(40, Alloc)]) /\
   forall w, w + 8 <= epilogue heapA ->
     load64 (mem (snd (allocateExtra heapA 40))) w = load64 (mem heapA) w) /\
  (mem_max_addr heapA < mem_brk heapA + (40 + 8) ->
   allocateExtra heapA 40 = (NULL, refused heapA (40 + 8))).
Proof.
  apply (grow_appends_block heapA [(24, Alloc)] 40 heapA_ok);
    [lia | reflexivity | unfold two64; lia].
Defined.

(** [allocateWithinHeap] on a listed free block that is long enough: the
    pointer is the block's payload; a longer block is split into an
    allocated block of the padded size and a free remainder, an exact fit
    is taken whole; the arena stays well formed, does not grow, and the
    payload of the blocks that were allocated is not written. *)
Theorem take_splits_block (s : heap) (pre post : list block)
    (length req cls : Z) :
  arena_ok s (pre ++ (length, Free) :: post) ->
  8 < length -> 8 <= req -> req mod 16 = 8 -> req <= length ->
  let x := first_block s + size pre in
  let r := allocateWithinHeap s x req length cls in
  fst r = x + 8 /\ mem_brk (snd r) = mem_brk s /\
  arena_ok (snd r)
    (if req <? length
     then pre ++ (req, Alloc) :: (length - req - 8, Free) :: post
     else pre ++ (length, Alloc) :: post) /\
  forall w, in_payload s (pre ++ (length, Free) :: post) w ->
    load64 (mem (snd r)) w = load64 (mem s) w.
Proof.
  intros [[Hnl [fl Hinv]] Hes] H1 H2 H3 H4 x r.
  apply Forall_app in Hnl as [Hnl1 Hnl2]. inversion Hnl2 as [|? ? _ Hnl3]; subst.
  destruct (allocateWithinHeap_ok s pre post length req cls fl Hinv Hnl1 Hnl3)
    as (E1 & [fl' Hinv'] & He & Hbrk); try assumption.
  fold x r in E1, Hinv', He, Hbrk.
  split; [exact E1|]. split; [exact Hbrk|]. split.
  - change (arena_ok (snd r) (served pre length req post)).
    split; [split|].
    + apply no_limbo_served; assumption.
    + exists fl'. exact Hinv'.
    + apply (He 0); [reflexivity | exact Hes].
  - intros w Hw.
    apply (allocateWithinHeap_frame s pre post length req cls fl); assumption.
Qed.

Lemma take_splits_block_witness :
  let x := first_block heapI + size [] in
  let r := allocateWithinHeap heapI x 504 1000 17 in
  fst r = x + 8 /\ mem_brk (snd r) = mem_brk heapI /\
  arena_ok (snd r)
    (if 504 <? 1000
     then [] ++ (504, Alloc) :: (1000 - 504 - 8, Free) :: [(24, Alloc)]
     else [] ++ (1000, Alloc) :: [(24, Alloc)]) /\
  forall w, in_payload heapI ([] ++ (1000, Free) :: [(24, Alloc)]) w ->
    load64 (mem (snd r)) w = load64 (mem heapI) w.
Proof.
  apply (take_splits_block heapI [] [(24, Alloc)] 1000 504 17 heapI_ok);
    try lia; reflexivity.
Defined.

(** ** Calls that are not refused *)

(** [free] never looks at [initialized]: given a non-null pointer whose
    header word reads as an allocated block of length 0 with an allocated
    left neighbour, followed by a word that reads as allocated, it clears
    the current-allocated bit of the header and returns, on an
    initialised heap or not. *)
Theorem free_unguarded (s : heap) (p : Z) :
  p <> NULL -> load64 (mem s) (p - 8) = 3 -> load64 (mem s) p = 1 ->
  load64 (mem (free s p)) (p - 8) = 2 /\ load64 (mem (free s p)) p = 1 /\
  forall w, w + 8 <= p - 8 \/ p + 8 <= w ->
    load64 (mem (free s p)) w = load64 (mem s) w.
Proof.
  intros Hp H1 H2. unfold free.
  destruct (Z.eqb_spec p NULL) as [|_]; [contradiction|].
  cbn [with_mem mem].
  rewrite (free_block_steps (heap_start s) (mem s) p 0 true true 0 true true
             0 true false);
    try reflexivity; try lia;
    try (replace (p + 0) with p by lia; assumption);
    try assumption; try discriminate.
  unfold free_steps. cbn [negb andb]. norm_ws.
  replace (0 + 0 + 0) with 0 by lia.
  replace (p - 8 - 0) with (p - 8) by lia.
  replace (p - 8 + 8 + 0) with p by lia.
  replace (p - 8 + 0) with (p - 8) by lia.
  cbn [Z.ltb Z.compare].
  rewrite (construct_new_hdr _ _ 0 false true) by reflexivity.
  set (m3 := store64 (mem s) (p - 8) (hdr 0 false true)).
  set (m4 := mem_memcpy m3 (p - 8) (p - 8) 8).
  assert (E4 : load64 m4 (p - 8) = 2).
  { unfold m4. change 8 with WORDSIZE at 3. rewrite load64_memcpy_eq.
    unfold m3. rewrite load64_store64_eq. reflexivity. }
  assert (E5 : load64 m4 p = hdr 0 true false).
  { unfold m4. rewrite load64_memcpy_ne by lia.
    unfold m3. rewrite load64_store64_ne by lia. exact H2. }
  rewrite (setLeftAllocated_hdr m4 p 0 true false false) by (reflexivity || exact E5).
  split; [rewrite load64_store64_ne by lia; exact E4|].
  split; [rewrite load64_store64_eq; reflexivity|].
  intros w Hw. rewrite load64_store64_ne by lia.
  unfold m4. rewrite load64_memcpy_ne by lia.
  unfold m3. apply load64_store64_ne. lia.
Qed.

Lemma free_unguarded_witness :
  initialized heap_raw = false /\
  load64 (mem (free heap_raw 4112)) (4112 - 8) = 2 /\
  load64 (mem (free heap_raw 4112)) 4112 = 1 /\
  forall w, w + 8 <= 4112 - 8 \/ 4112 + 8 <= w ->
    load64 (mem (free heap_raw 4112)) w = load64 (mem heap_raw) w.
Proof.
  split; [reflexivity|].
  apply (free_unguarded heap_raw 4112);
    [discriminate | vm_compute; reflexivity | vm_compute; reflexivity].
Defined.

(** For the request sizes 2^64 - 7 to 2^64 - 1 the padded size wraps to
    8: [realloc] of a live block longer than 8 bytes cuts it down to 8
    bytes in place and releases the rest, so that the word after the
    first 8 payload bytes is now the header of a free block, although the
    caller asked for more than the block held. *)
Theorem realloc_wrapped_shrinks (s : heap) (pre post : list block)
    (len n : Z) (fuel : nat) :
  arena_ok s (pre ++ (len, Alloc) :: post) ->
  8 < len -> two64 - 7 <= n < two64 ->
  let p := first_block s + size pre + 8 in
  exists s', realloc fuel s p n = Some (p, s') /\
    exists bs' T lf,
      arena_ok s' bs' /\
      In (p - 8, 8, Alloc) (place (first_block s') bs') /\
      In (p + 8, T, Free) (place (first_block s') bs') /\
      load64 (mem s') (p + 8) = hdr T false lf.
Proof.
  intros Hok Hlen Hn p.
  pose proof Hok as [[Hnl [fl Hinv]] Hes].
  apply Forall_app in Hnl as [Hnl1 Hnl2]. inversion Hnl2 as [|? ? _ Hnl3]; subst.
  destruct (realloc_shrink s pre post len 8 fl fuel n Hinv Hnl1 Hnl3)
    as (s' & E & Hsa & [fl' Hinv'] & Hep & HF & HK);
    try lia; try reflexivity.
  { apply align_new_tiny. exact Hn. }
  { unfold two64 in *. lia. }
  fold p in E. exists s'. split; [exact E|].
  destruct Hsa as (S1 & S2 & S3 & S4 & S5 & S6).
  assert (Hfb : first_block s' = first_block s)
    by (unfold first_block; congruence).
  assert (Hsh : exists T post',
            shrunk pre len 8 post = (pre ++ [(8, Alloc)]) ++ (T, Free) :: post').
  { unfold shrunk, merge_free, take_free_end. rewrite rev_app_distr.
    cbn [rev app]. destruct (take_free_front post) as [rs post'].
    eexists _, post'. reflexivity. }
  destruct Hsh as (T & post' & Hsh).
  assert (PF : In (p + 8, T, Free) (place (first_block s') (shrunk pre len 8 post))).
  { rewrite Hsh. apply place_mid. right. left. rewrite Hfb, size_app.
    cbn [size]. f_equal. f_equal. unfold p. lia. }
  destruct (place_words _ _ _ _ _ (inv_blocks _ _ _ Hinv') _ _ _ PF)
    as (c & lf & Hw & Hc & _).
  cbn [cur_ok] in Hc. subst c.
  exists (shrunk pre len 8 post), T, lf.
  split; [|split; [|split; [exact PF | exact Hw]]].
  - split; [split|].
    + unfold shrunk. apply no_limbo_merge_free; [|assumption].
      apply Forall_app. split; [assumption|].
      constructor; [discriminate | constructor].
    + exists fl'. exact Hinv'.
    + apply (Hep 0); [reflexivity | exact Hes].
  - rewrite Hfb. apply HK. apply place_mid. right. left.
    f_equal. f_equal. unfold p. lia.
Qed.

Lemma realloc_wrapped_shrinks_witness :
  let p := first_block heapG + size [] + 8 in
  exists s', realloc 0 heapG p (two64 - 1) = Some (p, s') /\
    exists bs' T lf,
      arena_ok s' bs' /\
      In (p - 8, 8, Alloc) (place (first_block s') bs') /\
      In (p + 8, T, Free) (place (first_block s') bs') /\
      load64 (mem s') (p + 8) = hdr T false lf.
Proof.
  apply (realloc_wrapped_shrinks heapG [] [] 1000 (two64 - 1) 0 heapG_ok);
    unfold two64; lia.
Defined.

(** * Sequences of calls *)

(** ** Fuel *)

(** A list walk that ends within [f] steps ends the same way within any
    larger number of steps. *)
Lemma scan_more (m : memory) (c req : Z) :
  forall (f f' : nat) cur bl ba r, (f <= f')%nat ->
    scan f m c req cur bl ba = Some r -> scan f' m c req cur bl ba = Some r.
Proof.
  induction f as [|f IH]; intros f' cur bl ba r Hle H; [discriminate|].
  destruct f' as [|f']; [lia|]. cbn [scan] in *.
  destruct (cur =? 0); [exact H|].
  destruct (c <? 16); [exact H|].
  destruct (req =? getLength m cur); [exact H|].
  destruct (req <? getLength m cur);
    [destruct (bl =? 0); [|destruct (getLength m cur <? bl)]|];
    (apply IH; [lia | exact H]).
Qed.

Lemma class_loop_more (s : heap) (req : Z) (f f' : nat) :
  (f <= f')%nat ->
  forall n c j r,
    class_loop n f s req c j = Some r -> class_loop n f' s req c j = Some r.
Proof.
  intros Hle. induction n as [|n IH]; intros c j r H; cbn [class_loop] in *.
  - exact H.
  - destruct (c <? 24); [|exact H].
    destruct (scan f (mem s) c req (load64 (mem s) (heap_start s + c * WORDSIZE))
                   0 0) as [sr|] eqn:E; [|discriminate].
    rewrite (scan_more _ _ _ _ _ _ _ _ _ Hle E).
    destruct sr as [x l|bl ba]; [exact H|].
    destruct (negb (bl =? 0)); [exact H|].
    destruct (next_class c j) as [c' j']. apply IH. exact H.
Qed.

Lemma malloc_more (s : heap) (n : Z) (f f' : nat) (r : Z * heap) :
  (f <= f')%nat -> malloc f s n = Some r -> malloc f' s n = Some r.
Proof.
  intros Hle. unfold malloc.
  destruct (negb (initialized s) || (n <=? 0)); [tauto|].
  apply class_loop_more. exact Hle.
Qed.

Lemma realloc_more (s : heap) (p n : Z) (f f' : nat) (r : Z * heap) :
  (f <= f')%nat -> realloc f s p n = Some r -> realloc f' s p n = Some r.
Proof.
  intros Hle. unfold realloc.
  destruct (p =? NULL); [apply malloc_more; exact Hle|].
  destruct (n =? 0); [tauto|].
  destruct (deconstruct_new (mem s) (p - WORDSIZE)) as [[ol a] la].
  destruct (align_new n <? ol); [tauto|].
  destruct (ol <? align_new n); [|tauto].
  destruct (malloc f s (align_new n)) as [r1|] eqn:E; [|discriminate].
  rewrite (malloc_more _ _ _ _ _ Hle E). tauto.
Qed.

(** ** One call on a well-formed arena *)

(** [p] is the payload address of an allocated block. *)
Definition live (s : heap) (bs : list block) (p : Z) : Prop :=
  exists l, In (p - 8, l, Alloc) (place (first_block s) bs).

Lemma live_split (s : heap) (bs : list block) (p : Z) :
  live s bs p ->
  exists pre post len,
    bs = pre ++ (len, Alloc) :: post /\ p = first_block s + size pre + 8.
Proof.
  intros [l H]. destruct (place_split _ _ _ _ _ H) as (pre & post & E & Ex).
  exists pre, post, l. split; [exact E | lia].
Qed.

Lemma malloc_step (s : heap) (bs : list block) (n : Z) (fuel : nat)
    (p : Z) (s' : heap) :
  arena_ok s bs -> 0 < n -> n + 24 <= two64 ->
  malloc fuel s n = Some (p, s') ->
  exists bs', arena_ok s' bs' /\
    (p <> NULL -> live s' bs' p) /\
    forall q, live s bs q -> live s' bs' q.
Proof.
  intros [Hok Hes] Hn Hmax E.
  destruct (malloc_ok s bs n Hok Hes) as [k Hk]; [unfold two64 in *; lia|].
  destruct (Hk (Nat.max k fuel) (Nat.le_max_l _ _)) as (r & Em & Hout).
  rewrite (malloc_more _ _ _ _ _ (Nat.le_max_r k fuel) E) in Em.
  injection Em as <-.
  destruct Hout as [(H0 & _) | [(_ & _ & Hres) | (Hw & _)]];
    [lia | | unfold two64 in *; lia].
  destruct Hres as [(E1 & E2 & _) | (Hnn & bs1 & Hap)]; cbn [fst snd] in *.
  - subst p s'. exists bs. split; [|split].
    + split; [apply heap_ok_refused; exact Hok | exact Hes].
    + intros H. contradiction.
    + intros q Hq. exact Hq.
  - exists bs1.
    destruct Hap as [Hok1 Hes1 Hhs' _ _ Hnew _ Hkeep _].
    assert (Hfb : first_block s' = first_block s)
      by (unfold first_block; rewrite Hhs'; reflexivity).
    split; [split; assumption|]. split.
    + intros _. exists (align_new n). rewrite Hfb. exact Hnew.
    + intros q [l Hq]. exists l. rewrite Hfb. apply Hkeep. exact Hq.
Qed.

Lemma free_step (s : heap) (bs : list block) (p : Z) :
  arena_ok s bs -> live s bs p ->
  exists bs', arena_ok (free s p) bs' /\
    forall q, live s bs q -> q <> p -> live (free s p) bs' q.
Proof.
  intros Hok Hp.
  destruct (live_split _ _ _ Hp) as (pre & post & len & -> & Ep).
  destruct (free_full s pre post len Hok) as (Hok' & Hsa & _ & Hk).
  rewrite <- Ep in Hok'. exists (merge_free pre len post).
  split; [exact Hok'|].
  intros q [l Hq] Hne. exists l.
  destruct (same_arena_free s p) as (_ & _ & _ & _ & _ & S6).
  unfold first_block at 1. rewrite S6. fold (first_block s).
  apply Hk. apply alloc_other; [exact Hq | lia].
Qed.

Lemma realloc_step (s : heap) (bs : list block) (p n : Z) (fuel : nat)
    (q : Z) (s' : heap) :
  arena_ok s bs -> live s bs p -> 0 < n -> n + 24 <= two64 ->
  realloc fuel s p n = Some (q, s') ->
  exists bs', arena_ok s' bs' /\
    (q = NULL -> forall y, live s bs y -> live s' bs' y) /\
    (q <> NULL -> live s' bs' q /\
       forall y, live s bs y -> y <> p -> live s' bs' y).
Proof.
  intros Hok Hp Hn Hmax E.
  destruct (live_split _ _ _ Hp) as (pre & post & len & -> & Ep).
  destruct (realloc_full s pre post len n Hok Hn Hmax) as [k Hk].
  destruct (Hk (Nat.max k fuel) (Nat.le_max_l _ _))
    as (q' & s1 & Er & Hhs & H0 & H1).
  rewrite <- Ep in Er.
  rewrite (realloc_more _ _ _ _ _ _ (Nat.le_max_r k fuel) E) in Er.
  injection Er as <- <-.
  assert (Hfb : first_block s' = first_block s)
    by (unfold first_block; rewrite Hhs; reflexivity).
  destruct (Z.eq_dec q NULL) as [Hq|Hq].
  - destruct (H0 Hq) as (_ & _ & Hok').
    exists (pre ++ (len, Alloc) :: post). split; [exact Hok'|]. split.
    + intros _ y [l Hy]. exists l. rewrite Hfb. exact Hy.
    + intros H. contradiction.
  - destruct (H1 Hq) as (_ & (bs' & Hok' & Hnew & Hkeep) & _).
    exists bs'. split; [exact Hok'|]. split; [intros H; contradiction|].
    intros _. split; [exists (align_new n); exact Hnew|].
    intros y [l Hy] Hne. exists l. apply Hkeep; [exact Hy | lia].
Qed.

(** A live pointer is not null, is a multiple of 16 and lies between
    the first and the last byte of the arena. *)
Lemma live_aligned (s : heap) (bs : list block) (p : Z) :
  arena_ok s bs -> live s bs p ->
  p <> NULL /\ aligned p = true /\ in_heap s p = true.
Proof.
  intros [[_ [fl Hinv]] _] [l Hl].
  pose proof (inv_placed _ _ _ Hinv _ _ _ Hl) as (P1 & P2 & P3 & P4 & P5 & P6).
  pose proof (inv_bounds _ _ _ Hinv) as [B1 B2].
  pose proof (inv_al _ _ _ Hinv) as Hal.
  pose proof (inv_lo _ _ _ Hinv) as Hlo.
  pose proof (inv_pos _ _ _ Hinv) as Hpos.
  unfold first_block, epilogue in *.
  split; [unfold NULL; lia|]. split.
  - unfold aligned, align, u64, ALIGNMENT, two64 in *. apply Z.eqb_eq. lia.
  - unfold in_heap, mem_heap_hi, mem_heap_lo. apply andb_true_iff. split.
    + apply Z.leb_le. lia.
    + apply Z.geb_le. lia.
Qed.

(** ** The states the interface reaches *)

(** An arena the provider has just handed out: empty, starting at a
    positive multiple of 16, with room for the 26 words of [mm_init]. *)
Definition fresh_arena (s0 : heap) : Prop :=
  mem_brk s0 = mem_start_brk s0 /\ 0 < mem_start_brk s0 /\
  mem_start_brk s0 mod 16 = 0 /\
  mem_start_brk s0 + 208 <= mem_max_addr s0 /\ mem_max_addr s0 <= two64.

(** [calls s L]: the state [s] is reached from [mm_init] on a fresh arena
    by calls to [malloc], [free] and [realloc], with request sizes from 1
    to 2^64 - 24, [free] and [realloc] being given pointers that an
    earlier call returned and no later call released; [L] lists the
    pointers returned and not yet released. *)
Inductive calls : heap -> list Z -> Prop :=
| calls_init (s0 : heap) :
    fresh_arena s0 -> calls (snd (mm_init s0)) []
| calls_malloc (fuel : nat) (s : heap) (L : list Z) (n p : Z) (s' : heap) :
    calls s L -> 0 < n -> n + 24 <= two64 ->
    malloc fuel s n = Some (p, s') ->
    calls s' (if p =? NULL then L else p :: L)
| calls_free (s : heap) (L : list Z) (p : Z) :
    calls s L -> In p L ->
    calls (free s p) (remove Z.eq_dec p L)
| calls_realloc (fuel : nat) (s : heap) (L : list Z) (p n q : Z)
    (s' : heap) :
    calls s L -> In p L -> 0 < n -> n + 24 <= two64 ->
    realloc fuel s p n = Some (q, s') ->
    calls s' (if q =? NULL then L else q :: remove Z.eq_dec p L).

Lemma calls_inv (s : heap) (L : list Z) :
  calls s L ->
  exists bs, arena_ok s bs /\ forall p, In p L -> live s bs p.
Proof.
  induction 1 as [s0 (F1 & F2 & F3 & F4 & F5)
                 | fuel s L n p s' _ [bs [Hok Hl]] Hn Hmax E
                 | s L p _ [bs [Hok Hl]] Hp
                 | fuel s L p n q s' _ [bs [Hok Hl]] Hp Hn Hmax E].
  - exists []. split; [apply (mm_init_ok s0); assumption|].
    intros p [].
  - destruct (malloc_step s bs n fuel p s' Hok Hn Hmax E)
      as (bs' & Hok' & Hnew & Hkeep).
    exists bs'. split; [exact Hok'|].
    destruct (Z.eqb_spec p NULL) as [Hq|Hq].
    + intros y Hy. apply Hkeep, Hl, Hy.
    + intros y [<-|Hy]; [apply Hnew, Hq | apply Hkeep, Hl, Hy].
  - destruct (free_step s bs p Hok (Hl p Hp)) as (bs' & Hok' & Hkeep).
    exists bs'. split; [exact Hok'|].
    intros y Hy. apply in_remove in Hy as [Hy Hne].
    apply Hkeep; [apply Hl, Hy | exact Hne].
  - destruct (realloc_step s bs p n fuel q s' Hok (Hl p Hp) Hn Hmax E)
      as (bs' & Hok' & H0 & H1).
    exists bs'. split; [exact Hok'|].
    destruct (Z.eqb_spec q NULL) as [Hq|Hq].
    + intros y Hy. apply (H0 Hq), Hl, Hy.
    + destruct (H1 Hq) as [Hnew Hkeep].
      intros y [<-|Hy]; [exact Hnew|].
      apply in_remove in Hy as [Hy Hne].
      apply Hkeep; [apply Hl, Hy | exact Hne].
Qed.

(** C5: along every sequence of [malloc], [free] and [realloc] calls that
    starts with [mm_init] on a fresh arena, with request sizes from 1 to
    2^64 - 24 and with [free] and [realloc] given live pointers: every
    call returns (given fuel for the list walks), every non-null pointer
    that [malloc] or [realloc] returns is a multiple of 16 inside the
    arena as it is when the call returns, and so is, in every later
    state, every pointer returned and not yet released. *)
Theorem returned_pointers_ok (s : heap) (L : list Z) :
  calls s L ->
  (forall p, In p L ->
     p <> NULL /\ aligned p = true /\ in_heap s p = true) /\
  (forall n, 0 < n -> n + 24 <= two64 ->
     (exists k : nat, forall fuel, (k <= fuel)%nat ->
        exists p s', malloc fuel s n = Some (p, s')) /\
     forall fuel p s', malloc fuel s n = Some (p, s') -> p <> NULL ->
       aligned p = true /\ in_heap s' p = true) /\
  (forall p n, In p L -> 0 < n -> n + 24 <= two64 ->
     (exists k : nat, forall fuel, (k <= fuel)%nat ->
        exists q s', realloc fuel s p n = Some (q, s')) /\
     forall fuel q s', realloc fuel s p n = Some (q, s') -> q <> NULL ->
       aligned q = true /\ in_heap s' q = true).
Proof.
  intros Hc. pose proof (calls_inv s L Hc) as (bs & Hok & Hl).
  split; [|split].
  - intros p Hp. apply (live_aligned s bs); [exact Hok | apply Hl, Hp].
  - intros n Hn Hmax. split.
    + destruct Hok as [Hok Hes].
      destruct (malloc_ok s bs n Hok Hes) as [k Hk]; [unfold two64 in *; lia|].
      exists k. intros fuel Hf. destruct (Hk fuel Hf) as ([p s'] & E & _).
      exists p, s'. exact E.
    + intros fuel p s' E Hp.
      destruct (malloc_step s bs n fuel p s' Hok Hn Hmax E)
        as (bs' & Hok' & Hnew & _).
      apply (live_aligned s' bs' p Hok' (Hnew Hp)).
  - intros p n Hp Hn Hmax.
    destruct (live_split _ _ _ (Hl p Hp)) as (pre & post & len & Ebs & Ep).
    split.
    + subst bs.
      destruct (realloc_full s pre post len n Hok Hn Hmax) as [k Hk].
      exists k. intros fuel Hf.
      destruct (Hk fuel Hf) as (q & s' & E & _).
      exists q, s'. rewrite Ep. exact E.
    + intros fuel q s' E Hq.
      destruct (realloc_step s bs p n fuel q s' Hok (Hl p Hp) Hn Hmax E)
        as (bs' & Hok' & _ & H1).
      apply (live_aligned s' bs' q Hok'). exact (proj1 (H1 Hq)).
Qed.

(** C5 (counterexample): a request of 2^64 - 8 bytes on the heap
    [mm_init] leaves: the padded size wraps, the provider is asked for 0
    bytes, and [malloc] returns the address one past the last byte of the
    arena. *)
Lemma malloc_returns_past_arena :
  fst (mm_init heap0) = true /\
  result_ptr (malloc 1 heap1 (two64 - 8)) = 4304 /\
  mem_heap_hi (result_state heap1 (malloc 1 heap1 (two64 - 8))) = 4303 /\
  in_heap (result_state heap1 (malloc 1 heap1 (two64 - 8))) 4304 = false.
Proof. vm_compute. repeat split; reflexivity. Qed.

Lemma heap0_fresh : fresh_arena heap0.
Proof. unfold fresh_arena, two64. cbn. lia. Qed.

(** A successful call of [malloc] as a step of a sequence. *)
Lemma calls_malloc_at (fuel : nat) (s : heap) (L : list Z) (n p : Z) :
  calls s L -> 0 < n -> n + 24 <= two64 ->
  malloc fuel s n <> None -> result_ptr (malloc fuel s n) = p -> p <> NULL ->
  calls (result_state s (malloc fuel s n)) (p :: L).
Proof.
  intros Hc Hn Hmax Hs Hp Hnn.
  destruct (malloc fuel s n) as [[q s']|] eqn:E; [|contradiction].
  cbn [result_ptr result_state] in *. subst q.
  pose proof (calls_malloc fuel s L n p s' Hc Hn Hmax E) as H.
  destruct (Z.eqb_spec p NULL); [contradiction | exact H].
Qed.

Ltac grown :=
  rewrite malloc_grows_eq by
    first [reflexivity | lia | vm_compute; reflexivity];
  discriminate.

(** The worked heap [heapF] is reached by four calls of [malloc] and two
    of [free]; the second and the fourth block are live. *)
Lemma heapF_reached : calls heapF [4400; 4336].
Proof.
  assert (A : calls heapA [4304]).
  { apply (calls_malloc_at 1 heap1 [] 16 4304 (calls_init heap0 heap0_fresh));
      [lia | unfold two64; lia | grown | vm_compute; reflexivity
       | discriminate]. }
  assert (B : calls heapB [4336; 4304]).
  { apply (calls_malloc_at 1 heapA _ 16 4336 A);
      [lia | unfold two64; lia | grown | vm_compute; reflexivity
       | discriminate]. }
  assert (C : calls heapC [4368; 4336; 4304]).
  { apply (calls_malloc_at 1 heapB _ 16 4368 B);
      [lia | unfold two64; lia | grown | vm_compute; reflexivity
       | discriminate]. }
  assert (D : calls heapD [4400; 4368; 4336; 4304]).
  { apply (calls_malloc_at 1 heapC _ 16 4400 C);
      [lia | unfold two64; lia | grown | vm_compute; reflexivity
       | discriminate]. }
  assert (E : calls heapE [4400; 4368; 4336]).
  { pose proof (calls_free heapD _ 4304 D) as H.
    replace (remove Z.eq_dec 4304 [4400; 4368; 4336; 4304])
      with [4400; 4368; 4336] in H by (vm_compute; reflexivity).
    apply H. simpl. tauto. }
  pose proof (calls_free heapE _ 4368 E) as H.
  replace (remove Z.eq_dec 4368 [4400; 4368; 4336])
    with [4400; 4336] in H by (vm_compute; reflexivity).
  apply H. simpl. tauto.
Qed.

Lemma returned_pointers_ok_witness :
  (4400 <> NULL /\ aligned 4400 = true /\ in_heap heapF 4400 = true) /\
  (4336 <> NULL /\ aligned 4336 = true /\ in_heap heapF 4336 = true).
Proof.
  pose proof (proj1 (returned_pointers_ok heapF [4400; 4336] heapF_reached))
    as H.
  split; apply H; simpl; tauto.
Defined.

(** ** A resize whose padded size wraps *)

(** The second block of [heapD] with a word written into its payload. *)
Definition heapD_marked : heap :=
  with_mem heapD (store64 (mem heapD) (4336 + 8) 81985529216486895).

(** C8 (counterexample): [realloc] of that block, 24 bytes long, to
    2^64 - 1 bytes: the padded size wraps to 8, the call returns the old
    pointer, and the byte at offset 8, within the first
    [min (2^64 - 1) 24] bytes, no longer holds what the caller wrote: it
    is now part of the header of a free block. *)
Lemma realloc_wrapped_cuts_content :
  deconstruct_new (mem heapD_marked) (4336 - 8) = (24, true, true) /\
  align_new (two64 - 1) = 8 /\
  result_ptr (realloc 1 heapD_marked 4336 (two64 - 1)) = 4336 /\
  8 < Z.min (two64 - 1) 24 /\
  byte_at (mem heapD_marked) (4336 + 8) = 239 /\
  byte_at (mem (result_state heapD_marked
                  (realloc 1 heapD_marked 4336 (two64 - 1)))) (4336 + 8)
  = 10.
Proof. vm_compute. repeat split; reflexivity. Qed.
